(** * Local deformation analysis (main.py): a shallow embedding

    The development follows [src/main.py]: the [Protein] record with its
    neighbour graph and local distance tensor, the ensemble consensus of
    [AverageProtein], and the per-residue metrics of [Deformation]; and, of
    [src/pdb_parser.py], the reader of alpha carbons, the sequence clusters
    and the resolution of ambiguous alignments.

    Conventions of the embedding.
    - A numpy float64 is a primitive binary64 float ([PrimFloat]); its
      operations are the IEEE operations with their specification in
      [SpecFloat].  A 1-D array is a [list float], a 2-D array a list of rows.
    - The lddt score, a quotient of two integers, is kept as the exact
      rational that Python's division rounds.
    - A Python exception is [None] in the option monad.
    - Names the source uses without binding them ([cut], [min_conf], [norm],
      [rotate_points], [AS.rotate_points]) and the LAPACK routines behind
      [np.linalg.svd], [np.linalg.det] and [np.linalg.inv] are Section
      variables.  [cdist] is given its Euclidean definition.
    - Methods are read with their receiver ([self]) and [coord.shape] as the
      attribute, as their bodies use them.
    - [Bio.PDB]'s parser is outside the source; the reader is embedded over
      the parsed structure, with the parser as a Section variable.  The
      reader catches every exception of its loop body, a [NameError]
      included, so the names that body reads without a binding
      ([parse_3letter] in main.py, [IUPACData] in pdb_parser.py) are read as
      written: the call raises and the loop goes on.

    Layout: the model (arrays, [Protein], [AverageProtein], [Deformation],
    the file reader, the distance from a mutation, the sequence functions of
    pdb_parser.py), the concrete structures used as inputs, then the lemmas,
    the claims and further properties of the code. *)

From Stdlib Require Import ZArith QArith Floats Lia Bool Sorted.
From stdpp Require Import base option list gmap strings.

Set Default Proof Using "Type".

(** ** numpy arrays and the array operations the source calls *)

Module Np.

Abbreviation vec := (list float).
Abbreviation matrix := (list (list float)).

(** An [int] used in float arithmetic *)
Definition float_of_nat (n : nat) : float :=
  PrimFloat.of_uint63 (Uint63.of_Z (Z.of_nat n)).

(** [np.zeros(n)] *)
Definition zeros (n : nat) : vec := replicate n 0%float.

(** Elementwise binary operation on two 1-D arrays with numpy's broadcasting:
    equal lengths pair up, a length-1 operand is stretched, anything else
    raises [ValueError]. *)
Definition broadcast2 {A B C} (f : A → B → C) (a : list A) (b : list B)
  : option (list C) :=
  if decide (length a = length b) then Some (zip_with f a b)
  else match a, b with
       | [x], _ => Some (fmap (f x) b)
       | _, [y] => Some (fmap (λ x, f x y) a)
       | _, _ => None
       end.

(** [np.where(mask)[0]]: the positions holding [True], ascending. *)
Fixpoint where_from (k : nat) (mask : list bool) : list nat :=
  match mask with
  | [] => []
  | b :: mask' => (if b then [k] else []) ++ where_from (S k) mask'
  end.

Definition where_ (mask : list bool) : list nat := where_from 0 mask.

(** [a - b] on rows of one length *)
Definition vsub (a b : vec) : vec := zip_with PrimFloat.sub a b.

(** [np.sum(x * x)], accumulated left to right *)
Definition sumsq (v : vec) : float :=
  foldl (λ acc x, acc + x * x)%float 0%float v.

(** [np.linalg.norm(v)] of a 1-D array *)
Definition norm (v : vec) : float := PrimFloat.sqrt (sumsq v).

(** [np.linalg.norm(m)] of a 2-D array (Frobenius) *)
Definition fnorm (m : matrix) : float := PrimFloat.sqrt (sumsq (concat m)).

(** [np.isfinite] *)
Definition isfinite (x : float) : bool := PrimFloat.is_finite x.

(** Modelled from the spec: [cdist] is called in the source without being
    imported or defined; the spec's "full pairwise Euclidean distance matrix"
    is the distance [sqrt(sum((a - b)**2))] between every row of [xa] and
    every row of [xb]. *)
Definition cdist (xa xb : matrix) : matrix :=
  fmap (λ a, fmap (λ b, norm (vsub a b)) xb) xa.

(** [a[ix]] with a list of positions (fancy indexing); a position past the
    end raises [IndexError]. *)
Definition index_list {A} (a : list A) (ix : list nat) : option (list A) :=
  mapM (λ j, a !! j) ix.

(** The inner product behind [@] *)
Definition dot (a b : vec) : float :=
  foldl (λ acc p, acc + p.1 * p.2)%float 0%float (zip a b).

Definition column (k : nat) (m : matrix) : vec :=
  fmap (λ r, default 0%float (r !! k)) m.

(** [m.T] of an array with [ncols] columns *)
Definition transpose (ncols : nat) (m : matrix) : matrix :=
  fmap (λ k, column k m) (seq 0 ncols).

Definition ncols (m : matrix) : nat := length (default [] (head m)).

(** [a @ b] for 2-D arrays, [b] having [cols] columns: the inner dimensions
    must agree. *)
Definition matmul (cols : nat) (a b : matrix) : option matrix :=
  if forallb (λ r, Nat.eqb (length r) (length b)) a
  then Some (fmap (λ r, fmap (λ k, dot r (column k b)) (seq 0 cols)) a)
  else None.

(** [R @ p] for a 2-D array and a 1-D array *)
Definition matvec (r : matrix) (p : vec) : option vec :=
  if forallb (λ row, Nat.eqb (length row) (length p)) r
  then Some (fmap (λ row, dot row p) r)
  else None.

(** [a - b] on 1-D arrays *)
Definition sub1 (a b : vec) : option vec := broadcast2 PrimFloat.sub a b.

(** [a - b] on 2-D arrays, broadcasting along both axes *)
Definition msub (a b : matrix) : option matrix :=
  rows ← broadcast2 sub1 a b; mapM id rows.

Definition mscale (c : float) (m : matrix) : matrix :=
  (λ r : vec, PrimFloat.mul c <$> r) <$> m.

(** [np.diag(m)] of a square 2-D array *)
Definition diag (m : matrix) : vec :=
  imap (λ k r, default 0%float (r !! k)) m.

(** [np.sum] of a 1-D array of floats *)
Definition array_sum (v : vec) : float :=
  match v with
  | [] => 0%float
  | x :: v' => foldl PrimFloat.add x v'
  end.

(** [a + b] on 2-D arrays of one shape *)
Definition madd (a b : matrix) : option matrix :=
  if decide (length a = length b ∧ ncols a = ncols b)
  then Some (zip_with (zip_with PrimFloat.add) a b) else None.

Fixpoint msum (acc : matrix) (ms : list matrix) : option matrix :=
  match ms with
  | [] => Some acc
  | m :: ms' => acc' ← madd acc m; msum acc' ms'
  end.

(** [np.mean(ms, axis=0)] of a non-empty list of equally shaped 2-D arrays:
    the elementwise sum, first array first, divided by their number. *)
Definition mean0 (ms : list matrix) : option matrix :=
  match ms with
  | [] => None
  | m :: ms' =>
      let n := float_of_nat (length ms) in
      s ← msum m ms';
      Some ((λ r : vec, (λ x, x / n)%float <$> r) <$> (s : matrix))
  end.

End Np.

Import Np.

(** ** Python values passed as keyword arguments *)

Inductive pyval : Type :=
| PyStr (s : string)
| PyNum (x : float)
| PyInts (ns : list Z)
| PyList1 (xs : vec)
| PyList2 (rows : matrix).

(** [np.array(v, dtype=float)] where the source goes on to use a 2-D array, a
    1-D array of floats, and [np.array(v, dtype=int)].  The embedding covers
    the values the loading collaborators supply (lists of numbers, the empty
    default); other Python values are rejected.  The empty list gives
    [np.array([])], of shape [(0,)]: the empty list of rows stands for this
    array, and a 2-D array has one row at least. *)
Definition array2 (v : pyval) : option matrix :=
  match v with
  | PyList2 rows => Some rows
  | PyList1 [] => Some []
  | _ => None
  end.

Definition array1 (v : pyval) : option vec :=
  match v with
  | PyList1 xs => Some xs
  | _ => None
  end.

Definition array_int (v : pyval) : option (list Z) :=
  match v with
  | PyInts ns => Some ns
  | PyList1 [] => Some []
  | _ => None
  end.

(** [PosixPath(v)] accepts a string. *)
Definition posix_path (v : pyval) : option string :=
  match v with
  | PyStr s => Some s
  | _ => None
  end.

(** [d in names] for a list of string literals *)
Definition py_in (d : pyval) (names : list string) : bool :=
  match d with
  | PyStr s => bool_decide (s ∈ names)
  | _ => false
  end.

(** [kwargs.get(key, dflt)] *)
Definition kwargs_get (kwargs : gmap string pyval) (key : string)
  (dflt : pyval) : pyval :=
  default dflt (kwargs !! key).

(** ** class Protein *)

Module Protein.

Record t : Type := mk {
  name : pyval;
  dtype : pyval;
  sequence : pyval;
  coord : matrix;
  max_bfactor : pyval;
  min_plddt : pyval;
  idx : list Z;
  plddt : vec;
  bfactor : vec;
  path : string;
  neigh_idx : list (list nat);
  neigh_tensor : list matrix;
  neigh_cut : pyval
}.

(** [Protein.__init__(self, **kwargs)] *)
Definition __init__ (kwargs : gmap string pyval) : option t :=
  let name_ := kwargs_get kwargs "name" (PyStr "") in
  let dtype_ := kwargs_get kwargs "name" (PyStr "") in
  let sequence_ := kwargs_get kwargs "sequence" (PyStr "") in
  coord_ ← array2 (kwargs_get kwargs "coord" (PyList1 []));
  let max_bfactor_ := kwargs_get kwargs "max_bfactor" (PyNum 0) in
  let min_plddt_ := kwargs_get kwargs "min_plddt" (PyNum 0) in
  idx_ ← array_int (kwargs_get kwargs "idx" (PyList1 []));
  plddt_ ← array1 (kwargs_get kwargs "plddt" (PyList1 []));
  bfactor_ ← array1 (kwargs_get kwargs "bfactor" (PyList1 []));
  path_ ← posix_path (kwargs_get kwargs "path" (PyStr ""));
  Some (mk name_ dtype_ sequence_ coord_ max_bfactor_ min_plddt_ idx_ plddt_
           bfactor_ path_ [] [] (kwargs_get kwargs "neigh_cut" (PyNum 0))).

(** [load_coordinates] *)
Definition load_coordinates (self : t) (coordinates : matrix) : t :=
  mk (name self) (dtype self) (sequence self) coordinates (max_bfactor self)
     (min_plddt self) (idx self) (plddt self) (bfactor self) (path self)
     (neigh_idx self) (neigh_tensor self) (neigh_cut self).

Definition set_neigh_idx (self : t) (idx_list : list (list nat)) : t :=
  mk (name self) (dtype self) (sequence self) (coord self) (max_bfactor self)
     (min_plddt self) (idx self) (plddt self) (bfactor self) (path self)
     idx_list (neigh_tensor self) (neigh_cut self).

Definition set_neigh_tensor (self : t) (tensor : list matrix) : t :=
  mk (name self) (dtype self) (sequence self) (coord self) (max_bfactor self)
     (min_plddt self) (idx self) (plddt self) (bfactor self) (path self)
     (neigh_idx self) tensor (neigh_cut self).

(** The inner loop of [_get_ldt] for one residue [i]:
    [for j in neigh_idx[i]: dist[i,j] = coord[i] - coord[j]], on row [i] of
    [dist].  An index [j] past the end raises [IndexError]. *)
Fixpoint fill_row (coord : matrix) (ci : vec) (row : matrix) (nb : list nat)
  : option matrix :=
  match nb with
  | [] => Some row
  | j :: nb' =>
      cj ← coord !! j;
      fill_row coord ci (<[j := vsub ci cj]> row) nb'
  end.

(** [l, dim = coord.shape]: unpacking the shape [(0,)] of [np.array([])]
    raises [ValueError]. *)
Definition shape (coord : matrix) : option (nat * nat) :=
  match coord with
  | [] => None
  | _ => Some (length coord, ncols coord)
  end.

(** The branch of [_get_ldt] taken when [neigh_idx] is a string: all pairs
    [i < j], the entry [(j,i)] being the negated copy of [(i,j)]. *)
Definition full_entry (coord : matrix) (i j : nat) : option vec :=
  ci ← coord !! i; cj ← coord !! j;
  Some (if decide (i = j) then zeros (ncols coord)
        else if decide (i < j) then vsub ci cj
        else fmap PrimFloat.opp (vsub cj ci)).

Definition _get_ldt_full (coord : matrix) : option (list matrix) :=
  s ← shape coord;
  let l := s.1 in
  mapM (λ i, mapM (λ j, full_entry coord i j) (seq 0 l)) (seq 0 l).

(** [_get_ldt] with a neighbourhood given ([neigh_idx] a list of index
    arrays): [dist = np.zeros((l, l, dim))], then only the entries of
    neighbouring residues are written. *)
Definition _get_ldt_idx (coord : matrix) (neigh_idx : list (list nat))
  : option (list matrix) :=
  s ← shape coord;
  let l := s.1 in
  let dim := s.2 in
  mapM (λ i, ci ← coord !! i; nb ← neigh_idx !! i;
             fill_row coord ci (replicate l (zeros dim)) nb)
       (seq 0 l).

(** [neigh_idx] is initialised to a list and assigned a list of index arrays,
    so [isinstance(self.neigh_idx, str)] is false on a [Protein]. *)
Definition _get_ldt (self : t) : option (list matrix) :=
  _get_ldt_idx (coord self) (neigh_idx self).

Section Neighborhood.

(** [cut] and [min_conf] are free names in [get_local_neighborhood]. *)
Variable cut : float.
Variable min_conf : float.

(** [np.where((d > 0) & (d <= cut) & (plddt >= min_conf) & (p >= min_conf))[0]] *)
Definition neighbours_model (plddt : vec) (d : vec) (p : float)
  : option (list nat) :=
  m ← broadcast2 andb
        (fmap (λ x, (0 <? x) && (x <=? cut))%float d)
        (fmap (λ q, (min_conf <=? q)%float) plddt);
  Some (where_ (fmap (λ b, b && (min_conf <=? p)%float) m)).

(** [np.where((d > 0) & (d <= cut) & (np.isfinite(d)))[0]] *)
Definition neighbours_experimental (d : vec) : list nat :=
  where_ (fmap (λ x, (0 <? x) && (x <=? cut) && isfinite x)%float d).

(** The [idx_list] of [get_local_neighborhood]; with a [dtype] outside
    'af', 'dmp', 'pdb' the name is unbound when it is read. *)
Definition idx_list_of (dtype : pyval) (plddt : vec) (dist : matrix)
  : option (list (list nat)) :=
  if py_in dtype ["af"; "dmp"]
  then mapM (λ dp, neighbours_model plddt dp.1 dp.2) (zip dist plddt)
  else if py_in dtype ["pdb"]
  then Some (fmap neighbours_experimental dist)
  else None.

Definition get_local_neighborhood (self : t) : option t :=
  let xyz := coord self in
  let dist := cdist xyz xyz in
  idx_list ← idx_list_of (dtype self) (plddt self) dist;
  let self1 := set_neigh_idx self idx_list in
  tensor ← _get_ldt self1;
  Some (set_neigh_tensor self1 tensor).

End Neighborhood.

End Protein.

(** ** class AverageProtein *)

Module AverageProtein.

Record t : Type := mk {
  proteins : list Protein.t;
  dtype : pyval;
  idx : list Z;
  plddt : vec;
  bfactor : vec;
  name : pyval;
  neigh_idx : list (list nat);
  neigh_tensor : list matrix;
  neigh_cut : pyval;
  max_bfactor : pyval;
  min_plddt : pyval
}.

(** [AverageProtein.__init__(self, proteins, **kwargs)]; [proteins[0]] raises
    [IndexError] on an empty list. *)
Definition __init__ (proteins : list Protein.t) (kwargs : gmap string pyval)
  : option t :=
  p0 ← proteins !! 0;
  idx_ ← array_int (kwargs_get kwargs "idx" (PyList1 []));
  plddt_ ← array1 (kwargs_get kwargs "plddt" (PyList1 []));
  bfactor_ ← array1 (kwargs_get kwargs "bfactor" (PyList1 []));
  Some (mk proteins (Protein.dtype p0) idx_ plddt_ bfactor_
           (kwargs_get kwargs "name" (PyStr "")) [] []
           (kwargs_get kwargs "neigh_cut" (PyNum 0))
           (kwargs_get kwargs "max_bfactor" (PyNum 0))
           (kwargs_get kwargs "min_plddt" (PyNum 0))).

Definition set_neigh (self : t) (idx_list : list (list nat))
  (tensor : list matrix) : t :=
  mk (proteins self) (dtype self) (idx self) (plddt self) (bfactor self)
     (name self) idx_list tensor (neigh_cut self) (max_bfactor self)
     (min_plddt self).

(** [_get_ldt(self, coord)]: the body of [Protein._get_ldt] on the given
    coordinates and the consensus [self.neigh_idx]. *)
Definition _get_ldt (neigh_idx : list (list nat)) (coord : matrix)
  : option (list matrix) :=
  Protein._get_ldt_idx coord neigh_idx.

Section Superposition.

(** [np.linalg.svd] and [np.linalg.det] are LAPACK routines; [svd] returns
    [(U, S, Vt)] or raises [LinAlgError]. *)
Variable svd : matrix → option (matrix * vec * matrix).
Variable det : matrix → float.

(** [_rotate_points(P, Q)]: the point sets are [N × 3] arrays. *)
Definition _rotate_points (P Q : matrix) : option matrix :=
  H ← matmul 3 (transpose 3 P) Q;
  usv ← svd H;
  let U := usv.1.1 in
  let Vt := usv.2 in
  let V := transpose 3 Vt in
  VUt ← matmul 3 V (transpose 3 U);
  let D := det VUt in
  let E := [[1; 0; 0]; [0; 1; 0]; [0; 0; D]]%float in
  VE ← matmul 3 V E;
  R ← matmul 3 VE (transpose 3 U);
  mapM (λ p, matvec R p) P.

(** [np.sign] *)
Definition sign (x : float) : float :=
  if (x <? 0)%float then (-1)%float
  else if (0 <? x)%float then 1%float
  else if (x =? 0)%float then 0%float
  else nan.

(** The superposition in the spec's words: the correction entry is
    [d = sign(det(V·Uᵗ))]. *)
Definition rotate_points_spec (P Q : matrix) : option matrix :=
  H ← matmul 3 (transpose 3 P) Q;
  usv ← svd H;
  let U := usv.1.1 in
  let Vt := usv.2 in
  let V := transpose 3 Vt in
  VUt ← matmul 3 V (transpose 3 U);
  let d := sign (det VUt) in
  let E := [[1; 0; 0]; [0; 1; 0]; [0; 0; d]]%float in
  VE ← matmul 3 V E;
  R ← matmul 3 VE (transpose 3 U);
  mapM (λ p, matvec R p) P.

End Superposition.

Section Consensus.

(** [rotate_points] is a free name in [_rotate_all_ldt]; [cut] is one in
    [get_average_local_neighborhood]. *)
Variable rotate_points : matrix → matrix → option matrix.
Variable cut : float.

(** [_rotate_all_ldt(ldt, idx_list)].  For residue [j] the list holds
    [ldt[0][j, idx_list[j]]] first, then every other member's selection
    rotated onto that first one.  [ldt.shape[1]] needs one member at least. *)
Definition _rotate_all_ldt (ldt : list (list matrix))
  (idx_list : list (list nat)) : option (list (list matrix)) :=
  first ← ldt !! 0;
  let L := length first in
  mapM (λ j,
          ix ← idx_list !! j;
          sel ← mapM (λ member : list matrix, row ← member !! j; index_list row ix) ldt;
          match sel with
          | [] => None
          | ref :: others =>
              rotated ← mapM (λ s, rotate_points s ref) others;
              Some (ref :: rotated)
          end)
       (seq 0 L).

(** [_average_all_ldt(ldt_list, idx_list)]: [ave_ldt = [None] * L], then
    every slot [i] in [range(L)] is assigned the mean over the members when
    [len(idx_list[i]) > 1], and [[]] otherwise. *)
Definition average_entry (ldt_list : list (list matrix))
  (idx_list : list (list nat)) (i : nat) : option matrix :=
  ix ← idx_list !! i;
  if decide (1 < length ix)
  then members ← ldt_list !! i; mean0 members
  else Some [].

Definition _average_all_ldt (ldt_list : list (list matrix))
  (idx_list : list (list nat)) : option (list matrix) :=
  let L := length ldt_list in
  mapM (average_entry ldt_list idx_list) (seq 0 L).

(** [get_average_local_neighborhood].  With [dtype] in 'af', 'dmp' the name
    [coord_list] is unbound when the distance matrices are averaged (the
    branch binds [xyz_list]); with any other [dtype] but 'pdb' it is unbound
    as well. *)
Definition get_average_local_neighborhood (self : t) : option t :=
  _ ← proteins self !! 0;
  if py_in (dtype self) ["af"; "dmp"] then None
  else if py_in (dtype self) ["pdb"] then
    let coord_list := Protein.coord <$> proteins self in
    ca_dist ← mean0 ((λ x, cdist x x) <$> coord_list);
    let idx_list := Protein.neighbours_experimental cut <$> ca_dist in
    ldt ← mapM (_get_ldt idx_list) coord_list;
    ldt_list ← _rotate_all_ldt ldt idx_list;
    ave_ldt ← _average_all_ldt ldt_list idx_list;
    Some (set_neigh self idx_list ave_ldt)
  else None.

End Consensus.

End AverageProtein.
(** ** class Deformation *)

(** The two attributes the engine reads from either kind of structure. *)
Class Neighbourhood (A : Type) : Type := {
  neigh_idx : A → list (list nat);
  neigh_tensor : A → list matrix
}.

#[export] Instance protein_neighbourhood : Neighbourhood Protein.t :=
  {| neigh_idx := Protein.neigh_idx; neigh_tensor := Protein.neigh_tensor |}.

#[export] Instance average_neighbourhood : Neighbourhood AverageProtein.t :=
  {| neigh_idx := AverageProtein.neigh_idx;
     neigh_tensor := AverageProtein.neigh_tensor |}.

(** A per-residue lddt value: NaN, or the quotient of two integers
    [np.sum(...) / (4 * len(dv))].  The embedding keeps the exact quotient,
    which Python rounds to the nearest binary64. *)
Inductive ratio : Type :=
| RNaN
| Ratio (q : Q).

(** The arrays stored in [self.deformation]. *)
Inductive scores : Type :=
| LddtScores (l : list ratio)
| Scores (l : vec).

Module Deformation.

Record t (A B : Type) : Type := mk {
  prot1 : A;
  prot2 : B;
  method : string;
  neigh_cut : pyval;
  max_bfactor : pyval;
  min_plddt : pyval;
  deformation : gmap string scores;
  mutations : list nat;
  mutation_idx : list nat
}.
Arguments mk {A B}.
Arguments prot1 {A B}.
Arguments prot2 {A B}.
Arguments method {A B}.
Arguments deformation {A B}.

(** An argument of [Deformation.__init__]: a path (a [str], a [PosixPath] or
    a [list]), or a structure object. *)
Inductive arg (A : Type) : Type :=
| Path (p : string)
| Obj (a : A).
Arguments Path {A}.
Arguments Obj {A}.

Section Init.

(** [Protein().load_data_from_path(path)] reads a structure file. *)
Variable load_data_from_path : string → option Protein.t.
Context {A B : Type}.
Variable from_protein1 : Protein.t → A.
Variable from_protein2 : Protein.t → B.

Definition load {C} (inj : Protein.t → C) (a : arg C) : option C :=
  match a with
  | Path p => inj <$> load_data_from_path p
  | Obj c => Some c
  end.

(** [Deformation.__init__(self, protein_1, protein_2, method, **kwargs)] *)
Definition __init__ (protein_1 : arg A) (protein_2 : arg B) (method : string)
  (kwargs : gmap string pyval) : option (t A B) :=
  p1 ← load from_protein1 protein_1;
  p2 ← load from_protein2 protein_2;
  Some (mk p1 p2 method
           (kwargs_get kwargs "neigh_cut" (PyNum 0))
           (kwargs_get kwargs "max_bfactor" (PyNum 0))
           (kwargs_get kwargs "min_plddt" (PyNum 0))
           ∅ [] []).

End Init.

Section Engine.

(** [norm] is a free name in the metrics; [AS.rotate_points] belongs to a
    module the source does not import; [np.linalg.inv] is a LAPACK routine
    that raises [LinAlgError] on a singular matrix. *)
Variable norm : bool.
Variable rotate_points : matrix → matrix → option matrix.
Variable inv : matrix → option matrix.

Context {A B : Type} `{!Neighbourhood A} `{!Neighbourhood B}.

(** [[j for j, k in enumerate(a) if k in b]] *)
Definition shared_positions (a b : list nat) : list nat :=
  where_ ((λ k, bool_decide (k ∈ b)) <$> a).

(** The start of every metric's loop body for residue [i]: [None] inside
    stands for "append NaN and continue"; otherwise the shared positions
    [i1] and the selected rows [tensor1[i][i1]], [tensor2[i][i2]]. *)
Definition residue_data (self : t A B) (i : nat)
  : option (option (list nat * matrix * matrix)) :=
  t1 ← neigh_tensor (prot1 self) !! i;
  t2 ← neigh_tensor (prot2 self) !! i;
  if decide (length t1 = 0 ∨ length t2 = 0) then Some None
  else
    n1 ← neigh_idx (prot1 self) !! i;
    n2 ← neigh_idx (prot2 self) !! i;
    let i1 := shared_positions n1 n2 in
    let i2 := shared_positions n2 n1 in
    if decide (length i1 = 0) then Some None
    else
      c1 ← index_list t1 i1;
      c2 ← index_list t2 i2;
      Some (Some (i1, c1, c2)).

(** [np.sum(dv <= cut)] *)
Definition count_within (dv : vec) (cut : float) : nat :=
  length (filter (λ x, (x <=? cut)%float = true) dv).

(** [np.sum([np.sum(dv <= cut) for cut in bins])] *)
Definition count_bins (bins dv : vec) : nat :=
  foldr Nat.add 0 (count_within dv <$> bins).

Definition default_bins : vec := [0.5; 1; 2; 4]%float.

Definition lddt_residue (bins : vec) (self : t A B) (i : nat) : option ratio :=
  let bins := if decide (length bins = 0) then default_bins else bins in
  d ← residue_data self i;
  match d with
  | None => Some RNaN
  | Some (_, c1, c2) =>
      let v1 := Np.norm <$> c1 in
      let v2 := Np.norm <$> c2 in
      dv ← sub1 v2 v1;
      Some (Ratio (Z.of_nat (count_bins bins dv)
                   # Pos.of_nat (4 * length dv)))
  end.

Definition calculate_deformation_lddt (bins : vec) (self : t A B)
  : option (list ratio) :=
  mapM (lddt_residue bins self) (seq 0 (length (neigh_tensor (prot1 self)))).

Definition ldd_residue (self : t A B) (i : nat) : option float :=
  d ← residue_data self i;
  match d with
  | None => Some nan
  | Some (i1, c1, c2) =>
      let ld1 := Np.norm <$> c1 in
      let ld2 := Np.norm <$> c2 in
      dl ← sub1 ld1 ld2;
      Some (if norm then (Np.norm dl / float_of_nat (length i1))%float
            else Np.norm dl)
  end.

Definition calculate_deformation_ldd (self : t A B) : option vec :=
  mapM (ldd_residue self) (seq 0 (length (neigh_tensor (prot1 self)))).

Definition ntd_residue (self : t A B) (i : nat) : option float :=
  d ← residue_data self i;
  match d with
  | None => Some nan
  | Some (i1, c1, c2) =>
      c3 ← rotate_points c2 c1;
      r ← msub c3 c1;
      Some (if norm then (fnorm r / float_of_nat (length i1))%float
            else fnorm r)
  end.

Definition calculate_deformation_ntd (self : t A B) : option vec :=
  mapM (ntd_residue self) (seq 0 (length (neigh_tensor (prot1 self)))).

(** The body of the [try] block of the shear metric. *)
Definition shear_value (u1 u2 : matrix) : option float :=
  u2u2 ← matmul (length u2) u2 (transpose (ncols u2) u2);
  u1u1 ← matmul (length u1) u1 (transpose (ncols u1) u1);
  duu ← msub u2u2 u1u1;
  g ← matmul (ncols u1) (transpose (ncols u1) u1) u1;
  uu ← inv g;
  m1 ← matmul (length u1) uu (transpose (ncols u1) u1);
  m2 ← matmul (ncols duu) m1 duu;
  m3 ← matmul (ncols u1) m2 u1;
  m4 ← matmul (ncols uu) m3 uu;
  let C := mscale 0.5 m4 in
  CC ← matmul (ncols C) C C;
  dd ← sub1 (diag CC) ((λ x, x * x)%float <$> diag C);
  Some (0.5 * array_sum dd)%float.

Definition shear_residue (self : t A B) (i : nat) : option float :=
  d ← residue_data self i;
  match d with
  | None => Some nan
  | Some (_, u1, u2) => Some (default nan (shear_value u1 u2))
  end.

Definition calculate_deformation_shear (self : t A B) : option vec :=
  mapM (shear_residue self) (seq 0 (length (neigh_tensor (prot1 self)))).

(** [for j in range(len(c1)): s += norm(c3[j] - c1[j]) / norm(c1[j])] *)
Fixpoint strain_loop (c3 c1 : matrix) (js : list nat) (s : float)
  : option float :=
  match js with
  | [] => Some s
  | j :: js' =>
      a ← c3 !! j;
      b ← c1 !! j;
      d ← sub1 a b;
      strain_loop c3 c1 js' (s + Np.norm d / Np.norm b)%float
  end.

Definition strain_residue (self : t A B) (i : nat) : option float :=
  d ← residue_data self i;
  match d with
  | None => Some nan
  | Some (i1, c1, c2) =>
      c3 ← rotate_points c2 c1;
      s ← strain_loop c3 c1 (seq 0 (length c1)) 0%float;
      Some (if norm then (s / float_of_nat (length i1))%float else s)
  end.

Definition calculate_deformation_strain (self : t A B) : option vec :=
  mapM (strain_residue self) (seq 0 (length (neigh_tensor (prot1 self)))).

Definition set_deformation (self : t A B) (d : gmap string scores) : t A B :=
  mk (prot1 self) (prot2 self) (method self) (neigh_cut _ _ self)
     (max_bfactor _ _ self) (min_plddt _ _ self) d (mutations _ _ self)
     (mutation_idx _ _ self).

(** [calculate_deformation_all] on the dictionary [d] *)
Definition calculate_deformation_all (self : t A B) (d : gmap string scores)
  : option (gmap string scores) :=
  lddt ← calculate_deformation_lddt [] self;
  ldd ← calculate_deformation_ldd self;
  ntd ← calculate_deformation_ntd self;
  shear ← calculate_deformation_shear self;
  strain ← calculate_deformation_strain self;
  Some (<["strain" := Scores strain]>
        (<["shear" := Scores shear]>
         (<["ntd" := Scores ntd]>
          (<["ldd" := Scores ldd]>
           (<["lddt" := LddtScores lddt]> d))))).

(** [calculate_deformation]: the dictionary is emptied, then filled
    according to [self.method]. *)
Definition calculate_deformation (self : t A B) : option (t A B) :=
  let d : gmap string scores := ∅ in
  d' ← (if String.eqb (method self) "all" then calculate_deformation_all self d
        else if String.eqb (method self) "lddt" then
          r ← calculate_deformation_lddt [] self;
          Some (<["lddt" := LddtScores r]> d)
        else if String.eqb (method self) "ldd" then
          r ← calculate_deformation_ldd self; Some (<["ldd" := Scores r]> d)
        else if String.eqb (method self) "ntd" then
          r ← calculate_deformation_ntd self; Some (<["ntd" := Scores r]> d)
        else if String.eqb (method self) "shear" then
          r ← calculate_deformation_shear self; Some (<["shear" := Scores r]> d)
        else if String.eqb (method self) "strain" then
          r ← calculate_deformation_strain self; Some (<["strain" := Scores r]> d)
        else Some d);
  Some (set_deformation self d').

End Engine.

End Deformation.

(** ** Properties the claims read off the model *)

Section Readings.

Context {A B : Type} `{!Neighbourhood A} `{!Neighbourhood B}.

(** "Entries for non-neighbours are absent": the tensor holds nothing at
    [(i,j)] unless [j] is listed for [i]. *)
Definition non_neighbours_absent (idx : list (list nat)) (tensor : list matrix)
  : Prop :=
  ∀ (i j : nat) (nb : list nat),
    idx !! i = Some nb → j ∉ nb → tensor !! i ≫= (.!! j) = None.

(** "Bitwise negation": the vector at [(i,j)] is, component by component,
    the IEEE negation of the vector at [(j,i)]. *)
Definition exact_negation (u v : vec) : Prop := u = PrimFloat.opp <$> v.

(** A metric keeps going past residue [i]: when the step of every other
    residue returns, the run returns the whole array, with [v] at [i] and
    the step's value everywhere. *)
Definition continues {X} (step : nat → option X) (run : option (list X))
  (l i : nat) (v : X) : Prop :=
  (∀ k, k < l → k ≠ i → is_Some (step k)) →
  ∃ r, run = Some r ∧ length r = l ∧ r !! i = Some v
       ∧ ∀ k, k < l → r !! k = step k.

(** The residue has no data to compare: an empty tensor entry on either
    side, or neighbour lists without a common index. *)
Definition no_comparable_data (self : Deformation.t A B) (i : nat) : Prop :=
  ∃ t1 t2,
    neigh_tensor (Deformation.prot1 self) !! i = Some t1
    ∧ neigh_tensor (Deformation.prot2 self) !! i = Some t2
    ∧ (length t1 = 0 ∨ length t2 = 0
       ∨ ∃ n1 n2,
           neigh_idx (Deformation.prot1 self) !! i = Some n1
           ∧ neigh_idx (Deformation.prot2 self) !! i = Some n2
           ∧ ∀ k, k ∈ n1 → k ∉ n2).

(** The lddt quotient of a vector [dv] of norm differences: the number of
    (difference, bin) pairs with [dv <= bin], over the bins 0.5, 1, 2, 4,
    divided by 4 times the number of differences. *)
Definition lddt_quotient (dv : vec) : Q :=
  Z.of_nat (Deformation.count_within dv 0.5 + Deformation.count_within dv 1
            + Deformation.count_within dv 2 + Deformation.count_within dv 4)
  # Pos.of_nat (4 * length dv).

End Readings.

(** ** Structures used as concrete inputs *)

(** The 5-residue chain with unit spacing of the spec's scenario, as an
    experimental ('pdb') structure. *)
Definition chain_coord : matrix :=
  [[0; 0; 0]; [1; 0; 0]; [2; 0; 0]; [3; 0; 0]; [4; 0; 0]]%float.

Definition chain_kwargs : gmap string pyval :=
  <["name" := PyStr "pdb"]> (<["coord" := PyList2 chain_coord]> ∅).

Definition chain_derived : option Protein.t :=
  Protein.__init__ chain_kwargs
  ≫= Protein.get_local_neighborhood 1.5%float 0%float.

(** The chain as [Protein(name='pdb', coord=...)] builds it, and after
    [get_local_neighborhood] with [cut = 1.5]. *)
Definition chain_protein : Protein.t :=
  Protein.mk (PyStr "pdb") (PyStr "pdb") (PyStr "") chain_coord (PyNum 0)
    (PyNum 0) [] [] [] "" [] [] (PyNum 0).

Definition chain_neigh : Protein.t :=
  default chain_protein
    (Protein.get_local_neighborhood 1.5%float 0%float chain_protein).

(** The chain with the coordinate of residue 0 missing. *)
Definition gap_protein : Protein.t :=
  Protein.load_coordinates chain_protein
    ([nan; nan; nan] :: drop 1 chain_coord).

Definition gap_neigh : Protein.t :=
  default gap_protein
    (Protein.get_local_neighborhood 1.5%float 0%float gap_protein).

(** A 3-residue chain, derived like the 5-residue one. *)
Definition short_protein : Protein.t :=
  Protein.load_coordinates chain_protein (take 3 chain_coord).

Definition short_neigh : Protein.t :=
  default short_protein
    (Protein.get_local_neighborhood 1.5%float 0%float short_protein).

(** Two residues 4 apart, and the same two residues 1 apart ([cut = 5]). *)
Definition far_pair : Protein.t :=
  default chain_protein
    (Protein.get_local_neighborhood 5%float 0%float
       (Protein.load_coordinates chain_protein [[0; 0; 0]; [4; 0; 0]]%float)).

Definition near_pair : Protein.t :=
  default chain_protein
    (Protein.get_local_neighborhood 5%float 0%float
       (Protein.load_coordinates chain_protein [[0; 0; 0]; [1; 0; 0]]%float)).

(** Comparisons of these structures; no structure is read from a file. *)
Definition no_loader (path : string) : option Protein.t := None.

Definition chain_self : Deformation.t Protein.t Protein.t :=
  Deformation.mk chain_neigh chain_neigh "all" (PyNum 0) (PyNum 0) (PyNum 0)
    ∅ [] [].

Definition chain_vs_gap : Deformation.t Protein.t Protein.t :=
  Deformation.mk chain_neigh gap_neigh "all" (PyNum 0) (PyNum 0) (PyNum 0)
    ∅ [] [].

Definition short_vs_chain : Deformation.t Protein.t Protein.t :=
  Deformation.mk short_neigh chain_neigh "lddt" (PyNum 0) (PyNum 0) (PyNum 0)
    ∅ [] [].

Definition chain_vs_short : Deformation.t Protein.t Protein.t :=
  Deformation.mk chain_neigh short_neigh "lddt" (PyNum 0) (PyNum 0) (PyNum 0)
    ∅ [] [].

Definition far_vs_near : Deformation.t Protein.t Protein.t :=
  Deformation.mk far_pair near_pair "lddt" (PyNum 0) (PyNum 0) (PyNum 0)
    ∅ [] [].

Definition near_vs_far : Deformation.t Protein.t Protein.t :=
  Deformation.mk near_pair far_pair "lddt" (PyNum 0) (PyNum 0) (PyNum 0)
    ∅ [] [].

(** Collected neighbourhoods of two ensemble members over three residues:
    residue 0 has one consensus neighbour, residue 1 has two, residue 2 has
    none. *)
Definition lone_ldt_list : list (list matrix) :=
  [ [ [[1; 0; 0]]; [[1; 0; 0]] ];
    [ [[1; 0; 0]; [0; 1; 0]]; [[3; 0; 0]; [0; 3; 0]] ];
    [ []; [] ] ]%float.

Definition lone_idx_list : list (list nat) := [[1]; [0; 2]; []].

(** A rotation about the third axis by an angle with cosine 5/13 and sine
    12/13, as binary64 values. *)
Definition rot_z : matrix :=
  [[5 / 13; 12 / 13; 0]; [- (12 / 13); 5 / 13; 0]; [0; 0; 1]]%float.

Definition eye3 : matrix := [[1; 0; 0]; [0; 1; 0]; [0; 0; 1]]%float.

(** The determinant of a 3 × 3 array by cofactor expansion. *)
Definition det3 (m : matrix) : float :=
  match m with
  | [[a; b; c]; [d; e; f]; [g; h; i]] =>
      (a * (e * i - f * h) - b * (d * i - f * g) + c * (d * h - e * g))%float
  | _ => nan
  end.

(** A factorisation routine that answers [(U, S, Vt) = (I, (1,1,1), H)]. *)
Definition svd_unit (H : matrix) : option (matrix * vec * matrix) :=
  Some (eye3, [1; 1; 1]%float, H).

(** ** Characters *)

Module Chars.

Import Stdlib.Strings.Ascii.

(** The default ['X'] of [parse_3letter] and the gap ['-'] of an alignment. *)
Definition X : ascii := "X"%char.
Definition gap : ascii := "-"%char.

End Chars.

(** ** Reductions over arrays *)

Module NpReduce.

(** [np.maximum] and [np.minimum] of two floats: a NaN operand wins. *)
Definition maximum (a b : float) : float :=
  if (b <=? a)%float || PrimFloat.is_nan a then a else b.

Definition minimum (a b : float) : float :=
  if (a <=? b)%float || PrimFloat.is_nan a then a else b.

(** [np.fmin] of two floats: a NaN operand loses. *)
Definition fmin (a b : float) : float :=
  if (a <=? b)%float || PrimFloat.is_nan b then a else b.

(** [np.max], [np.min] and [np.nanmin] of a 1-D array, reduced left to right;
    an empty array raises [ValueError]. *)
Definition max (v : vec) : option float :=
  match v with
  | [] => None
  | x :: v' => Some (foldl maximum x v')
  end.

Definition min (v : vec) : option float :=
  match v with
  | [] => None
  | x :: v' => Some (foldl minimum x v')
  end.

Definition nanmin (v : vec) : option float :=
  match v with
  | [] => None
  | x :: v' => Some (foldl fmin x v')
  end.

End NpReduce.

(** ** Strings *)

Module Str.

(** [str.upper] and [str.lower] on ASCII text. *)
Definition upper_char (c : Ascii.ascii) : Ascii.ascii :=
  let n := Ascii.nat_of_ascii c in
  if (97 <=? n)%nat && (n <=? 122)%nat then Ascii.ascii_of_nat (n - 32) else c.

Definition lower_char (c : Ascii.ascii) : Ascii.ascii :=
  let n := Ascii.nat_of_ascii c in
  if (65 <=? n)%nat && (n <=? 90)%nat then Ascii.ascii_of_nat (n + 32) else c.

Fixpoint lower (s : string) : string :=
  match s with
  | EmptyString => EmptyString
  | String c s' => String (lower_char c) (lower s')
  end.

(** The ASCII characters [str.strip] removes. *)
Definition is_space (c : Ascii.ascii) : bool :=
  let n := Ascii.nat_of_ascii c in
  ((9 <=? n)%nat && (n <=? 13)%nat) || ((28 <=? n)%nat && (n <=? 32)%nat).

Fixpoint lstrip (l : list Ascii.ascii) : list Ascii.ascii :=
  match l with
  | [] => []
  | c :: l' => if is_space c then lstrip l' else l
  end.

(** [s.strip()] *)
Definition strip (s : string) : string :=
  String.string_of_list_ascii
    (reverse (lstrip (reverse (lstrip (String.list_ascii_of_string s))))).

(** [''.join(seq)] for an array of one-letter strings *)
Definition join (letters : list Ascii.ascii) : string :=
  String.string_of_list_ascii letters.

(** [''.join(l)] for a list of strings *)
Definition concat (l : list string) : string := foldr String.append "" l.

End Str.

(** ** Reading the alpha carbons of a structure file *)

(** What the reader takes from the objects of [Bio.PDB]: a residue's id
    [(hetero flag, sequence number, insertion code)], its name and its atoms
    in file order; an atom's name, coordinates and B-factor. *)
Module PDB.

Record atom : Type := mk_atom {
  atom_id : string;
  atom_coord : vec;
  atom_bfactor : float
}.

Record residue : Type := mk_residue {
  hetero : string;
  resseq : Z;
  resname : string;
  atoms : list atom
}.

Record chain : Type := mk_chain {
  chain_id : string;
  residues : list residue
}.

(** [residue[id]]; [id in residue] is whether it exists.  Atom names are
    unique within a residue. *)
Definition child (r : residue) (id : string) : option atom :=
  List.find (λ a, String.eqb (atom_id a) id) (atoms r).

End PDB.

(** The four parallel arrays [[xyz, idx, seq, bfac]]; [seq] holds one-letter
    strings. *)
Module PdbData.

Record t : Type := mk {
  xyz : matrix;
  idx : list Z;
  seq : list Ascii.ascii;
  bfac : vec
}.

Definition empty : t := mk [] [] [] [].

(** [xyz.append(c); idx.append(i)] *)
Definition push_position (st : t) (c : vec) (i : Z) : t :=
  mk (xyz st ++ [c]) (idx st ++ [i]) (seq st) (bfac st).

(** [seq.append(s); bfac.append(b)] *)
Definition push_residue (st : t) (s : Ascii.ascii) (b : float) : t :=
  mk (xyz st) (idx st) (seq st ++ [s]) (bfac st ++ [b]).

End PdbData.

Module Reader.

(** A module-level name stands for the value its module binds to it.
    [IUPACData] is imported nowhere in pdb_parser.py, and main.py binds no
    [parse_3letter]: reading either name raises [NameError]. *)
Definition IUPACData : option (gmap string Ascii.ascii) := None.

(** [parse_3letter(x)] of pdb_parser.py: the table is looked up in
    [IUPACData] before the argument is evaluated; [x[0]] raises [IndexError]
    on the empty string. *)
Definition parse_3letter (x : string) : option Ascii.ascii :=
  protein_letters_3to1 ← IUPACData;
  match x with
  | EmptyString => None
  | String c rest =>
      Some (default Chars.X
              (protein_letters_3to1 !! String (Str.upper_char c) (Str.lower rest)))
  end.

(** The name [parse_3letter] as main.py reads it. *)
Definition parse_3letter_unbound (x : string) : option Ascii.ascii := None.

Section Reader.

(** [PDBParser.get_structure] parses a file into its models, each a list of
    chains, or raises; [parse] is what the name [parse_3letter] stands for
    in the module of the reader. *)
Variable get_structure : string → option (list (list PDB.chain)).
Variable parse : string → option Ascii.ascii.

(** The loop over the atoms of a residue ([all_atom]); an exception leaves
    the loop, the lists keeping what was appended before it. *)
Fixpoint read_atoms (i : Z) (aa : string) (st : PdbData.t)
  (atoms : list PDB.atom) : PdbData.t :=
  match atoms with
  | [] => st
  | a :: rest =>
      let st1 := PdbData.push_position st (PDB.atom_coord a) i in
      match parse aa with
      | None => st1
      | Some s =>
          read_atoms i aa (PdbData.push_residue st1 s (PDB.atom_bfactor a))
            rest
      end
  end.

(** The body of the [try] block for one residue; the [except Exception]
    branch prints and continues with the lists as they are. *)
Definition read_residue (all_atom : bool) (st : PdbData.t) (r : PDB.residue)
  : PdbData.t :=
  if negb (String.eqb (Str.strip (PDB.hetero r)) "") then st
  else
    let aa := PDB.resname r in
    if all_atom then read_atoms (PDB.resseq r) aa st (PDB.atoms r)
    else
      match PDB.child r "CA" with
      | None => st
      | Some ca =>
          let st1 :=
            PdbData.push_position st (PDB.atom_coord ca) (PDB.resseq r) in
          match parse aa with
          | None => st1
          | Some s => PdbData.push_residue st1 s (PDB.atom_bfactor ca)
          end
      end.

Definition read_chain (chain : string) (all_atom : bool) (st : PdbData.t)
  (ch : PDB.chain) : PdbData.t :=
  if String.eqb (PDB.chain_id ch) chain || String.eqb chain ""
  then foldl (read_residue all_atom) st (PDB.residues ch)
  else st.

(** The body the two readers share. *)
Definition read_structure (path chain : string) (model : nat)
  (all_atom : bool) : option PdbData.t :=
  models ← get_structure path;
  chains ← models !! model;
  Some (foldl (read_chain chain all_atom) PdbData.empty chains).

End Reader.

Section Readers.

Variable get_structure : string → option (list (list PDB.chain)).

(** [_read_alpha_carbon(path, chain='', model=0, all_atom=False)] of
    main.py. *)
Definition _read_alpha_carbon (path chain : string) (model : nat)
  (all_atom : bool) : option PdbData.t :=
  read_structure get_structure parse_3letter_unbound path chain model
    all_atom.

(** [parse_pdb_coordinates(path, chain='', model=0, all_atom=False)] of
    pdb_parser.py, the same body. *)
Definition parse_pdb_coordinates (path chain : string) (model : nat)
  (all_atom : bool) : option PdbData.t :=
  read_structure get_structure parse_3letter path chain model all_atom.

(** [Protein.load_data_from_path(self, path)].  The array of one-letter codes
    is kept as the string of its letters. *)
Definition load_data_from_path (self : Protein.t) (path : string)
  : option Protein.t :=
  data ← _read_alpha_carbon path "" 0 false;
  max_bfactor ← NpReduce.max (PdbData.bfac data);
  min_plddt ← NpReduce.min (Protein.plddt self);
  Some (Protein.mk (Protein.name self) (Protein.dtype self)
          (PyStr (Str.join (PdbData.seq data))) (PdbData.xyz data)
          (PyNum max_bfactor) (PyNum min_plddt) (PdbData.idx data)
          (Protein.plddt self) (PdbData.bfac data) (Protein.path self)
          (Protein.neigh_idx self) (Protein.neigh_tensor self)
          (Protein.neigh_cut self)).

(** [Protein().load_data_from_path(path)], as [Deformation.__init__] calls
    it. *)
Definition load_fresh (path : string) : option Protein.t :=
  self ← Protein.__init__ ∅;
  load_data_from_path self path.

End Readers.

End Reader.

(** ** Distance from a mutation: [compare_sequences],
    [calc_dist_from_mutation] *)

Module Mutation.

(** [compare_sequences]: [s1] and [s2] are free names in the source. *)
Definition compare_sequences (s1 s2 : string) : option (list nat) :=
  mask ← broadcast2 (λ a b : Ascii.ascii, negb (Ascii.eqb a b))
            (String.list_ascii_of_string s1) (String.list_ascii_of_string s2);
  Some (where_ mask).

(** [calc_dist_from_mutation(c1, c2, sub_pos)] *)
Definition calc_dist_from_mutation (c1 c2 : matrix) (sub_pos : list nat)
  : option vec :=
  if decide (length sub_pos = 0)
  then Some ((λ x, x * nan)%float <$> zeros (length c1))
  else
    m1 ← index_list c1 sub_pos;
    let dc1 := cdist c1 m1 in
    m2 ← index_list c2 sub_pos;
    let dc2 := cdist c2 m2 in
    s ← madd dc1 dc1;
    mapM NpReduce.nanmin (mscale 0.5 s).

End Mutation.

(** ** pdb_parser.py: sequence clusters and ambiguous alignments *)

Module PdbParser.

(** The default [cut=4.3] of [find_neighbours], as the binary64 value the
    literal denotes. *)
Definition default_cut : float := 0x1.1333333333333p+2%float.

(** The loop of [find_neighbours] over [zip(seq[1:], D)]. *)
Fixpoint cluster_loop (cut : float) (seq_clusters : list string)
  (cluster : string) (pairs : list (Ascii.ascii * float)) : list string :=
  match pairs with
  | [] => seq_clusters ++ [cluster]
  | (s, d) :: rest =>
      if (d <? cut)%float
      then cluster_loop cut seq_clusters (cluster +:+ String s "") rest
      else cluster_loop cut (seq_clusters ++ [cluster]) (String s "") rest
  end.

(** [np.linalg.norm(xyz[:-1] - xyz[1:], axis=1)]: the distance of every
    residue to the next one. *)
Definition consecutive_distances (xyz : matrix) : vec :=
  zip_with (λ a b, norm (vsub a b)) (take (length xyz - 1) xyz) (drop 1 xyz).

(** [find_neighbours(seq, xyz, cut=4.3)]: [seq[0]] raises [IndexError] on an
    empty sequence. *)
Definition find_neighbours (seq : list Ascii.ascii) (xyz : matrix)
  (cut : float) : option (list string) :=
  let D := consecutive_distances xyz in
  s0 ← seq !! 0;
  Some (cluster_loop cut [] (String s0 "") (zip (drop 1 seq) D)).

(** [cand[:, i]] *)
Definition cand_column (cand : list (list Ascii.ascii)) (i : nat)
  : option (list Ascii.ascii) :=
  mapM (λ row : list Ascii.ascii, row !! i) cand.

(** The loop of [resolve_ambiguity] over the columns [i], [i + 1], ... *)
Fixpoint resolve_loop (cand : list (list Ascii.ascii)) (cols : list nat)
  (icount : Z) (idx : list Z) : option (list Z) :=
  match cols with
  | [] => Some idx
  | i :: cols' =>
      col ← cand_column cand i;
      if negb (bool_decide (Chars.gap ∈ col))
      then resolve_loop cand cols' (icount + 1) (idx ++ [(icount + 1)%Z])
      else
        c0 ← cand !! 0 ≫= (.!! i);
        if negb (Ascii.eqb c0 Chars.gap)
        then resolve_loop cand cols' (icount + 1) idx
        else resolve_loop cand cols' icount idx
  end.

(** [resolve_ambiguity(cand)]: [np.array([list(x) for x in cand])] is a 2-D
    array when the candidates have one length; [cand.shape[1]] raises when
    there is no candidate or the lengths differ. *)
Definition resolve_ambiguity (cand : list string) : option (list Z) :=
  let rows := String.list_ascii_of_string <$> cand in
  first ← rows !! 0;
  if forallb (λ r : list Ascii.ascii, Nat.eqb (length r) (length first)) rows
  then resolve_loop rows (seq 0 (length first)) (-1) []
  else None.

End PdbParser.

(** ** Further concrete inputs *)

(** Three residues of a computational model ('af') with their confidence
    values; residue 1 is below the threshold 0.625 used with it. *)
Definition model_protein : Protein.t :=
  Protein.mk (PyStr "af") (PyStr "af") (PyStr "") (take 3 chain_coord)
    (PyNum 0) (PyNum 0) [] [0.875; 0.5; 0.75]%float [] "" [] [] (PyNum 0).

Definition model_neigh : Protein.t :=
  default model_protein
    (Protein.get_local_neighborhood 2.5%float 0.625%float model_protein).

(** A structure built with a name that is no policy tag. *)
Definition named_kwargs : gmap string pyval :=
  <["name" := PyStr "1abc"]> (<["coord" := PyList2 chain_coord]> ∅).

(** The relation between [a - b] and [b - a], component by component: exact
    negations of each other, or both [+0.0]. *)
Definition mirrored (x y : float) : Prop :=
  x = (- y)%float ∨ (x = 0%float ∧ y = 0%float).

(** The five metrics of [calculate_deformation]. *)
Definition metric_names : list string :=
  ["lddt"; "ldd"; "ntd"; "shear"; "strain"].

(** A value that is [+0.0] or NaN, as every diagonal entry of a distance
    matrix is. *)
Definition zero_or_nan (x : float) : Prop := x = 0%float ∨ x = nan.

(** A superposition routine that leaves the points where they are. *)
Definition keep_points (s ref : matrix) : option matrix := Some s.

(** An ensemble of two copies of the chain, and its consensus with
    [cut = 1.5]. *)
Definition chain_ensemble : AverageProtein.t :=
  AverageProtein.mk [chain_protein; chain_protein] (PyStr "pdb") [] [] []
    (PyStr "") [] [] (PyNum 0) (PyNum 0) (PyNum 0).

Definition chain_consensus : AverageProtein.t :=
  default chain_ensemble
    (AverageProtein.get_average_local_neighborhood keep_points 1.5%float
       chain_ensemble).

(** The dense tensors of two members over two residues in one dimension,
    and the residues' neighbour lists. *)
Definition pair_ldt : list (list matrix) :=
  [ [ [[0]; [-1]]; [[1]; [0]] ];
    [ [[0]; [-2]]; [[2]; [0]] ] ]%float.

Definition pair_idx : list (list nat) := [[1]; [0]].

(** ** Readings of the file reader *)

(** The residues the reader goes through, in order: those of the chains
    whose id is [chain], or of all chains when [chain] is empty. *)
Definition selected_residues (chain : string) (chains : list PDB.chain)
  : list PDB.residue :=
  concat (PDB.residues
            <$> filter (λ ch, PDB.chain_id ch = chain ∨ chain = "") chains).

(** The atom whose position a residue contributes: none for a HETATM entry
    (a hetero flag that is not blank); otherwise its 'CA' atom, or with
    [all_atom] the first of its atoms. *)
Definition position_atom (all_atom : bool) (r : PDB.residue)
  : option PDB.atom :=
  if decide (Str.strip (PDB.hetero r) = "")
  then (if all_atom then head (PDB.atoms r) else PDB.child r "CA")
  else None.

Definition positions (all_atom : bool) (rs : list PDB.residue)
  : list (PDB.residue * PDB.atom) :=
  omap (λ r, pair r <$> position_atom all_atom r) rs.

(** Coordinates and sequence numbers of these atoms; no letter, no
    B-factor. *)
Definition positions_only (kept : list (PDB.residue * PDB.atom)) : PdbData.t :=
  PdbData.mk ((λ ra, PDB.atom_coord ra.2) <$> kept)
             ((λ ra, PDB.resseq ra.1) <$> kept) [] [].

(** [a] followed by [b], array by array. *)
Definition arrays_app (a b : PdbData.t) : PdbData.t :=
  PdbData.mk (PdbData.xyz a ++ PdbData.xyz b) (PdbData.idx a ++ PdbData.idx b)
             (PdbData.seq a ++ PdbData.seq b) (PdbData.bfac a ++ PdbData.bfac b).

(** ** A small structure file *)

(** Chain A: an alanine, a water (HETATM), a glycine without alpha carbon, a
    glycine named in lower case; chain B: one residue. *)
Definition small_chains : list PDB.chain :=
  [ PDB.mk_chain "A"
       [ PDB.mk_residue " " 1 "ALA"
           [ PDB.mk_atom "N" [1; 0; 0]%float 11%float;
             PDB.mk_atom "CA" [2; 0; 0]%float 12%float ];
         PDB.mk_residue "W" 2 "HOH" [ PDB.mk_atom "O" [5; 5; 5]%float 40%float ];
         PDB.mk_residue " " 3 "GLY" [ PDB.mk_atom "N" [4; 0; 0]%float 13%float ];
         PDB.mk_residue " " 4 "gly" [ PDB.mk_atom "CA" [6; 0; 0]%float 15%float ] ];
     PDB.mk_chain "B"
       [ PDB.mk_residue " " 1 "SEC"
           [ PDB.mk_atom "CA" [9; 0; 0]%float 20%float ] ] ].

Definition small_file : list (list PDB.chain) := [small_chains].

Definition small_reader (path : string) : option (list (list PDB.chain)) :=
  if String.eqb path "small.pdb" then Some small_file else None.

(** ** Readings of the sequence functions *)

(** The number of places where the chain is broken: a distance that is not
    below the cutoff, NaN included. *)
Definition breaks (cut : float) (D : vec) : nat :=
  length (filter (λ d, (d <? cut)%float = false) D).

(** A column without a gap in any candidate. *)
Definition gap_free (rows : list (list Ascii.ascii)) (i : nat) : Prop :=
  Forall (λ row : list Ascii.ascii, row !! i ≠ Some Chars.gap) rows.

#[global] Instance gap_free_dec rows i : Decision (gap_free rows i).
Proof. unfold gap_free. apply _. Defined.

(** The number of residues (characters that are no gap) of the first
    candidate before column [i]. *)
Definition rank (c0 : list Ascii.ascii) (i : nat) : nat :=
  length (filter (λ a, a ≠ Chars.gap) (take i c0)).

(** Two structures of four residues that differ at positions 1 and 3. *)
Definition wild_type : string := "ACDE".
Definition mutant : string := "AGDF".

(** Four residues with a chain break after the second, and two candidate
    alignments of a four-residue sequence to five positions. *)
Definition broken_xyz : matrix :=
  [[0; 0; 0]; [3.75; 0; 0]; [12; 0; 0]; [15.75; 0; 0]]%float.

Definition broken_seq : list Ascii.ascii :=
  String.list_ascii_of_string "ACDE".

Definition two_candidates : list string := ["AC-DE"; "A-CDE"].

(** ** The lddt score as the spec words it *)

(** The lddt score of residue [i] in the spec's words: over the neighbours
    [j] that both neighbour lists hold, the Euclidean norms of the two
    displacement vectors [x[i] - x[j]]; the number of (neighbour, bin) pairs
    whose norm difference is within the bin, over the bins 0.5, 1, 2, 4,
    divided by 4 times the number of shared neighbours. *)
Definition lddt_spec (x1 x2 : matrix) (n1 n2 : list nat) (i : nat)
  : option Q :=
  a ← x1 !! i; b ← x2 !! i;
  let shared := filter (λ j, j ∈ n2) n1 in
  diffs ← mapM (λ j, aj ← x1 !! j; bj ← x2 !! j;
                     Some (abs (norm (vsub b bj) - norm (vsub a aj)))%float)
            shared;
  Some (Z.of_nat (Deformation.count_bins Deformation.default_bins diffs)
        # Pos.of_nat (4 * length shared)).

(** The spec's scenario of two 3-residue structures that are identical
    except that residue 1 is translated by 2 along the second axis, with
    [cut = 5]: every residue is a neighbour of the other two. *)
Definition straight_coord : matrix := take 3 chain_coord.
Definition bent_coord : matrix := [[0; 0; 0]; [1; 2; 0]; [2; 0; 0]]%float.

Definition straight : Protein.t :=
  default chain_protein
    (Protein.get_local_neighborhood 5%float 0%float
       (Protein.load_coordinates chain_protein straight_coord)).

Definition bent : Protein.t :=
  default chain_protein
    (Protein.get_local_neighborhood 5%float 0%float
       (Protein.load_coordinates chain_protein bent_coord)).

Definition straight_vs_bent : Deformation.t Protein.t Protein.t :=
  Deformation.mk straight bent "lddt" (PyNum 0) (PyNum 0) (PyNum 0) ∅ [] [].

Definition bent_vs_straight : Deformation.t Protein.t Protein.t :=
  Deformation.mk bent straight "lddt" (PyNum 0) (PyNum 0) (PyNum 0) ∅ [] [].
(** ** IEEE facts used by the numerical lemmas *)

Module IEEE.

Lemma binary_round_aux_opp prec emax s m e l :
  binary_round_aux prec emax (negb s) m e l
  = SFopp (binary_round_aux prec emax s m e l).
Proof.
  unfold binary_round_aux.
  destruct (shr_fexp prec emax m e l) as [mrs' e'].
  destruct (shr_fexp prec emax _ e' loc_Exact) as [mrs'' e''].
  destruct (shr_m mrs''); simpl; try reflexivity.
  destruct (e'' <=? emax - prec)%Z; reflexivity.
Qed.

Lemma binary_round_opp prec emax s m e :
  binary_round prec emax (negb s) m e = SFopp (binary_round prec emax s m e).
Proof.
  unfold binary_round.
  destruct (shl_align m e _) as [mz ez].
  apply binary_round_aux_opp.
Qed.

Lemma binary_normalize_opp prec emax m e :
  m ≠ 0%Z →
  binary_normalize prec emax (- m) e false
  = SFopp (binary_normalize prec emax m e false).
Proof.
  destruct m as [|p|p]; intros Hm; [congruence| |]; simpl.
  - apply (binary_round_opp prec emax false).
  - change false with (negb true) at 1.
    rewrite binary_round_opp.
    destruct (binary_round prec emax true p e); simpl; reflexivity.
Qed.

(** Subtraction in reverse order gives the opposite result, except that an
    exact zero difference is [+0] both ways. *)
Lemma SFsub_antisym prec emax (x y : spec_float) :
  SFsub prec emax x y = SFopp (SFsub prec emax y x)
  ∨ (SFsub prec emax x y = S754_zero false
     ∧ SFsub prec emax y x = S754_zero false).
Proof.
  destruct x as [sx|sx| |sx mx ex], y as [sy|sy| |sy my ey]; simpl;
    try (destruct sx, sy; simpl; auto; fail);
    try (destruct sx; simpl; auto; fail);
    try (destruct sy; simpl; auto; fail); auto.
  all: try (left; rewrite ?negb_involutive; reflexivity).
  all: try (destruct sx, sy; simpl; auto; fail).
  rewrite (Z.min_comm ey ex).
  set (a := cond_Zopp sx _). set (b := cond_Zopp sy _).
  destruct (Z.eq_dec (b - a)%Z 0%Z) as [E|E].
  - right. rewrite E. replace (a - b)%Z with 0%Z by lia. simpl. auto.
  - left. replace (a - b)%Z with (- (b - a))%Z by lia.
    apply binary_normalize_opp; assumption.
Qed.

Lemma sub_antisym (a b : float) :
  (a - b = - (b - a) ∨ (a - b = 0 ∧ b - a = 0))%float.
Proof.
  destruct (SFsub_antisym prec emax (Prim2SF a) (Prim2SF b)) as [H|[H1 H2]].
  - left. apply Prim2SF_inj. rewrite opp_spec, !sub_spec. exact H.
  - right. split; apply Prim2SF_inj; rewrite sub_spec; assumption.
Qed.

Lemma sub_diag_cases (x : float) : (x - x = 0 ∨ x - x = nan)%float.
Proof.
  assert (H : SF64sub (Prim2SF x) (Prim2SF x) = S754_zero false
              ∨ SF64sub (Prim2SF x) (Prim2SF x) = S754_nan).
  { unfold SF64sub. destruct (Prim2SF x) as [s|s| |s m e]; simpl.
    - destruct s; auto.
    - destruct s; auto.
    - auto.
    - rewrite Z.sub_diag. simpl. auto. }
  destruct H as [H|H]; [left|right];
    apply Prim2SF_inj; rewrite sub_spec, H; reflexivity.
Qed.

Lemma div_zero_cases (x : float) :
  (x / 0 = nan ∨ x / 0 = infinity ∨ x / 0 = neg_infinity)%float.
Proof.
  assert (H : SF64div (Prim2SF x) (Prim2SF 0) = S754_nan
              ∨ SF64div (Prim2SF x) (Prim2SF 0) = S754_infinity false
              ∨ SF64div (Prim2SF x) (Prim2SF 0) = S754_infinity true).
  { change (Prim2SF 0) with (S754_zero false). unfold SF64div.
    destruct (Prim2SF x) as [s|s| |s m e]; simpl; auto; destruct s; auto. }
  destruct H as [H|[H|H]]; [left|right;left|right;right];
    apply Prim2SF_inj; rewrite div_spec, H; reflexivity.
Qed.

Lemma sub_nan_l (y : float) : (nan - y = nan)%float.
Proof. apply Prim2SF_inj. rewrite sub_spec. reflexivity. Qed.

Lemma sub_nan_r (x : float) : (x - nan = nan)%float.
Proof.
  apply Prim2SF_inj. rewrite sub_spec.
  change (Prim2SF nan) with S754_nan.
  unfold SF64sub. destruct (Prim2SF x); reflexivity.
Qed.

Lemma add_nan_l (y : float) : (nan + y = nan)%float.
Proof. apply Prim2SF_inj. rewrite add_spec. reflexivity. Qed.

Lemma add_nan_r (x : float) : (x + nan = nan)%float.
Proof.
  apply Prim2SF_inj. rewrite add_spec.
  change (Prim2SF nan) with S754_nan.
  unfold SF64add. destruct (Prim2SF x); reflexivity.
Qed.

Lemma zero_ne_neg_zero : (0 ≠ - 0)%float.
Proof. intros H. apply (f_equal Prim2SF) in H. vm_compute in H. discriminate. Qed.

(** Comparison against the powers of two that serve as lddt bins. *)
Lemma SFleb_pow2 (x : spec_float) (m : positive) (e1 e2 : Z) :
  (e1 < e2)%Z →
  SFleb x (S754_finite false m e1) = true →
  SFleb x (S754_finite false m e2) = true.
Proof.
  intros He. unfold SFleb, SFcompare.
  destruct x as [s|s| |s m' e]; try done.
  destruct s; [done|].
  destruct (Z.compare_spec e e1) as [->|Hlt|Hgt].
  - intros _. destruct (Z.compare_spec e1 e2); first [lia | done].
  - intros _. destruct (Z.compare_spec e e2); first [lia | done].
  - done.
Qed.

Lemma leb_half_bins (x : float) :
  (x <=? 0.5)%float = true →
  (x <=? 1)%float = true ∧ (x <=? 2)%float = true ∧ (x <=? 4)%float = true.
Proof.
  rewrite !leb_spec.
  change (Prim2SF 0.5) with (S754_finite false 4503599627370496 (-53)).
  change (Prim2SF 1) with (S754_finite false 4503599627370496 (-52)).
  change (Prim2SF 2) with (S754_finite false 4503599627370496 (-51)).
  change (Prim2SF 4) with (S754_finite false 4503599627370496 (-50)).
  intros H. repeat split; (eapply SFleb_pow2; [|exact H]); lia.
Qed.

Lemma sub_diag_finite (x : float) :
  PrimFloat.is_finite x = true → (x - x = 0)%float.
Proof.
  unfold PrimFloat.is_finite, PrimFloat.is_nan, PrimFloat.is_infinity.
  rewrite !FloatAxioms.eqb_spec, FloatAxioms.abs_spec. intros Hfin.
  apply Prim2SF_inj. rewrite sub_spec.
  destruct (Prim2SF x) as [s|s| |s m e]; simpl in Hfin.
  - destruct s; reflexivity.
  - destruct s; vm_compute in Hfin; discriminate.
  - vm_compute in Hfin. discriminate.
  - unfold SF64sub. simpl. rewrite Z.sub_diag. reflexivity.
Qed.

Lemma mul_opp_opp (y : float) : (- y * - y = y * y)%float.
Proof.
  apply Prim2SF_inj. rewrite !mul_spec, opp_spec.
  unfold SF64mul. destruct (Prim2SF y) as [s|s| |s m e]; simpl;
    try reflexivity; destruct s; reflexivity.
Qed.

(** The squares of the two results of a subtraction, taken in either order,
    agree. *)
Lemma sub_square_sym (a b : float) :
  ((a - b) * (a - b) = (b - a) * (b - a))%float.
Proof.
  destruct (sub_antisym a b) as [-> | [-> ->]]; [apply mul_opp_opp | done].
Qed.

Lemma div_nan_l (y : float) : (nan / y = nan)%float.
Proof. apply Prim2SF_inj. rewrite div_spec. reflexivity. Qed.

(** Zero divided by anything is a zero or NaN, never positive. *)
Lemma zero_div_not_pos (y : float) : (0 <? 0 / y)%float = false.
Proof.
  rewrite ltb_spec, div_spec.
  change (Prim2SF 0) with (S754_zero false). unfold SF64div.
  destruct (Prim2SF y) as [s|s| |s m e]; reflexivity.
Qed.

End IEEE.
(** ** Lemmas on the array operations *)

(** A computation in the option monad is known to return: its first step
    returned a value, named [x] and recorded in [E]. *)
Ltac bind_returns H x E :=
  match type of H with
  | (?o ≫= _) = Some _ =>
      destruct o as [x|] eqn:E; simpl in H; [|discriminate H]
  end.

Section NpLemmas.

Lemma where_from_spec (mask : list bool) (k j : nat) :
  j ∈ where_from k mask ↔ k ≤ j ∧ mask !! (j - k) = Some true.
Proof.
  revert k. induction mask as [|b mask IH]; intros k; simpl.
  - split; [intros H; inversion H | intros [_ H]; discriminate].
  - rewrite elem_of_app, IH. split.
    + intros [H | [Hle Hl]].
      * destruct b; [|inversion H].
        apply list_elem_of_singleton in H as ->.
        split; [lia|]. by rewrite Nat.sub_diag.
      * split; [lia|]. replace (j - k) with (S (j - S k)) by lia. exact Hl.
    + intros [Hle Hl]. destruct (decide (j = k)) as [->|Hne].
      * left. rewrite Nat.sub_diag in Hl. simpl in Hl.
        injection Hl as ->. apply list_elem_of_singleton. reflexivity.
      * right. split; [lia|].
        replace (j - k) with (S (j - S k)) in Hl by lia. exact Hl.
Qed.

Lemma where_spec (mask : list bool) (j : nat) :
  j ∈ where_ mask ↔ mask !! j = Some true.
Proof.
  unfold where_. rewrite where_from_spec, Nat.sub_0_r.
  split; [intros [_ H]; exact H | intros H; split; [lia | exact H]].
Qed.

Lemma mapM_seq_lookup {A} (f : nat → option A) (l : nat) (t : list A) :
  mapM f (seq 0 l) = Some t →
  length t = l ∧ ∀ i, i < l → ∃ y, f i = Some y ∧ t !! i = Some y.
Proof.
  intros H. apply mapM_Some in H.
  pose proof (Forall2_length _ _ _ H) as Hlen. rewrite length_seq in Hlen.
  split; [lia|]. intros i Hi.
  destruct (Forall2_lookup_l _ _ _ i i H) as (y & Hy & Hf).
  { apply lookup_seq. lia. }
  exists y. auto.
Qed.

Lemma mapM_seq_lookup_inv {A} (f : nat → option A) (l : nat) (t : list A)
  (i : nat) (y : A) :
  mapM f (seq 0 l) = Some t → t !! i = Some y → i < l ∧ f i = Some y.
Proof.
  intros H Hy. destruct (mapM_seq_lookup _ _ _ H) as [Hlen Hall].
  assert (Hi : i < l) by (rewrite <- Hlen; eapply lookup_lt_Some; eauto).
  split; [exact Hi|]. destruct (Hall i Hi) as (y' & Hf & Hy').
  congruence.
Qed.

(** The squared length of [c - c] is [+0] or NaN, whatever [c] holds. *)
Lemma sumsq_self_cases (c : vec) :
  sumsq (vsub c c) = 0%float ∨ sumsq (vsub c c) = nan.
Proof.
  unfold sumsq, vsub.
  assert (G : ∀ acc, acc = 0%float ∨ acc = nan →
              let r := foldl (λ acc x, acc + x * x)%float acc
                         (zip_with PrimFloat.sub c c) in
              r = 0%float ∨ r = nan).
  { induction c as [|x c IH]; intros acc Hacc; simpl; [exact Hacc|].
    apply IH.
    destruct (IEEE.sub_diag_cases x) as [-> | ->], Hacc as [-> | ->];
      vm_compute; auto. }
  apply G. auto.
Qed.

(** No row of coordinates is at a positive distance from itself. *)
Lemma norm_self_not_pos (c : vec) : (0 <? norm (vsub c c))%float = false.
Proof.
  unfold norm. destruct (sumsq_self_cases c) as [-> | ->]; reflexivity.
Qed.

Lemma cdist_lookup (xa xb : matrix) (i j : nat) (d : float) :
  cdist xa xb !! i ≫= (.!! j) = Some d ↔
  ∃ a b, xa !! i = Some a ∧ xb !! j = Some b ∧ d = norm (vsub a b).
Proof.
  unfold cdist. rewrite list_lookup_fmap.
  destruct (xa !! i) as [a|]; simpl.
  - rewrite list_lookup_fmap. destruct (xb !! j) as [b|]; simpl.
    + split; [intros [= <-]; eauto | intros (? & ? & [= <-] & [= <-] & ->); done].
    + split; [done | intros (? & ? & _ & ? & _); done].
  - split; [done | intros (? & ? & ? & _); done].
Qed.

Lemma cdist_row_length (xa xb : matrix) (i : nat) (row : vec) :
  cdist xa xb !! i = Some row → length row = length xb.
Proof.
  unfold cdist. rewrite list_lookup_fmap.
  destruct (xa !! i); simpl; [|done]. intros [= <-]. by rewrite length_fmap.
Qed.

Lemma cdist_diag_not_pos (xyz : matrix) (i : nat) (row : vec) (d : float) :
  cdist xyz xyz !! i = Some row → row !! i = Some d → (0 <? d)%float = false.
Proof.
  intros Hrow Hd.
  assert (H : cdist xyz xyz !! i ≫= (.!! i) = Some d) by (rewrite Hrow; exact Hd).
  apply cdist_lookup in H as (a & b & Ha & Hb & ->).
  rewrite Ha in Hb. injection Hb as <-. apply norm_self_not_pos.
Qed.

(** A [True] in a broadcast conjunction comes from a [True] of the first
    operand, at the same position or at position 0 of a stretched one. *)
Lemma broadcast2_and_true (a b m : list bool) (j : nat) :
  broadcast2 andb a b = Some m → m !! j = Some true →
  a !! j = Some true ∨ (length a = 1 ∧ a !! 0 = Some true).
Proof.
  unfold broadcast2. destruct (decide (length a = length b)) as [Hlen|Hlen].
  - intros [= <-] Hj. left.
    apply lookup_zip_with_Some in Hj as (x & y & Hxy & Hx & Hy).
    symmetry in Hxy. apply andb_true_iff in Hxy as [-> _]. exact Hx.
  - intros Hm Hj.
    assert (Hcase : (∃ x, a = [x] ∧ m = andb x <$> b)
                    ∨ (∃ y, b = [y] ∧ m = (λ x, x && y) <$> a)).
    { destruct a as [|x [|x' a]], b as [|y [|y' b]]; simpl in *;
        try done; injection Hm as <-; eauto. }
    destruct Hcase as [(x & -> & ->) | (y & -> & ->)].
    + right. split; [done|].
      rewrite list_lookup_fmap in Hj. destruct (b !! j); simpl in Hj; [|done].
      injection Hj as Hj. apply andb_true_iff in Hj as [-> _]. done.
    + left. rewrite list_lookup_fmap in Hj.
      destruct (a !! j) as [z|]; simpl in Hj; [|done].
      injection Hj as Hj. apply andb_true_iff in Hj as [-> _]. done.
Qed.

End NpLemmas.

(** ** The local distance tensor of a structure *)

Section LdtLemmas.

(** [_get_ldt] on an array with rows: the loops over the residues. *)
Lemma get_ldt_idx_rows (coord : matrix) (idx : list (list nat))
  (t : list matrix) :
  Protein._get_ldt_idx coord idx = Some t ↔
  coord ≠ []
  ∧ mapM (λ i, ci ← coord !! i; nb ← idx !! i;
               Protein.fill_row coord ci
                 (replicate (length coord) (zeros (ncols coord))) nb)
      (seq 0 (length coord)) = Some t.
Proof.
  unfold Protein._get_ldt_idx, Protein.shape.
  destruct coord as [|c coord]; [split; [done | intros [? _]; done]|].
  split; [intros H; split; [done | exact H] | intros [_ H]; exact H].
Qed.

Lemma fill_row_lookup (coord : matrix) (ci : vec) (nb : list nat) :
  ∀ (row row' : matrix),
    Protein.fill_row coord ci row nb = Some row' →
    length row = length coord →
    ∀ j, row' !! j
         = if decide (j ∈ nb) then vsub ci <$> coord !! j else row !! j.
Proof.
  induction nb as [|k nb IH]; intros row row' Hfill Hlen j; simpl in Hfill.
  - injection Hfill as <-. rewrite decide_False; [done|]. apply not_elem_of_nil.
  - destruct (coord !! k) as [ck|] eqn:Hk; simpl in Hfill; [|done].
    rewrite (IH _ _ Hfill) by (rewrite length_insert; exact Hlen).
    destruct (decide (j ∈ nb)) as [Hin|Hnin].
    + rewrite decide_True; [done|]. apply elem_of_cons. by right.
    + destruct (decide (j = k)) as [->|Hne].
      * rewrite decide_True by (apply elem_of_cons; by left).
        rewrite list_lookup_insert_eq, Hk; [done|].
        rewrite Hlen. eapply lookup_lt_Some; eauto.
      * rewrite decide_False.
        -- by rewrite list_lookup_insert_ne.
        -- intros Hin. apply elem_of_cons in Hin as [?|?]; done.
Qed.

(** What [_get_ldt] stores at [(i,j)]: the difference of the two coordinate
    rows when [j] is listed for [i], and the initial zero row otherwise. *)
Lemma get_ldt_idx_lookup (coord : matrix) (idx : list (list nat))
  (t : list matrix) (i j : nat) (ci cj : vec) (nb : list nat) :
  Protein._get_ldt_idx coord idx = Some t →
  coord !! i = Some ci → coord !! j = Some cj → idx !! i = Some nb →
  t !! i ≫= (.!! j)
  = Some (if decide (j ∈ nb) then vsub ci cj else zeros (ncols coord)).
Proof.
  intros Ht Hci Hcj Hnb. apply get_ldt_idx_rows in Ht as [_ Ht].
  destruct (mapM_seq_lookup _ _ _ Ht) as [_ Hall].
  destruct (Hall i) as (row & Hrow & Hti); [eapply lookup_lt_Some; eauto|].
  rewrite Hci, Hnb in Hrow. simpl in Hrow.
  rewrite Hti. simpl.
  rewrite (fill_row_lookup _ _ _ _ _ Hrow) by apply length_replicate.
  destruct (decide (j ∈ nb)).
  - by rewrite Hcj.
  - apply lookup_replicate_2. eapply lookup_lt_Some; eauto.
Qed.

Lemma vsub_antisym (a b : vec) :
  Forall2 (λ x y, x = (- y)%float ∨ (x = 0%float ∧ y = 0%float))
          (vsub a b) (vsub b a).
Proof.
  unfold vsub. revert b. induction a as [|x a IH]; intros [|y b]; simpl;
    try constructor; [apply IEEE.sub_antisym | apply IH].
Qed.

End LdtLemmas.

(** ** Claims on [Protein] *)

Section ProteinClaims.

Example chain_neighbours :
  Protein.neigh_idx <$> chain_derived = Some [[1]; [0; 2]; [1; 3]; [2; 4]; [3]].
Proof. vm_compute. reflexivity. Qed.


(** The filtering policy follows the name: a structure named 'pdb' and given
    the keyword dtype='af' is filtered as experimental data. *)
Example policy_follows_name :
  (Protein.__init__ (<["dtype" := PyStr "af"]> chain_kwargs)
   ≫= Protein.get_local_neighborhood 1.5%float 0%float)
  = chain_derived.
Proof. vm_compute. reflexivity. Qed.

End ProteinClaims.

Section NeighbourClaims.

Variable cut : float.
Variable min_conf : float.

Lemma neighbours_experimental_spec (row : vec) (j : nat) :
  j ∈ Protein.neighbours_experimental cut row ↔
  ∃ d, row !! j = Some d
       ∧ isfinite d = true ∧ (0 <? d)%float = true ∧ (d <=? cut)%float = true.
Proof.
  unfold Protein.neighbours_experimental.
  rewrite where_spec, list_lookup_fmap.
  destruct (row !! j) as [d|]; simpl.
  - split.
    + intros [= H]. apply andb_true_iff in H as [H ?].
      apply andb_true_iff in H as [? ?]. eauto.
    + intros (d' & [= <-] & -> & -> & ->). reflexivity.
  - split; [done | intros (? & ? & _); done].
Qed.

Lemma neighbours_experimental_not_self (xyz : matrix) (i : nat) (row : vec) :
  cdist xyz xyz !! i = Some row → i ∉ Protein.neighbours_experimental cut row.
Proof.
  intros Hrow Hin.
  apply neighbours_experimental_spec in Hin as (d & Hd & _ & Hpos & _).
  rewrite (cdist_diag_not_pos _ _ _ _ Hrow Hd) in Hpos. discriminate.
Qed.

Lemma neighbours_model_not_self (xyz : matrix) (plddt : vec) (i : nat)
  (row : vec) (p : float) (nb : list nat) :
  cdist xyz xyz !! i = Some row →
  Protein.neighbours_model cut min_conf plddt row p = Some nb → i ∉ nb.
Proof.
  intros Hrow Hnb Hin. unfold Protein.neighbours_model in Hnb.
  destruct (broadcast2 _ _ _) as [m|] eqn:Hm; simpl in Hnb; [|done].
  injection Hnb as <-.
  apply where_spec in Hin. rewrite list_lookup_fmap in Hin.
  destruct (m !! i) as [b|] eqn:Hb; simpl in Hin; [|done].
  injection Hin as Hin. apply andb_true_iff in Hin as [-> _].
  assert (Hi : i < length xyz).
  { apply lookup_lt_Some in Hrow. unfold cdist in Hrow.
    by rewrite length_fmap in Hrow. }
  assert (Hd : ∃ x, row !! i = Some x ∧ (0 <? x)%float = true).
  { destruct (broadcast2_and_true _ _ _ _ Hm Hb) as [H | [Hlen H]].
    - rewrite list_lookup_fmap in H.
      destruct (row !! i) as [x|]; simpl in H; [|done].
      injection H as H. apply andb_true_iff in H as [H _]. eauto.
    - rewrite length_fmap, (cdist_row_length _ _ _ _ Hrow) in Hlen.
      assert (i = 0) as -> by lia.
      rewrite list_lookup_fmap in H.
      destruct (row !! 0) as [x|]; simpl in H; [|done].
      injection H as H. apply andb_true_iff in H as [H _]. eauto. }
  destruct Hd as (x & Hx & Hpos).
  rewrite (cdist_diag_not_pos _ _ _ _ Hrow Hx) in Hpos. discriminate.
Qed.

Lemma get_local_neighborhood_inv (p p' : Protein.t) :
  Protein.get_local_neighborhood cut min_conf p = Some p' →
  Protein.idx_list_of cut min_conf (Protein.dtype p) (Protein.plddt p)
    (cdist (Protein.coord p) (Protein.coord p)) = Some (Protein.neigh_idx p')
  ∧ Protein._get_ldt_idx (Protein.coord p) (Protein.neigh_idx p')
    = Some (Protein.neigh_tensor p')
  ∧ Protein.coord p' = Protein.coord p.
Proof.
  unfold Protein.get_local_neighborhood. intros H.
  bind_returns H idx Hidx. bind_returns H tensor Ht.
  injection H as <-. simpl. auto.
Qed.

(** C5: in an experimental ('pdb') structure, for residues [i ≠ j], [j] is a
    neighbour of [i] exactly when the distance [D[i,j]] is finite, positive
    and at most the cutoff; and under either filtering policy no residue is
    its own neighbour. *)
Theorem neighbour_cutoff_property (p p' : Protein.t) :
  Protein.get_local_neighborhood cut min_conf p = Some p' →
  (Protein.dtype p = PyStr "pdb" →
   ∀ (i j : nat) (nb : list nat) (d : float),
     i ≠ j →
     Protein.neigh_idx p' !! i = Some nb →
     cdist (Protein.coord p) (Protein.coord p) !! i ≫= (.!! j) = Some d →
     (j ∈ nb ↔ isfinite d = true ∧ (0 <? d)%float = true
               ∧ (d <=? cut)%float = true))
  ∧ (∀ (i : nat) (nb : list nat),
       Protein.neigh_idx p' !! i = Some nb → i ∉ nb).
Proof.
  intros H. apply get_local_neighborhood_inv in H as (Hidx & _ & _).
  unfold Protein.idx_list_of in Hidx. split.
  - intros Hpdb i j nb d _ Hnb Hd.
    rewrite Hpdb in Hidx. simpl in Hidx. injection Hidx as Hidx.
    rewrite <- Hidx, list_lookup_fmap in Hnb.
    destruct (cdist _ _ !! i) as [row|]; simpl in Hnb, Hd; [|done].
    injection Hnb as <-. rewrite neighbours_experimental_spec, Hd.
    split; [intros (? & [= <-] & ?); done | eauto].
  - intros i nb Hnb.
    destruct (py_in (Protein.dtype p) ["af"; "dmp"]).
    + apply mapM_Some in Hidx.
      destruct (Forall2_lookup_r _ _ _ i nb Hidx Hnb) as ([row q] & Hz & Hm).
      apply lookup_zip_with_Some in Hz as (? & ? & [= <- <-] & Hrow & _).
      eapply neighbours_model_not_self; eauto.
    + destruct (py_in (Protein.dtype p) ["pdb"]); [|done].
      injection Hidx as Hidx. rewrite <- Hidx, list_lookup_fmap in Hnb.
      destruct (cdist _ _ !! i) as [row|] eqn:Hrow; simpl in Hnb; [|done].
      injection Hnb as <-. eapply neighbours_experimental_not_self; eauto.
Qed.

End NeighbourClaims.

Example chain_protein_init : Protein.__init__ chain_kwargs = Some chain_protein.
Proof. vm_compute. reflexivity. Qed.



Lemma chain_neigh_derived :
  Protein.get_local_neighborhood 1.5%float 0%float chain_protein
  = Some chain_neigh.
Proof. vm_compute. reflexivity. Qed.

(** On the chain: residue 2 has the neighbours 1 and 3, each at distance 1. *)
Lemma neighbour_cutoff_property_chain :
  (3 ∈ [1; 3] ↔ isfinite 1%float = true ∧ (0 <? 1)%float = true
                 ∧ (1 <=? 1.5)%float = true)
  ∧ 2 ∉ [1; 3].
Proof.
  pose proof (neighbour_cutoff_property 1.5%float 0%float chain_protein
                chain_neigh chain_neigh_derived) as [H1 H2].
  split.
  - apply (H1 eq_refl 2 3 [1; 3] 1%float);
      [lia | vm_compute; reflexivity | vm_compute; reflexivity].
  - apply (H2 2 [1; 3]). vm_compute. reflexivity.
Defined.

(** ** Claims on the local distance tensor *)

Section TensorClaims.

(** C8, as stated, fails: on the chain, residue 2 is no neighbour of residue
    0, and the tensor holds the zero vector at [(0,2)]. *)
Lemma non_neighbours_zero_filled_chain :
  Protein.neigh_idx chain_neigh !! 0 = Some [1]
  ∧ Protein.neigh_tensor chain_neigh !! 0 ≫= (.!! 2) = Some [0; 0; 0]%float
  ∧ ¬ non_neighbours_absent (Protein.neigh_idx chain_neigh)
        (Protein.neigh_tensor chain_neigh).
Proof.
  split; [vm_compute; reflexivity|]. split; [vm_compute; reflexivity|].
  intros H. specialize (H 0 2 [1] ltac:(vm_compute; reflexivity)).
  assert (Hn : 2 ∉ [1]) by (intros Hin; apply list_elem_of_singleton in Hin; lia).
  specialize (H Hn). vm_compute in H. discriminate.
Qed.

(** C8, amended: [_get_ldt] returns the dense [l × l × dim] array; every
    entry [(i,j)] of a pair of residues is present, and for [j] not listed as
    a neighbour of [i] it is the zero vector the array was created with. *)
Theorem non_neighbours_zero_filled (coord : matrix) (idx : list (list nat))
  (t : list matrix) (i j : nat) (nb : list nat) :
  Protein._get_ldt_idx coord idx = Some t →
  i < length coord → j < length coord →
  idx !! i = Some nb → j ∉ nb →
  t !! i ≫= (.!! j) = Some (zeros (ncols coord)).
Proof.
  intros Ht Hi Hj Hnb Hnin.
  destruct (lookup_lt_is_Some_2 coord i Hi) as [ci Hci].
  destruct (lookup_lt_is_Some_2 coord j Hj) as [cj Hcj].
  rewrite (get_ldt_idx_lookup _ _ _ _ _ _ _ _ Ht Hci Hcj Hnb).
  by rewrite decide_False.
Qed.

Lemma non_neighbours_zero_filled_chain_entry :
  Protein.neigh_tensor chain_neigh !! 0 ≫= (.!! 2) = Some (zeros 3).
Proof.
  apply (non_neighbours_zero_filled chain_coord
           (Protein.neigh_idx chain_neigh) (Protein.neigh_tensor chain_neigh)
           0 2 [1]).
  - vm_compute. reflexivity.
  - vm_compute. lia.
  - vm_compute. lia.
  - vm_compute. reflexivity.
  - intros Hin. apply list_elem_of_singleton in Hin. lia.
Defined.

(** C9, as stated, fails: residues 0 and 1 of the chain are neighbours of
    each other; the stored vectors are [(-1, 0, 0)] and [(1, 0, 0)], and the
    negation of the second is [(-1, -0, -0)]. *)
Lemma antisymmetry_not_bitwise_chain :
  ∃ u v, 1 ∈ default [] (Protein.neigh_idx chain_neigh !! 0)
    ∧ 0 ∈ default [] (Protein.neigh_idx chain_neigh !! 1)
    ∧ Protein.neigh_tensor chain_neigh !! 0 ≫= (.!! 1) = Some u
    ∧ Protein.neigh_tensor chain_neigh !! 1 ≫= (.!! 0) = Some v
    ∧ ¬ exact_negation u v.
Proof.
  exists [-1; 0; 0]%float, [1; 0; 0]%float.
  split; [vm_compute; apply elem_of_cons; by left|].
  split; [vm_compute; apply elem_of_cons; by left|].
  split; [vm_compute; reflexivity|]. split; [vm_compute; reflexivity|].
  unfold exact_negation. intros H.
  apply (f_equal (λ l : vec, l !! 1)) in H. vm_compute in H.
  apply IEEE.zero_ne_neg_zero. congruence.
Qed.

(** C9, amended: when [(i,j)] and [(j,i)] are both written by [_get_ldt], the
    two vectors are [coord[i] - coord[j]] and [coord[j] - coord[i]], and each
    component of the first is the IEEE negation of the matching component of
    the second, except where the two coordinates agree in that component:
    there both components are [+0.0] (equal under [==], not negations bit for
    bit). *)
Theorem antisymmetry_up_to_zero_sign (coord : matrix) (idx : list (list nat))
  (t : list matrix) (i j : nat) (ni nj : list nat) (u v : vec) :
  Protein._get_ldt_idx coord idx = Some t →
  idx !! i = Some ni → idx !! j = Some nj → j ∈ ni → i ∈ nj →
  t !! i ≫= (.!! j) = Some u → t !! j ≫= (.!! i) = Some v →
  (∃ ci cj, coord !! i = Some ci ∧ coord !! j = Some cj
            ∧ u = vsub ci cj ∧ v = vsub cj ci)
  ∧ Forall2 (λ x y, x = (- y)%float ∨ (x = 0%float ∧ y = 0%float)) u v.
Proof.
  intros Ht Hni Hnj Hji Hij Hu Hv.
  assert (Hi : is_Some (coord !! i)).
  { apply lookup_lt_is_Some.
    destruct (t !! i) eqn:E; [|done]. apply lookup_lt_Some in E.
    apply get_ldt_idx_rows in Ht as [_ Ht].
    destruct (mapM_seq_lookup _ _ _ Ht) as [Hlen _]. lia. }
  assert (Hj : is_Some (coord !! j)).
  { apply lookup_lt_is_Some.
    destruct (t !! j) eqn:E; [|done]. apply lookup_lt_Some in E.
    apply get_ldt_idx_rows in Ht as [_ Ht].
    destruct (mapM_seq_lookup _ _ _ Ht) as [Hlen _]. lia. }
  destruct Hi as [ci Hci], Hj as [cj Hcj].
  rewrite (get_ldt_idx_lookup _ _ _ _ _ _ _ _ Ht Hci Hcj Hni) in Hu.
  rewrite (get_ldt_idx_lookup _ _ _ _ _ _ _ _ Ht Hcj Hci Hnj) in Hv.
  rewrite decide_True in Hu by done. rewrite decide_True in Hv by done.
  injection Hu as <-. injection Hv as <-.
  split; [eauto 10 | apply vsub_antisym].
Qed.

Lemma antisymmetry_up_to_zero_sign_chain :
  Forall2 (λ x y, x = (- y)%float ∨ (x = 0%float ∧ y = 0%float))
    [-1; 0; 0]%float [1; 0; 0]%float.
Proof.
  apply (antisymmetry_up_to_zero_sign chain_coord
           (Protein.neigh_idx chain_neigh) (Protein.neigh_tensor chain_neigh)
           0 1 [1] [0; 2]).
  - vm_compute. reflexivity.
  - vm_compute. reflexivity.
  - vm_compute. reflexivity.
  - apply elem_of_cons. by left.
  - apply elem_of_cons. by left.
  - vm_compute. reflexivity.
  - vm_compute. reflexivity.
Defined.

End TensorClaims.

(** ** Claims on the ensemble consensus *)

Section AverageLemmas.

Lemma madd_length (a b r : matrix) : madd a b = Some r → length r = length a.
Proof.
  unfold madd. case_decide as H; [|done]. intros [= <-].
  rewrite length_zip_with. lia.
Qed.

Lemma msum_length (ms : list matrix) :
  ∀ (acc r : matrix), msum acc ms = Some r →
    length r = length acc ∧ Forall (λ m, length m = length acc) ms.
Proof.
  induction ms as [|m ms IH]; intros acc r H; simpl in H.
  - injection H as <-. auto.
  - destruct (madd acc m) as [acc'|] eqn:Hadd; simpl in H; [|done].
    pose proof (madd_length _ _ _ Hadd) as Hlen.
    destruct (IH _ _ H) as [Hr Hall]. split; [congruence|].
    constructor.
    + unfold madd in Hadd. case_decide as Hd; [|done]. lia.
    + eapply Forall_impl; [exact Hall|]. simpl. intros; congruence.
Qed.

Lemma mean0_length (m : matrix) (ms : list matrix) (r : matrix) :
  mean0 (m :: ms) = Some r →
  length r = length m ∧ Forall (λ m', length m' = length m) ms.
Proof.
  unfold mean0. destruct (msum m ms) as [s|] eqn:Hs; simpl; [|done].
  intros [= <-]. rewrite length_fmap. by apply msum_length.
Qed.

End AverageLemmas.

Section AverageClaims.

(** C7: in [_average_all_ldt], a residue whose consensus neighbour count is
    at most 1 gets the empty entry; the mean over the members is taken
    exactly when the count exceeds 1; and with a count of exactly 1 the
    recorded entry is not the mean of the members' one-row selections. *)
Theorem average_skips_lone_neighbour (ldt_list : list (list matrix))
  (idx_list : list (list nat)) (ave : list matrix) (i : nat) (ix : list nat) :
  AverageProtein._average_all_ldt ldt_list idx_list = Some ave →
  i < length ldt_list →
  idx_list !! i = Some ix →
  (length ix ≤ 1 → ave !! i = Some [])
  ∧ (1 < length ix →
     ∃ members, ldt_list !! i = Some members ∧ ave !! i = mean0 members)
  ∧ (length ix = 1 →
     ∀ members m, ldt_list !! i = Some members →
       Forall (λ s : matrix, length s = 1) members →
       mean0 members = Some m → ave !! i ≠ Some m).
Proof.
  intros Have Hi Hix. unfold AverageProtein._average_all_ldt in Have.
  destruct (mapM_seq_lookup _ _ _ Have) as [_ Hall].
  destruct (Hall i Hi) as (y & Hy & Hlk).
  unfold AverageProtein.average_entry in Hy. rewrite Hix in Hy. simpl in Hy.
  split; [|split].
  - intros Hle. rewrite decide_False in Hy by lia. congruence.
  - intros Hlt. rewrite decide_True in Hy by lia.
    destruct (ldt_list !! i) as [members|]; simpl in Hy; [|done].
    exists members. split; [done|]. congruence.
  - intros Hone members m Hmem Hrows Hmean.
    rewrite decide_False in Hy by lia. injection Hy as <-.
    rewrite Hlk. intros [= <-].
    destruct members as [|s members]; [done|].
    apply mean0_length in Hmean as [Hlen _].
    apply Forall_cons in Hrows as [Hs _]. simpl in Hlen. lia.
Qed.

Lemma average_skips_lone_neighbour_example :
  (1 ≤ 1 → default [] (AverageProtein._average_all_ldt lone_ldt_list
                         lone_idx_list) !! 0 = Some [])
  ∧ (1 < 2 → ∃ members, lone_ldt_list !! 1 = Some members
       ∧ [[]; [[2; 0; 0]; [0; 2; 0]]; []]%float !! 1 = mean0 members).
Proof.
  pose proof (average_skips_lone_neighbour lone_ldt_list lone_idx_list
                [[]; [[2; 0; 0]; [0; 2; 0]]; []]%float) as H.
  split.
  - intros _.
    destruct (H 0 [1]) as (H0 & _ & _);
      [vm_compute; reflexivity | vm_compute; lia | reflexivity |].
    vm_compute. reflexivity.
  - destruct (H 1 [0; 2]) as (_ & H1 & _);
      [vm_compute; reflexivity | vm_compute; lia | reflexivity |].
    exact H1.
Defined.

(** C6, as stated, fails.  For [P] the unit points and [Q] their rotation
    [rot_z], the cross-covariance is [H = rot_z] and [I · diag(1,1,1) · rot_z]
    factors it exactly, with [V] orthogonal up to rounding.  The determinant
    of [V·Uᵗ] evaluates to [1.0000000000000002]; the code puts this value,
    not its sign, in the correction matrix. *)
Lemma rotate_points_no_sign :
  matmul 3 (transpose 3 eye3) rot_z = Some rot_z
  ∧ det3 (transpose 3 rot_z) = 0x1.0000000000001p+0%float
  ∧ ∃ X Y,
      AverageProtein._rotate_points svd_unit det3 eye3 rot_z = Some X
      ∧ AverageProtein.rotate_points_spec svd_unit det3 eye3 rot_z = Some Y
      ∧ X !! 2 = Some [0; 0; 0x1.0000000000001p+0]%float
      ∧ Y !! 2 = Some [0; 0; 1]%float
      ∧ X ≠ Y.
Proof.
  split; [vm_compute; reflexivity|]. split; [vm_compute; reflexivity|].
  eexists _, _. split; [vm_compute; reflexivity|].
  split; [vm_compute; reflexivity|].
  split; [reflexivity|]. split; [reflexivity|].
  intros H.
  apply (f_equal (λ m : matrix, Prim2SF (default 0%float (m !! 2 ≫= (.!! 2)))))
    in H.
  vm_compute in H. discriminate.
Qed.

(** C6, amended: [_rotate_points] forms [H = Pᵗ·Q], takes [(U, S, Vt)] from
    the SVD routine, sets [D = det(V·Uᵗ)] (the determinant itself; no sign
    is taken), forms [R = V·diag(1,1,D)·Uᵗ] and returns [R] applied to every
    row of [P]; this is the superposition of the spec whenever the computed
    determinant is exactly 1 or -1. *)
Theorem rotate_points_determinant
  (svd : matrix → option (matrix * vec * matrix)) (det : matrix → float)
  (P Q H U Vt VUt : matrix) (S : vec) :
  matmul 3 (transpose 3 P) Q = Some H →
  svd H = Some (U, S, Vt) →
  matmul 3 (transpose 3 Vt) (transpose 3 U) = Some VUt →
  AverageProtein._rotate_points svd det P Q
  = (VE ← matmul 3 (transpose 3 Vt)
             [[1; 0; 0]; [0; 1; 0]; [0; 0; det VUt]]%float;
     R ← matmul 3 VE (transpose 3 U);
     mapM (λ p, matvec R p) P)
  ∧ (det VUt = 1%float ∨ det VUt = (-1)%float →
     AverageProtein._rotate_points svd det P Q
     = AverageProtein.rotate_points_spec svd det P Q).
Proof.
  intros HH Hsvd HVU.
  unfold AverageProtein._rotate_points, AverageProtein.rotate_points_spec.
  rewrite HH. simpl. rewrite Hsvd. simpl. rewrite HVU. simpl.
  split; [reflexivity|].
  intros [-> | ->]; reflexivity.
Qed.

Lemma rotate_points_determinant_identity :
  AverageProtein._rotate_points svd_unit det3 eye3 eye3
  = AverageProtein.rotate_points_spec svd_unit det3 eye3 eye3.
Proof.
  refine (proj2 (rotate_points_determinant svd_unit det3 eye3 eye3 eye3 eye3
                   eye3 eye3 [1; 1; 1]%float _ _ _) _).
  - vm_compute. reflexivity.
  - reflexivity.
  - vm_compute. reflexivity.
  - left. vm_compute. reflexivity.
Defined.

End AverageClaims.

(** ** Claims on the deformation engine *)

Section EngineLemmas.

Context {A B : Type} `{!Neighbourhood A} `{!Neighbourhood B}.

Lemma shared_positions_spec (a b : list nat) (j : nat) :
  j ∈ Deformation.shared_positions a b ↔ ∃ k, a !! j = Some k ∧ k ∈ b.
Proof.
  unfold Deformation.shared_positions.
  rewrite where_spec, list_lookup_fmap.
  destruct (a !! j) as [k|]; simpl.
  - split.
    + intros [= H]. apply bool_decide_eq_true in H. eauto.
    + intros (k' & [= <-] & Hk). f_equal. by apply bool_decide_eq_true.
  - split; [done | intros (? & ? & _); done].
Qed.

Lemma shared_positions_nil (a b : list nat) :
  (∀ k, k ∈ a → k ∉ b) → Deformation.shared_positions a b = [].
Proof.
  intros Hdisj. apply elem_of_nil_inv. intros j Hj.
  apply shared_positions_spec in Hj as (k & Hk & Hb).
  apply (Hdisj k); [|exact Hb]. eapply list_elem_of_lookup_2; eauto.
Qed.

Lemma shared_positions_sym (a b : list nat) :
  Deformation.shared_positions a b ≠ [] →
  Deformation.shared_positions b a ≠ [].
Proof.
  intros Hne Hnil. destruct (Deformation.shared_positions a b) as [|j l] eqn:E;
    [done|].
  assert (Hj : j ∈ Deformation.shared_positions a b)
    by (rewrite E; apply elem_of_cons; by left).
  apply shared_positions_spec in Hj as (k & Hk & Hb).
  apply list_elem_of_lookup_1 in Hb as [j' Hj'].
  assert (Hin : j' ∈ Deformation.shared_positions b a).
  { apply shared_positions_spec. exists k. split; [done|].
    eapply list_elem_of_lookup_2; eauto. }
  rewrite Hnil in Hin. by apply not_elem_of_nil in Hin.
Qed.

Lemma index_list_length {X} (a : list X) (ix : list nat) (r : list X) :
  index_list a ix = Some r → length r = length ix.
Proof.
  unfold index_list. intros H. apply mapM_Some in H.
  symmetry. eapply Forall2_length; eauto.
Qed.

(** What a successful selection of shared rows records. *)
Lemma residue_data_Some (self : Deformation.t A B) (i : nat) (i1 : list nat)
  (c1 c2 : matrix) :
  Deformation.residue_data self i = Some (Some (i1, c1, c2)) →
  ∃ t1 t2 n1 n2,
    neigh_tensor (Deformation.prot1 self) !! i = Some t1
    ∧ neigh_tensor (Deformation.prot2 self) !! i = Some t2
    ∧ neigh_idx (Deformation.prot1 self) !! i = Some n1
    ∧ neigh_idx (Deformation.prot2 self) !! i = Some n2
    ∧ i1 = Deformation.shared_positions n1 n2
    ∧ i1 ≠ []
    ∧ index_list t1 i1 = Some c1
    ∧ index_list t2 (Deformation.shared_positions n2 n1) = Some c2.
Proof.
  unfold Deformation.residue_data. intros H.
  bind_returns H t1 Ht1. bind_returns H t2 Ht2.
  case_decide; [done|].
  bind_returns H n1 Hn1. bind_returns H n2 Hn2.
  case_decide as Hlen; [done|].
  bind_returns H r1 H1. bind_returns H r2 H2.
  injection H as <- <- <-.
  exists t1, t2, n1, n2. repeat split; try done.
  intros E. by rewrite E in Hlen.
Qed.

Lemma residue_data_lengths (self : Deformation.t A B) (i : nat)
  (i1 : list nat) (c1 c2 : matrix) :
  Deformation.residue_data self i = Some (Some (i1, c1, c2)) →
  length c1 = length i1 ∧ 0 < length c1 ∧ 0 < length c2.
Proof.
  intros H. apply residue_data_Some in H
    as (t1 & t2 & n1 & n2 & _ & _ & _ & _ & -> & Hne & H1 & H2).
  apply index_list_length in H1, H2.
  pose proof (shared_positions_sym _ _ Hne) as Hne2.
  destruct (Deformation.shared_positions n1 n2); [done|].
  destruct (Deformation.shared_positions n2 n1); [done|].
  simpl in *. lia.
Qed.

Lemma sub1_length (a b r : vec) :
  sub1 a b = Some r → 0 < length a → 0 < length b →
  0 < length r ∧ (length a = length b → length r = length b).
Proof.
  unfold sub1, broadcast2. case_decide as Hlen.
  - intros [= <-] Ha Hb. rewrite length_zip_with. lia.
  - intros H Ha Hb. split; [|done].
    destruct a as [|x [|x' a]], b as [|y [|y' b]]; simpl in *;
      try done; try lia; injection H as <-; simpl; rewrite ?length_fmap;
      simpl; lia.
Qed.

Lemma count_within_le (dv : vec) (cut : float) :
  Deformation.count_within dv cut ≤ length dv.
Proof. unfold Deformation.count_within. apply length_filter. Qed.

Lemma count_within_full (dv : vec) (cut : float) :
  Deformation.count_within dv cut = length dv
  ↔ Forall (λ x, (x <=? cut)%float = true) dv.
Proof.
  unfold Deformation.count_within. induction dv as [|x dv IH]; simpl.
  - split; [constructor | done].
  - rewrite filter_cons. destruct (decide ((x <=? cut)%float = true)) as [Hx|Hx].
    + simpl. rewrite Forall_cons. split.
      * intros [= H]. split; [done|]. by apply IH.
      * intros [_ H]. f_equal. by apply IH.
    + rewrite Forall_cons. split.
      * intros H. pose proof (length_filter (λ x, (x <=? cut)%float = true) dv). lia.
      * intros [? _]. done.
Qed.

Lemma Zpos_of_nat (n : nat) : 0 < n → Z.pos (Pos.of_nat n) = Z.of_nat n.
Proof. intros Hn. rewrite <- positive_nat_Z, Nat2Pos.id; [done | lia]. Qed.

End EngineLemmas.

Section LddtClaim.

Context {A B : Type} `{!Neighbourhood A} `{!Neighbourhood B}.

(** The value of the lddt step on a residue with shared neighbours, with
    [dv = v2 - v1] the signed differences of the rows' norms. *)
Lemma lddt_residue_value (self : Deformation.t A B) (i : nat)
  (i1 : list nat) (c1 c2 : matrix) (dv : vec) :
  Deformation.residue_data self i = Some (Some (i1, c1, c2)) →
  sub1 (Np.norm <$> c2) (Np.norm <$> c1) = Some dv →
  Deformation.lddt_residue [] self i = Some (Ratio (lddt_quotient dv)).
Proof.
  intros Hd Hdv.
  unfold Deformation.lddt_residue. rewrite Hd. simpl. rewrite Hdv. simpl.
  do 2 f_equal. unfold lddt_quotient, Deformation.count_bins. simpl.
  f_equal. lia.
Qed.

Lemma lddt_quotient_range (dv : vec) :
  0 < length dv → (0 <= lddt_quotient dv)%Q ∧ (lddt_quotient dv <= 1)%Q.
Proof.
  intros Hn.
  pose proof (count_within_le dv 0.5). pose proof (count_within_le dv 1).
  pose proof (count_within_le dv 2). pose proof (count_within_le dv 4).
  unfold lddt_quotient, Qle. cbn [Qnum Qden].
  rewrite Zpos_of_nat by lia. lia.
Qed.

Lemma lddt_quotient_one (dv : vec) :
  0 < length dv →
  (lddt_quotient dv == 1)%Q
  ↔ ∀ cut, cut ∈ Deformation.default_bins →
      Forall (λ x, (x <=? cut)%float = true) dv.
Proof.
  intros Hn.
  pose proof (count_within_le dv 0.5). pose proof (count_within_le dv 1).
  pose proof (count_within_le dv 2). pose proof (count_within_le dv 4).
  unfold lddt_quotient, Qeq. cbn [Qnum Qden].
  rewrite Zpos_of_nat by lia. split.
  - intros Hq.
    assert (H05 : Forall (λ x, (x <=? 0.5)%float = true) dv)
      by (apply count_within_full; lia).
    intros cut Hcut. unfold Deformation.default_bins in Hcut.
    eapply Forall_impl; [exact H05|]. simpl. intros x Hx.
    destruct (IEEE.leb_half_bins x Hx) as (Hb1 & Hb2 & Hb4).
    repeat (apply elem_of_cons in Hcut as [->|Hcut]; [done|]).
    by apply not_elem_of_nil in Hcut.
  - intros Hall.
    assert (E : ∀ cut, cut ∈ Deformation.default_bins →
                Deformation.count_within dv cut = length dv)
      by (intros cut Hcut; apply count_within_full, Hall, Hcut).
    unfold Deformation.default_bins in E.
    rewrite (E 0.5%float), (E 1%float), (E 2%float), (E 4%float);
      [lia | | | |]; repeat first [apply elem_of_cons; by left
                                   | apply elem_of_cons; right].
Qed.

(** The count the lddt step takes on the rows it selected: the number of
    (row, bin) pairs whose norm difference [dv = v2 - v1] is within the bin
    (the test is [dv <= bin], on the signed difference), over the bins 0.5,
    1, 2, 4, divided by 4 times the number of rows; it lies in [0, 1]; and
    it is 1 exactly when every difference is within every bin. *)
Theorem lddt_score_formula (self : Deformation.t A B) (i : nat)
  (i1 : list nat) (c1 c2 : matrix) (dv : vec) :
  Deformation.residue_data self i = Some (Some (i1, c1, c2)) →
  sub1 (Np.norm <$> c2) (Np.norm <$> c1) = Some dv →
  Deformation.lddt_residue [] self i = Some (Ratio (lddt_quotient dv))
  ∧ 0 < length i1
  ∧ (length c2 = length c1 → length dv = length i1)
  ∧ (0 <= lddt_quotient dv)%Q ∧ (lddt_quotient dv <= 1)%Q
  ∧ ((lddt_quotient dv == 1)%Q
     ↔ ∀ cut, cut ∈ Deformation.default_bins →
         Forall (λ x, (x <=? cut)%float = true) dv).
Proof.
  intros Hd Hdv.
  destruct (residue_data_lengths _ _ _ _ _ Hd) as (Hc1 & Hpos1 & Hpos2).
  destruct (sub1_length _ _ _ Hdv) as [Hn Heq]; rewrite ?length_fmap; try done.
  rewrite !length_fmap in Heq.
  destruct (lddt_quotient_range dv Hn) as [Hlo Hhi].
  split; [by eapply lddt_residue_value|].
  split; [lia|].
  split; [intros E; rewrite Heq by done; lia|].
  split; [exact Hlo|]. split; [exact Hhi|].
  by apply lddt_quotient_one.
Qed.

End LddtClaim.

(** The bin test is on the signed difference [v2 - v1]: for residue 1, whose
    neighbour is 4 away in one structure and 1 away in the other, the
    difference is -3 when the distant pair comes first, within every bin, and
    +3 the other way round, within the bin 4 only. *)
Example lddt_signed_difference :
  Deformation.lddt_residue [] far_vs_near 1 = Some (Ratio (4 # 4))
  ∧ Deformation.lddt_residue [] near_vs_far 1 = Some (Ratio (1 # 4)).
Proof. split; vm_compute; reflexivity. Qed.

(** C2: the lddt run does not return the claimed count.  In the spec's
    scenario of two 3-residue structures that differ in residue 1 (moved by
    2, [cut = 5]), every residue has the other two as shared neighbours.
    For residue 1 the distances to its neighbours 0 and 2 both change from 1
    to the square root of 5, a difference within the bins 2 and 4 only, so
    the claimed score is 4/8.  The run selects rows 0 and 1 of the dense
    tensor entry, the positions inside the neighbour list, that is the
    vectors to residue 0 and to residue 1 itself, and returns 6/8.  With the
    structures in the other order it returns 1 for every residue although
    the same distances changed: the test [dv <= bin] is on the signed
    difference, and a neighbour that came closer is within every bin. *)
Theorem lddt_reads_list_positions :
  Protein.neigh_idx straight = [[1; 2]; [0; 2]; [0; 1]]
  ∧ Protein.neigh_idx bent = [[1; 2]; [0; 2]; [0; 1]]
  ∧ Deformation.residue_data straight_vs_bent 1
    = Some (Some ([0; 1], [[1; 0; 0]; [0; 0; 0]]%float,
                  [[1; 2; 0]; [0; 0; 0]]%float))
  ∧ Deformation.calculate_deformation_lddt [] straight_vs_bent
    = Some [Ratio (6 # 8); Ratio (6 # 8); Ratio (6 # 8)]
  ∧ lddt_spec straight_coord bent_coord [0; 2] [0; 2] 1 = Some (4 # 8)
  ∧ Deformation.calculate_deformation_lddt [] bent_vs_straight
    = Some [Ratio (8 # 8); Ratio (8 # 8); Ratio (8 # 8)]
  ∧ lddt_spec bent_coord straight_coord [0; 2] [0; 2] 1 = Some (4 # 8).
Proof. repeat split; vm_compute; reflexivity. Qed.

(** *** Missing data *)

Section MissingCoordinate.

Variable cut : float.
Variable min_conf : float.

Lemma sumsq_fold_nan (v : vec) :
  foldl (λ acc x, acc + x * x)%float nan v = nan.
Proof.
  induction v as [|x v IH]; simpl; [done|]. by rewrite IEEE.add_nan_l.
Qed.

Lemma sumsq_nan (v : vec) : nan ∈ v → sumsq v = nan.
Proof.
  unfold sumsq. generalize 0%float as acc.
  induction v as [|x v IH]; intros acc Hin; simpl.
  - by apply not_elem_of_nil in Hin.
  - apply elem_of_cons in Hin as [<- | Hin].
    + change (nan * nan)%float with nan. rewrite IEEE.add_nan_r.
      apply sumsq_fold_nan.
    + by apply IH.
Qed.

Lemma vsub_nan (a b : vec) :
  length a = length b → nan ∈ a → nan ∈ vsub a b.
Proof.
  unfold vsub. revert b. induction a as [|x a IH]; intros [|y b] Hlen Hin;
    simpl in *; try done; try (by apply not_elem_of_nil in Hin).
  apply elem_of_cons in Hin as [<- | Hin].
  - rewrite IEEE.sub_nan_l. apply elem_of_cons. by left.
  - apply elem_of_cons. right. apply IH; [lia | done].
Qed.

(** A row of coordinates holding a NaN is at distance NaN from every row. *)
Lemma cdist_row_nan (xyz : matrix) (i : nat) (ci row : vec) :
  Forall (λ r : vec, length r = length ci) xyz →
  xyz !! i = Some ci → nan ∈ ci →
  cdist xyz xyz !! i = Some row → Forall (λ d, d = nan) row.
Proof.
  intros Hrect Hci Hnan Hrow. unfold cdist in Hrow.
  rewrite list_lookup_fmap, Hci in Hrow. simpl in Hrow. injection Hrow as <-.
  apply Forall_fmap. eapply Forall_impl; [exact Hrect|]. simpl.
  intros b Hb. unfold Np.norm. rewrite sumsq_nan; [reflexivity|].
  apply vsub_nan; [done | done].
Qed.

Lemma neighbours_model_positive (plddt row : vec) (p : float)
  (nb : list nat) (j : nat) :
  Protein.neighbours_model cut min_conf plddt row p = Some nb → j ∈ nb →
  ∃ x, x ∈ row ∧ (0 <? x)%float = true.
Proof.
  intros Hnb Hin. unfold Protein.neighbours_model in Hnb.
  destruct (broadcast2 _ _ _) as [m|] eqn:Hm; simpl in Hnb; [|done].
  injection Hnb as <-.
  apply where_spec in Hin. rewrite list_lookup_fmap in Hin.
  destruct (m !! j) as [b|] eqn:Hb; simpl in Hin; [|done].
  injection Hin as Hin. apply andb_true_iff in Hin as [-> _].
  assert (Hk : ∃ k, (((λ x, (0 <? x) && (x <=? cut))%float <$> row) : list bool)
                    !! k = Some true).
  { destruct (broadcast2_and_true _ _ _ _ Hm Hb) as [H | [_ H]]; eauto. }
  destruct Hk as [k Hk]. rewrite list_lookup_fmap in Hk.
  destruct (row !! k) as [x|] eqn:Hx; simpl in Hk; [|done].
  injection Hk as Hk. apply andb_true_iff in Hk as [Hk _].
  exists x. split; [eapply list_elem_of_lookup_2; eauto | done].
Qed.

(** A residue whose coordinate holds a NaN has no neighbours, under either
    filtering policy. *)
Lemma nan_coordinate_no_neighbours (p p' : Protein.t) (i : nat)
  (ci : vec) (nb : list nat) :
  Protein.get_local_neighborhood cut min_conf p = Some p' →
  Forall (λ r : vec, length r = length ci) (Protein.coord p) →
  Protein.coord p !! i = Some ci → nan ∈ ci →
  Protein.neigh_idx p' !! i = Some nb → nb = [].
Proof.
  intros H Hrect Hci Hnan Hnb.
  apply get_local_neighborhood_inv in H as (Hidx & _ & _).
  assert (Hrow : ∃ row, cdist (Protein.coord p) (Protein.coord p) !! i = Some row).
  { unfold cdist. rewrite list_lookup_fmap, Hci. simpl. eauto. }
  destruct Hrow as [row Hrow].
  pose proof (cdist_row_nan _ _ _ _ Hrect Hci Hnan Hrow) as Hall.
  assert (Hno : ∀ x, x ∈ row → (0 <? x)%float = true → False).
  { intros x Hx Hpos. rewrite Forall_forall in Hall.
    rewrite (Hall x Hx) in Hpos. vm_compute in Hpos. discriminate. }
  apply elem_of_nil_inv. intros j Hj.
  unfold Protein.idx_list_of in Hidx.
  destruct (py_in (Protein.dtype p) ["af"; "dmp"]).
  - apply mapM_Some in Hidx.
    destruct (Forall2_lookup_r _ _ _ i nb Hidx Hnb) as ([row' q] & Hz & Hm).
    apply lookup_zip_with_Some in Hz as (? & ? & [= <- <-] & Hrow' & _).
    rewrite Hrow in Hrow'. injection Hrow' as <-.
    destruct (neighbours_model_positive _ _ _ _ _ Hm Hj) as (x & Hx & Hpos).
    eauto.
  - destruct (py_in (Protein.dtype p) ["pdb"]); [|done].
    injection Hidx as Hidx. rewrite <- Hidx, list_lookup_fmap, Hrow in Hnb.
    simpl in Hnb. injection Hnb as <-.
    apply neighbours_experimental_spec in Hj as (d & Hd & _ & Hpos & _).
    eapply Hno; [eapply list_elem_of_lookup_2; eauto | done].
Qed.

End MissingCoordinate.

Section MissingData.

Context {A B : Type} `{!Neighbourhood A} `{!Neighbourhood B}.

Variable norm : bool.
Variable rotate_points : matrix → matrix → option matrix.
Variable inv : matrix → option matrix.

Lemma mapM_seq_total {X} (f : nat → option X) (l : nat) :
  (∀ k, k < l → is_Some (f k)) →
  ∃ r, mapM f (seq 0 l) = Some r ∧ length r = l
       ∧ ∀ k, k < l → r !! k = f k.
Proof.
  intros Hall.
  assert (Hs : is_Some (mapM f (seq 0 l))).
  { apply mapM_is_Some. apply Forall_forall. intros k Hk.
    apply elem_of_seq in Hk. apply Hall. lia. }
  destruct Hs as [r Hr]. exists r. split; [done|].
  destruct (mapM_seq_lookup _ _ _ Hr) as [Hlen Hlk]. split; [done|].
  intros k Hk. destruct (Hlk k Hk) as (y & -> & ->). done.
Qed.

Lemma continues_intro {X} (step : nat → option X) (l i : nat) (v : X) :
  i < l → step i = Some v → continues step (mapM step (seq 0 l)) l i v.
Proof.
  intros Hi Hv Hothers.
  destruct (mapM_seq_total step l) as (r & Hr & Hlen & Hlk).
  { intros k Hk. destruct (decide (k = i)) as [->|Hne]; [rewrite Hv|]; eauto. }
  exists r. repeat split; try done. rewrite Hlk, Hv; done.
Qed.

Lemma no_comparable_data_guard (self : Deformation.t A B) (i : nat) :
  no_comparable_data self i → Deformation.residue_data self i = Some None.
Proof.
  intros (t1 & t2 & H1 & H2 & Hcase). unfold Deformation.residue_data.
  rewrite H1, H2. simpl. case_decide as Hlen; [done|].
  destruct Hcase as [?|[?|(n1 & n2 & Hn1 & Hn2 & Hdisj)]]; [lia | lia |].
  rewrite Hn1, Hn2. simpl.
  rewrite (shared_positions_nil _ _ Hdisj). done.
Qed.

End MissingData.

Section MissingDataClaim.

Context {A B : Type} `{!Neighbourhood A} `{!Neighbourhood B}.

(** C3: a residue without comparable data (an empty tensor entry, no
    neighbours, or no neighbour shared by the two structures) gets NaN in
    every metric, its step raises nothing, and each metric still returns the
    values of all other residues; a residue whose coordinate holds a NaN is
    such a residue, having no neighbours under either filtering policy. *)
Theorem missing_data_yields_nan (norm : bool)
  (rotate_points : matrix → matrix → option matrix)
  (inv : matrix → option matrix) (bins : vec)
  (self : Deformation.t A B) (i : nat) :
  no_comparable_data self i →
  let l := length (neigh_tensor (Deformation.prot1 self)) in
  (Deformation.lddt_residue bins self i = Some RNaN
   ∧ Deformation.ldd_residue norm self i = Some nan
   ∧ Deformation.ntd_residue norm rotate_points self i = Some nan
   ∧ Deformation.shear_residue inv self i = Some nan
   ∧ Deformation.strain_residue norm rotate_points self i = Some nan)
  ∧ (continues (Deformation.lddt_residue bins self)
       (Deformation.calculate_deformation_lddt bins self) l i RNaN
     ∧ continues (Deformation.ldd_residue norm self)
         (Deformation.calculate_deformation_ldd norm self) l i nan
     ∧ continues (Deformation.ntd_residue norm rotate_points self)
         (Deformation.calculate_deformation_ntd norm rotate_points self) l i nan
     ∧ continues (Deformation.shear_residue inv self)
         (Deformation.calculate_deformation_shear inv self) l i nan
     ∧ continues (Deformation.strain_residue norm rotate_points self)
         (Deformation.calculate_deformation_strain norm rotate_points self)
         l i nan)
  ∧ (∀ (cut min_conf : float) (p p' : Protein.t) (ci : vec) (nb : list nat),
       Protein.get_local_neighborhood cut min_conf p = Some p' →
       Forall (λ r : vec, length r = length ci) (Protein.coord p) →
       Protein.coord p !! i = Some ci → nan ∈ ci →
       Protein.neigh_idx p' !! i = Some nb → nb = []).
Proof.
  intros Hno l.
  pose proof (no_comparable_data_guard _ _ Hno) as Hguard.
  assert (Hi : i < l).
  { destruct Hno as (t1 & _ & H1 & _). eapply lookup_lt_Some; eauto. }
  assert (Hsteps :
    Deformation.lddt_residue bins self i = Some RNaN
    ∧ Deformation.ldd_residue norm self i = Some nan
    ∧ Deformation.ntd_residue norm rotate_points self i = Some nan
    ∧ Deformation.shear_residue inv self i = Some nan
    ∧ Deformation.strain_residue norm rotate_points self i = Some nan).
  { unfold Deformation.lddt_residue, Deformation.ldd_residue,
      Deformation.ntd_residue, Deformation.shear_residue,
      Deformation.strain_residue.
    rewrite Hguard. simpl. auto. }
  destruct Hsteps as (S1 & S2 & S3 & S4 & S5).
  split; [auto|]. split.
  - repeat split; apply continues_intro; assumption.
  - intros cut min_conf p p' ci nb. apply nan_coordinate_no_neighbours.
Qed.

End MissingDataClaim.

Example gap_neighbours :
  Protein.neigh_idx gap_neigh = [[]; [2]; [1; 3]; [2; 4]; [3]].
Proof. vm_compute. reflexivity. Qed.

Lemma chain_vs_gap_no_data : no_comparable_data chain_vs_gap 0.
Proof.
  eexists _, _. split; [vm_compute; reflexivity|].
  split; [vm_compute; reflexivity|].
  right. right. exists [1], []. split; [vm_compute; reflexivity|].
  split; [vm_compute; reflexivity|].
  intros k _. apply not_elem_of_nil.
Qed.

Lemma missing_data_yields_nan_gap :
  Deformation.lddt_residue [] chain_vs_gap 0 = Some RNaN
  ∧ Deformation.ldd_residue false chain_vs_gap 0 = Some nan
  ∧ Deformation.ntd_residue false (λ p _, Some p) chain_vs_gap 0 = Some nan
  ∧ Deformation.shear_residue (λ _, None) chain_vs_gap 0 = Some nan
  ∧ Deformation.strain_residue false (λ p _, Some p) chain_vs_gap 0 = Some nan.
Proof.
  exact (proj1 (missing_data_yields_nan false (λ p _, Some p) (λ _, None) []
                  chain_vs_gap 0 chain_vs_gap_no_data)).
Defined.

(** *** Structures of different lengths *)

Section LengthLemmas.

Context {A B : Type} `{!Neighbourhood A} `{!Neighbourhood B}.

Lemma mapM_seq_None {X} (f : nat → option X) (l k : nat) :
  k < l → f k = None → mapM f (seq 0 l) = None.
Proof.
  intros Hk Hf. destruct (mapM f (seq 0 l)) as [r|] eqn:Hr; [|done].
  destruct (mapM_seq_lookup _ _ _ Hr) as [_ Hall].
  destruct (Hall k Hk) as (y & Hy & _). congruence.
Qed.

Lemma residue_data_past_end (self : Deformation.t A B) (i : nat) :
  length (neigh_tensor (Deformation.prot2 self)) ≤ i →
  Deformation.residue_data self i = None.
Proof.
  intros Hlen. unfold Deformation.residue_data.
  destruct (neigh_tensor (Deformation.prot1 self) !! i); simpl; [|done].
  by rewrite (lookup_ge_None_2 _ _ Hlen).
Qed.

Lemma cdist_length (xa xb : matrix) : length (cdist xa xb) = length xa.
Proof. unfold cdist. by rewrite length_fmap. Qed.

End LengthLemmas.

(** C4, as stated, fails: structures of 3 and 5 residues are accepted by the
    constructor; with the shorter one first, lddt returns three scores and no
    error; with the longer one first, the scores of residues 0 to 2 are
    computed before the run raises at residue 3. *)
Lemma length_mismatch_accepted :
  length (neigh_tensor short_neigh) = 3
  ∧ length (neigh_tensor chain_neigh) = 5
  ∧ Deformation.__init__ no_loader id id (Deformation.Obj short_neigh)
      (Deformation.Obj chain_neigh) "lddt" ∅ = Some short_vs_chain
  ∧ Deformation.calculate_deformation_lddt [] short_vs_chain
    = Some [Ratio (4 # 4); Ratio (8 # 8); Ratio (4 # 4)]
  ∧ Deformation.__init__ no_loader id id (Deformation.Obj chain_neigh)
      (Deformation.Obj short_neigh) "lddt" ∅ = Some chain_vs_short
  ∧ Deformation.lddt_residue [] chain_vs_short 0 = Some (Ratio (4 # 4))
  ∧ Deformation.lddt_residue [] chain_vs_short 3 = None
  ∧ Deformation.calculate_deformation_lddt [] chain_vs_short = None.
Proof. repeat split; vm_compute; reflexivity. Qed.

Section LengthClaim.

Context {A B : Type} `{!Neighbourhood A} `{!Neighbourhood B}.

(** C4, amended: neither constructor compares lengths; [Deformation.__init__]
    stores the two structures as given.  A mismatch shows only inside the
    per-residue loops: when the second structure has fewer residues than the
    first, every metric raises on reaching the first residue the second
    lacks; otherwise a returned array has one score per residue of the first
    structure.  An ensemble is accepted by [AverageProtein.__init__] whatever
    its members' lengths; members of different lengths make
    [get_average_local_neighborhood] fail. *)
Theorem length_mismatch_surfaces_late
  (load : string → option Protein.t) (inj1 : Protein.t → A)
  (inj2 : Protein.t → B) (a : A) (b : B) (method : string)
  (kwargs : gmap string pyval) (norm : bool)
  (rotate_points : matrix → matrix → option matrix)
  (inv : matrix → option matrix) (bins : vec) (cut : float) :
  (∃ d, Deformation.__init__ load inj1 inj2 (Deformation.Obj a)
          (Deformation.Obj b) method kwargs = Some d
        ∧ Deformation.prot1 d = a ∧ Deformation.prot2 d = b)
  ∧ (∀ self : Deformation.t A B,
       length (neigh_tensor (Deformation.prot2 self))
       < length (neigh_tensor (Deformation.prot1 self)) →
       Deformation.calculate_deformation_lddt bins self = None
       ∧ Deformation.calculate_deformation_ldd norm self = None
       ∧ Deformation.calculate_deformation_ntd norm rotate_points self = None
       ∧ Deformation.calculate_deformation_shear inv self = None
       ∧ Deformation.calculate_deformation_strain norm rotate_points self
         = None)
  ∧ (∀ (self : Deformation.t A B) (r : list ratio),
       Deformation.calculate_deformation_lddt bins self = Some r →
       length r = length (neigh_tensor (Deformation.prot1 self)))
  ∧ (∀ (ps : list Protein.t) (p0 : Protein.t),
       ps !! 0 = Some p0 →
       ∃ e, AverageProtein.__init__ ps ∅ = Some e
            ∧ AverageProtein.proteins e = ps)
  ∧ (∀ (e : AverageProtein.t) (p q : Protein.t),
       p ∈ AverageProtein.proteins e → q ∈ AverageProtein.proteins e →
       length (Protein.coord p) ≠ length (Protein.coord q) →
       AverageProtein.get_average_local_neighborhood rotate_points cut e
       = None).
Proof.
  split; [|split; [|split; [|split]]].
  - eexists. split; [reflexivity|]. simpl. auto.
  - intros self Hlt.
    set (k := length (neigh_tensor (Deformation.prot2 self))).
    assert (Hd : Deformation.residue_data self k = None)
      by (apply residue_data_past_end; lia).
    repeat split; apply (mapM_seq_None _ _ k); try done.
    + unfold Deformation.lddt_residue. by rewrite Hd.
    + unfold Deformation.ldd_residue. by rewrite Hd.
    + unfold Deformation.ntd_residue. by rewrite Hd.
    + unfold Deformation.shear_residue. by rewrite Hd.
    + unfold Deformation.strain_residue. by rewrite Hd.
  - intros self r Hr. unfold Deformation.calculate_deformation_lddt in Hr.
    by destruct (mapM_seq_lookup _ _ _ Hr) as [-> _].
  - intros ps p0 Hp0. unfold AverageProtein.__init__. rewrite Hp0. simpl.
    eexists. split; [reflexivity|]. reflexivity.
  - intros e p q Hp Hq Hne.
    unfold AverageProtein.get_average_local_neighborhood.
    destruct (AverageProtein.proteins e !! 0) as [p0|] eqn:Hp0; simpl; [|done].
    destruct (py_in _ ["af"; "dmp"]); [done|].
    destruct (py_in _ ["pdb"]); [|done].
    destruct (mean0 _) as [ca|] eqn:Hmean; simpl; [|done]. exfalso.
    destruct (AverageProtein.proteins e) as [|p1 ps] eqn:Hps; [done|].
    rewrite fmap_cons, fmap_cons in Hmean.
    apply mean0_length in Hmean as [_ Hall].
    assert (Hsame : ∀ x, x ∈ p1 :: ps →
              length (Protein.coord x) = length (Protein.coord p1)).
    { intros x Hx. apply elem_of_cons in Hx as [->|Hx]; [done|].
      rewrite Forall_forall in Hall.
      specialize (Hall (cdist (Protein.coord x) (Protein.coord x))).
      rewrite !cdist_length in Hall. apply Hall.
      apply list_elem_of_fmap. exists (Protein.coord x). split; [done|].
      apply list_elem_of_fmap. eauto. }
    rewrite (Hsame p Hp), (Hsame q Hq) in Hne. done.
Qed.

End LengthClaim.

(** *** Self-comparison *)

Section SelfComparison.

Context {A : Type} `{!Neighbourhood A}.

Lemma residue_data_self (self : Deformation.t A A) (i : nat) (i1 : list nat)
  (c1 c2 : matrix) :
  Deformation.prot1 self = Deformation.prot2 self →
  Deformation.residue_data self i = Some (Some (i1, c1, c2)) → c1 = c2.
Proof.
  intros Heq H. apply residue_data_Some in H
    as (t1 & t2 & n1 & n2 & Ht1 & Ht2 & Hn1 & Hn2 & -> & _ & H1 & H2).
  rewrite Heq in Ht1, Hn1. congruence.
Qed.

Lemma sub1_diag (v : vec) :
  Forall (λ x, PrimFloat.is_finite x = true) v →
  sub1 v v = Some (zeros (length v)).
Proof.
  intros Hfin. unfold sub1, broadcast2. rewrite decide_True by done.
  f_equal. unfold zeros. induction Hfin as [|x v Hx _ IH]; simpl; [done|].
  by rewrite IEEE.sub_diag_finite, IH.
Qed.

Lemma sumsq_zeros (n : nat) : sumsq (zeros n) = 0%float.
Proof. unfold sumsq, zeros. induction n as [|n IH]; simpl; [done|]. exact IH. Qed.

(** Comparing a structure with itself: wherever the selected rows have a
    finite norm, lddt is 1 and the (unnormalised) ldd is 0. *)
Lemma self_comparison_lddt_ldd (self : Deformation.t A A) (i : nat)
  (i1 : list nat) (c1 c2 : matrix) :
  Deformation.prot1 self = Deformation.prot2 self →
  Deformation.residue_data self i = Some (Some (i1, c1, c2)) →
  Forall (λ r, PrimFloat.is_finite (Np.norm r) = true) c1 →
  (∃ q, Deformation.lddt_residue [] self i = Some (Ratio q) ∧ (q == 1)%Q)
  ∧ Deformation.ldd_residue false self i = Some 0%float.
Proof.
  intros Heq Hd Hfin.
  pose proof (residue_data_self _ _ _ _ _ Heq Hd) as <-.
  assert (Hv : Forall (λ x, PrimFloat.is_finite x = true) (Np.norm <$> c1))
    by (by apply Forall_fmap).
  pose proof (sub1_diag _ Hv) as Hdv.
  split.
  - exists (lddt_quotient (zeros (length (Np.norm <$> c1)))).
    split; [by eapply lddt_residue_value|].
    destruct (residue_data_lengths _ _ _ _ _ Hd) as (_ & Hpos & _).
    apply lddt_quotient_one;
      [unfold zeros; rewrite length_replicate, length_fmap; lia|].
    intros cut Hcut. apply Forall_forall. intros x Hx.
    apply elem_of_replicate in Hx as [-> _].
    unfold Deformation.default_bins in Hcut.
    repeat (apply elem_of_cons in Hcut as [->|Hcut]; [reflexivity|]).
    by apply not_elem_of_nil in Hcut.
  - unfold Deformation.ldd_residue. rewrite Hd. simpl. rewrite Hdv. simpl.
    unfold Np.norm. rewrite sumsq_zeros. reflexivity.
Qed.

End SelfComparison.

(** Residue 0 of the chain has the single neighbour 1, shared with itself at
    position 0 of the neighbour list; position 0 of the dense tensor row is
    the entry [(0,0)], the zero vector. *)
Lemma chain_self_residue0 :
  Deformation.residue_data chain_self 0
  = Some (Some ([0], [[0; 0; 0]]%float, [[0; 0; 0]]%float)).
Proof. vm_compute. reflexivity. Qed.

(** C1 on the spec's 5-residue chain compared with itself, residue 0: lddt is
    1 and ldd is 0, but the strain divides a norm by the norm of the zero
    vector; whatever [rotate_points] returns, the strain is NaN or infinite
    (or the step raises), never 0. *)
Theorem self_comparison_strain_chain (norm : bool)
  (rotate_points : matrix → matrix → option matrix) :
  Deformation.lddt_residue [] chain_self 0 = Some (Ratio (4 # 4))
  ∧ Deformation.ldd_residue norm chain_self 0 = Some 0%float
  ∧ (Deformation.strain_residue norm rotate_points chain_self 0 = None
     ∨ ∃ s, Deformation.strain_residue norm rotate_points chain_self 0 = Some s
            ∧ (s = nan ∨ s = infinity ∨ s = neg_infinity)).
Proof.
  split; [vm_compute; reflexivity|]. split.
  - destruct norm; vm_compute; reflexivity.
  - unfold Deformation.strain_residue. rewrite chain_self_residue0.
    cbn [mbind option_bind].
    destruct (rotate_points _ _) as [c3|]; cbn [mbind option_bind]; [|by left].
    cbn [length seq Deformation.strain_loop].
    destruct (c3 !! 0) as [a|]; cbn [mbind option_bind]; [|by left].
    change ([[0; 0; 0]]%float !! 0) with (Some [0; 0; 0]%float).
    cbn [mbind option_bind].
    destruct (sub1 a _) as [d|]; cbn [mbind option_bind]; [|by left].
    right. change (Np.norm [0; 0; 0]%float) with 0%float.
    change (float_of_nat 1) with 1%float.
    eexists. split; [reflexivity|].
    destruct (IEEE.div_zero_cases (Np.norm d)) as [-> | [-> | ->]];
      destruct norm; vm_compute; auto.
Qed.

Lemma chain_self_residue2 :
  Deformation.residue_data chain_self 2
  = Some (Some ([0; 1], [[0; 0; 0]; [1; 0; 0]]%float,
                [[0; 0; 0]; [1; 0; 0]]%float)).
Proof. vm_compute. reflexivity. Qed.

Lemma chain_self_differences2 :
  sub1 (Np.norm <$> [[0; 0; 0]; [1; 0; 0]]%float)
       (Np.norm <$> [[0; 0; 0]; [1; 0; 0]]%float) = Some [0; 0]%float.
Proof. vm_compute. reflexivity. Qed.

(** Residue 2 of the chain compared with itself: two shared neighbours, both
    differences 0, hence 8 counts out of 4 × 2. *)
Lemma lddt_score_formula_chain :
  Deformation.lddt_residue [] chain_self 2
  = Some (Ratio (lddt_quotient [0; 0]%float))
  ∧ 0 < length [0; 1]
  ∧ (2 = 2 → 2 = 2)
  ∧ (0 <= lddt_quotient [0; 0]%float)%Q ∧ (lddt_quotient [0; 0]%float <= 1)%Q
  ∧ ((lddt_quotient [0; 0]%float == 1)%Q
     ↔ ∀ cut, cut ∈ Deformation.default_bins →
         Forall (λ x, (x <=? cut)%float = true) [0; 0]%float).
Proof.
  exact (lddt_score_formula chain_self 2 _ _ _ _
           chain_self_residue2 chain_self_differences2).
Defined.

(** The chain compared with itself, all residues: lddt is 1 and ldd is 0
    everywhere. *)
Example chain_self_lddt_ldd :
  Deformation.calculate_deformation_lddt [] chain_self
  = Some [Ratio (4 # 4); Ratio (8 # 8); Ratio (8 # 8); Ratio (8 # 8);
          Ratio (4 # 4)]
  ∧ Deformation.calculate_deformation_ldd false chain_self
    = Some [0; 0; 0; 0; 0]%float.
Proof. split; vm_compute; reflexivity. Qed.

(** *** The dictionary of results *)

Section Dispatch.

Context {A B : Type} `{!Neighbourhood A} `{!Neighbourhood B}.

Variable norm : bool.
Variable rotate_points : matrix → matrix → option matrix.
Variable inv : matrix → option matrix.

(** With the method 'all', a run that returns has stored the five arrays
    under their names. *)
Lemma calculate_deformation_all_entries (self self' : Deformation.t A B) :
  Deformation.method self = "all" →
  Deformation.calculate_deformation norm rotate_points inv self = Some self' →
  ∃ lddt ldd ntd shear strain,
    Deformation.calculate_deformation_lddt [] self = Some lddt
    ∧ Deformation.calculate_deformation_ldd norm self = Some ldd
    ∧ Deformation.calculate_deformation_ntd norm rotate_points self = Some ntd
    ∧ Deformation.calculate_deformation_shear inv self = Some shear
    ∧ Deformation.calculate_deformation_strain norm rotate_points self
      = Some strain
    ∧ Deformation.deformation self' !! "lddt" = Some (LddtScores lddt)
    ∧ Deformation.deformation self' !! "ldd" = Some (Scores ldd)
    ∧ Deformation.deformation self' !! "ntd" = Some (Scores ntd)
    ∧ Deformation.deformation self' !! "shear" = Some (Scores shear)
    ∧ Deformation.deformation self' !! "strain" = Some (Scores strain).
Proof.
  intros Hm H. unfold Deformation.calculate_deformation in H.
  rewrite Hm in H. simpl in H.
  unfold Deformation.calculate_deformation_all in H.
  destruct (Deformation.calculate_deformation_lddt [] self) as [lddt|];
    simpl in H; [|done].
  destruct (Deformation.calculate_deformation_ldd norm self) as [ldd|];
    simpl in H; [|done].
  destruct (Deformation.calculate_deformation_ntd _ _ self) as [ntd|];
    simpl in H; [|done].
  destruct (Deformation.calculate_deformation_shear _ self) as [shear|];
    simpl in H; [|done].
  destruct (Deformation.calculate_deformation_strain _ _ self) as [strain|];
    simpl in H; [|done].
  injection H as <-.
  exists lddt, ldd, ntd, shear, strain. simpl.
  repeat (split; [reflexivity|]).
  repeat split; by simplify_map_eq.
Qed.

End Dispatch.

(** ** Further properties of the neighbour graph and the tensor *)

Section NeighbourGraph.

Variable cut : float.
Variable min_conf : float.

Lemma where_from_sorted (mask : list bool) (k : nat) :
  StronglySorted lt (where_from k mask)
  ∧ Forall (λ j, k ≤ j < k + length mask) (where_from k mask).
Proof.
  revert k. induction mask as [|b mask IH]; intros k; simpl.
  - split; constructor.
  - destruct (IH (S k)) as [Hs Hf]. split.
    + destruct b; simpl; [|exact Hs]. constructor; [exact Hs|].
      eapply Forall_impl; [exact Hf|]. simpl. lia.
    + apply Forall_app. split.
      * destruct b; repeat constructor; lia.
      * eapply Forall_impl; [exact Hf|]. simpl. lia.
Qed.

Lemma where_sorted (mask : list bool) :
  StronglySorted lt (where_ mask) ∧ Forall (λ j, j < length mask) (where_ mask).
Proof.
  destruct (where_from_sorted mask 0) as [Hs Hf]. split; [exact Hs|].
  eapply Forall_impl; [exact Hf|]. simpl. lia.
Qed.

Lemma broadcast2_length {X Y Z} (f : X → Y → Z) (a : list X) (b : list Y)
  (m : list Z) :
  broadcast2 f a b = Some m →
  (length a = length b ∧ length m = length a)
  ∨ (length a = 1 ∧ length b ≠ 1 ∧ length m = length b)
  ∨ (length b = 1 ∧ length a ≠ 1 ∧ length m = length a).
Proof.
  unfold broadcast2. case_decide as Hlen.
  - intros [= <-]. left. rewrite length_zip_with. lia.
  - intros H.
    destruct a as [|x [|x' a]], b as [|y [|y' b]]; simpl in *; try done;
      injection H as <-; simpl; rewrite ?length_fmap; lia.
Qed.

(** A neighbour list built by [np.where] is strictly ascending. *)
Lemma neighbours_model_sorted (plddt row : vec) (p : float) (nb : list nat) :
  Protein.neighbours_model cut min_conf plddt row p = Some nb →
  StronglySorted lt nb.
Proof.
  unfold Protein.neighbours_model. intros H.
  destruct (broadcast2 _ _ _) as [m|]; simpl in H; [|done].
  injection H as <-. apply where_sorted.
Qed.

Lemma idx_list_sorted (dtype : pyval) (plddt : vec) (dist : matrix)
  (idx : list (list nat)) :
  Protein.idx_list_of cut min_conf dtype plddt dist = Some idx →
  Forall (StronglySorted lt) idx.
Proof.
  unfold Protein.idx_list_of. intros H.
  destruct (py_in dtype ["af"; "dmp"]).
  - apply mapM_Some in H. apply Forall_forall. intros nb Hnb.
    apply list_elem_of_lookup_1 in Hnb as [i Hi].
    destruct (Forall2_lookup_r _ _ _ _ _ H Hi) as ([row q] & _ & Hm).
    eapply neighbours_model_sorted; eauto.
  - destruct (py_in dtype ["pdb"]); [|done]. injection H as <-.
    apply Forall_fmap, Forall_forall. intros row _. apply where_sorted.
Qed.

Lemma fill_row_is_Some (coord : matrix) (ci : vec) (nb : list nat) :
  ∀ row, is_Some (Protein.fill_row coord ci row nb)
         ↔ Forall (λ j, j < length coord) nb.
Proof.
  induction nb as [|j nb IH]; intros row; simpl.
  - split; [constructor | eauto].
  - rewrite Forall_cons. destruct (coord !! j) as [cj|] eqn:Hj; simpl.
    + rewrite IH. apply lookup_lt_Some in Hj. tauto.
    + apply lookup_ge_None in Hj. split.
      * intros [? ?]. done.
      * intros [? _]. lia.
Qed.

Lemma fill_row_length (coord : matrix) (ci : vec) (nb : list nat) :
  ∀ row row', Protein.fill_row coord ci row nb = Some row' →
              length row' = length row.
Proof.
  induction nb as [|j nb IH]; intros row row' H; simpl in H.
  - by injection H as <-.
  - destruct (coord !! j); simpl in H; [|done].
    rewrite (IH _ _ H). apply length_insert.
Qed.

End NeighbourGraph.

Section NeighbourGraphProperties.

Variable cut : float.
Variable min_conf : float.

Lemma sumsq_vsub_sym (a b : vec) : sumsq (vsub a b) = sumsq (vsub b a).
Proof.
  unfold sumsq, vsub. generalize 0%float as acc. revert b.
  induction a as [|x a IH]; intros [|y b] acc; simpl; try done.
  rewrite IEEE.sub_square_sym. apply IH.
Qed.

(** The Euclidean distance matrix is symmetric, bit for bit. *)
Lemma cdist_sym (xyz : matrix) (i j : nat) :
  cdist xyz xyz !! i ≫= (.!! j) = cdist xyz xyz !! j ≫= (.!! i).
Proof.
  unfold cdist. rewrite !list_lookup_fmap.
  destruct (xyz !! i) as [ci|] eqn:Hi, (xyz !! j) as [cj|] eqn:Hj; simpl;
    rewrite ?list_lookup_fmap, ?Hi, ?Hj; simpl; try done.
  unfold Np.norm. by rewrite sumsq_vsub_sym.
Qed.

Lemma get_ldt_idx_Some_rows (coord : matrix) (idx : list (list nat))
  (t : list matrix) (i : nat) :
  Protein._get_ldt_idx coord idx = Some t → i < length coord →
  ∃ nb, idx !! i = Some nb ∧ Forall (λ j, j < length coord) nb.
Proof.
  intros Ht Hi. apply get_ldt_idx_rows in Ht as [_ Ht].
  destruct (mapM_seq_lookup _ _ _ Ht) as [_ Hall].
  destruct (Hall i Hi) as (row & Hrow & _).
  destruct (coord !! i) as [ci|]; simpl in Hrow; [|done].
  destruct (idx !! i) as [nb|]; simpl in Hrow; [|done].
  exists nb. split; [done|]. eapply fill_row_is_Some; eauto.
Qed.


(** A structure built without coordinates: its array is [np.array([])] and
    neither [_get_ldt] nor [get_local_neighborhood] returns. *)
Example no_coordinates_raise :
  (Protein.__init__ ∅ ≫= Protein._get_ldt) = None
  ∧ (Protein.__init__ (<["name" := PyStr "pdb"]> ∅)
     ≫= Protein.get_local_neighborhood 1.5%float 0%float) = None.
Proof. split; vm_compute; reflexivity. Qed.

Lemma idx_list_length (dtype : pyval) (plddt : vec) (dist : matrix)
  (idx : list (list nat)) :
  Protein.idx_list_of cut min_conf dtype plddt dist = Some idx →
  length idx ≤ length dist.
Proof.
  unfold Protein.idx_list_of. intros H.
  destruct (py_in dtype ["af"; "dmp"]).
  - apply length_mapM in H. rewrite length_zip_with in H. lia.
  - destruct (py_in dtype ["pdb"]); [|done]. injection H as <-.
    by rewrite length_fmap.
Qed.

Lemma neigh_idx_length (p p' : Protein.t) :
  Protein.get_local_neighborhood cut min_conf p = Some p' →
  length (Protein.neigh_idx p') = length (Protein.coord p).
Proof.
  intros H. apply get_local_neighborhood_inv in H as (Hidx & Ht & _).
  pose proof (idx_list_length _ _ _ _ Hidx) as Hle.
  rewrite cdist_length in Hle.
  destruct (length (Protein.coord p)) as [|n] eqn:E; [lia|].
  destruct (get_ldt_idx_Some_rows _ _ _ n Ht) as (nb & Hnb & _); [lia|].
  apply lookup_lt_Some in Hnb. lia.
Qed.

(** X2: after [get_local_neighborhood], [neigh_idx] and [neigh_tensor] hold
    one entry per residue, every neighbour list is strictly ascending with
    all its indices below the number of residues, and every tensor entry has
    one row per residue. *)
Theorem neighbourhood_shape (p p' : Protein.t) :
  Protein.get_local_neighborhood cut min_conf p = Some p' →
  length (Protein.neigh_idx p') = length (Protein.coord p)
  ∧ length (Protein.neigh_tensor p') = length (Protein.coord p)
  ∧ Forall (λ nb, StronglySorted lt nb
                  ∧ Forall (λ j, j < length (Protein.coord p)) nb)
      (Protein.neigh_idx p')
  ∧ Forall (λ t : matrix, length t = length (Protein.coord p))
      (Protein.neigh_tensor p').
Proof.
  intros H. pose proof (neigh_idx_length _ _ H) as Hnl.
  apply get_local_neighborhood_inv in H as (Hidx & Ht & _).
  pose proof (idx_list_sorted _ _ _ _ _ _ Hidx) as Hsorted.
  assert (Hsome : ∀ i, i < length (Protein.coord p) →
            ∃ nb, Protein.neigh_idx p' !! i = Some nb
                  ∧ Forall (λ j, j < length (Protein.coord p)) nb)
    by (intros i; by apply get_ldt_idx_Some_rows with (Protein.neigh_tensor p')).
  apply get_ldt_idx_rows in Ht as [_ Ht].
  destruct (mapM_seq_lookup _ _ _ Ht) as [Hlen Hrows].
  split; [done|]. split; [done|]. split.
  - apply Forall_forall. intros nb Hnb. split.
    + rewrite Forall_forall in Hsorted. by apply Hsorted.
    + apply list_elem_of_lookup_1 in Hnb as [i Hi].
      destruct (Hsome i) as (nb' & Hnb' & Hin).
      { apply lookup_lt_Some in Hi. lia. }
      congruence.
  - apply Forall_forall. intros t Hin.
    apply list_elem_of_lookup_1 in Hin as [i Hi].
    destruct (mapM_seq_lookup_inv _ _ _ _ _ Ht Hi) as [Hlt Hrow].
    destruct (Protein.coord p !! i) as [ci|]; simpl in Hrow; [|done].
    destruct (Protein.neigh_idx p' !! i) as [nb|]; simpl in Hrow; [|done].
    rewrite (fill_row_length _ _ _ _ _ Hrow). apply length_replicate.
Qed.

(** X3: under the experimental ('pdb') policy the neighbour relation is
    symmetric: [j] is listed for [i] exactly when [i] is listed for [j]. *)
Theorem experimental_neighbours_symmetric (p p' : Protein.t) (i j : nat)
  (ni nj : list nat) :
  Protein.get_local_neighborhood cut min_conf p = Some p' →
  Protein.dtype p = PyStr "pdb" →
  Protein.neigh_idx p' !! i = Some ni →
  Protein.neigh_idx p' !! j = Some nj →
  j ∈ ni ↔ i ∈ nj.
Proof.
  intros H Hpdb Hni Hnj.
  apply get_local_neighborhood_inv in H as (Hidx & _ & _).
  unfold Protein.idx_list_of in Hidx. rewrite Hpdb in Hidx. simpl in Hidx.
  injection Hidx as Hidx. rewrite <- Hidx, list_lookup_fmap in Hni, Hnj.
  pose proof (cdist_sym (Protein.coord p) i j) as Hsym.
  destruct (cdist _ _ !! i) as [ri|]; simpl in Hni; [|done].
  destruct (cdist _ _ !! j) as [rj|]; simpl in Hnj; [|done].
  injection Hni as <-. injection Hnj as <-. simpl in Hsym.
  rewrite !neighbours_experimental_spec, Hsym. done.
Qed.

End NeighbourGraphProperties.

Lemma neighbourhood_shape_chain :
  length (Protein.neigh_idx chain_neigh) = 5
  ∧ length (Protein.neigh_tensor chain_neigh) = 5
  ∧ Forall (λ nb, StronglySorted lt nb ∧ Forall (λ j, j < 5) nb)
      (Protein.neigh_idx chain_neigh)
  ∧ Forall (λ t : matrix, length t = 5) (Protein.neigh_tensor chain_neigh).
Proof.
  exact (neighbourhood_shape 1.5%float 0%float chain_protein chain_neigh chain_neigh_derived).
Defined.

Lemma experimental_neighbours_symmetric_chain : 3 ∈ [1; 3] ↔ 2 ∈ [2; 4].
Proof.
  apply (experimental_neighbours_symmetric 1.5%float 0%float chain_protein chain_neigh 2 3
           [1; 3] [2; 4] chain_neigh_derived eq_refl);
    vm_compute; reflexivity.
Defined.

Section ModelPolicy.

Variable cut : float.
Variable min_conf : float.

Lemma idx_list_model_row (dtype : pyval) (plddt : vec) (dist : matrix)
  (idx : list (list nat)) (i : nat) (nb : list nat) :
  py_in dtype ["af"; "dmp"] = true →
  Protein.idx_list_of cut min_conf dtype plddt dist = Some idx →
  idx !! i = Some nb →
  ∃ row q, dist !! i = Some row ∧ plddt !! i = Some q
           ∧ Protein.neighbours_model cut min_conf plddt row q = Some nb.
Proof.
  intros Haf H Hnb. unfold Protein.idx_list_of in H. rewrite Haf in H.
  apply mapM_Some in H.
  destruct (Forall2_lookup_r _ _ _ i nb H Hnb) as ([row q] & Hz & Hm).
  apply lookup_zip_with_Some in Hz as (? & ? & [= <- <-] & Hrow & Hq).
  eauto.
Qed.

(** X4: under the model ('af', 'dmp') policy with one confidence value per
    residue, [j] is a neighbour of [i] exactly when their distance is positive
    and at most the cutoff and both confidence values reach the threshold. *)
Theorem model_neighbours_characterised (p p' : Protein.t) (i j : nat)
  (nb : list nat) (d qi qj : float) :
  Protein.get_local_neighborhood cut min_conf p = Some p' →
  py_in (Protein.dtype p) ["af"; "dmp"] = true →
  length (Protein.plddt p) = length (Protein.coord p) →
  Protein.neigh_idx p' !! i = Some nb →
  cdist (Protein.coord p) (Protein.coord p) !! i ≫= (.!! j) = Some d →
  Protein.plddt p !! i = Some qi →
  Protein.plddt p !! j = Some qj →
  j ∈ nb ↔ (0 <? d)%float = true ∧ (d <=? cut)%float = true
           ∧ (min_conf <=? qj)%float = true ∧ (min_conf <=? qi)%float = true.
Proof.
  intros H Haf Hlen Hnb Hd Hqi Hqj.
  apply get_local_neighborhood_inv in H as (Hidx & _ & _).
  destruct (idx_list_model_row _ _ _ _ _ _ Haf Hidx Hnb)
    as (row & q & Hrow & Hq & Hm).
  rewrite Hrow in Hd. simpl in Hd.
  assert (q = qi) as -> by congruence.
  unfold Protein.neighbours_model, broadcast2 in Hm.
  rewrite decide_True in Hm
    by (rewrite !length_fmap, (cdist_row_length _ _ _ _ Hrow); lia).
  simpl in Hm. injection Hm as <-.
  rewrite where_spec, list_lookup_fmap, lookup_zip_with, !list_lookup_fmap.
  rewrite Hd, Hqj. simpl. split.
  - intros [= H]. rewrite !andb_true_iff in H. tauto.
  - intros (-> & -> & -> & ->). done.
Qed.

(** X5: under the model policy a structure of two or more residues needs one
    confidence value per residue: [get_local_neighborhood] returns only when
    [plddt] is as long as [coord]. *)
Theorem model_policy_needs_plddt (p p' : Protein.t) :
  Protein.get_local_neighborhood cut min_conf p = Some p' →
  py_in (Protein.dtype p) ["af"; "dmp"] = true →
  2 ≤ length (Protein.coord p) →
  length (Protein.plddt p) = length (Protein.coord p).
Proof.
  intros H Haf HL.
  pose proof (neigh_idx_length cut min_conf _ _ H) as Hlen.
  apply get_local_neighborhood_inv in H as (Hidx & _ & _).
  destruct (lookup_lt_is_Some_2 (Protein.neigh_idx p') 0) as [nb Hnb]; [lia|].
  destruct (idx_list_model_row _ _ _ _ _ _ Haf Hidx Hnb)
    as (row & q & Hrow & Hq & Hm).
  unfold Protein.idx_list_of in Hidx. rewrite Haf in Hidx.
  apply length_mapM in Hidx. rewrite length_zip_with, cdist_length in Hidx.
  unfold Protein.neighbours_model in Hm.
  destruct (broadcast2 _ _ _) as [m|] eqn:Hb; simpl in Hm; [|done].
  apply broadcast2_length in Hb. rewrite !length_fmap in Hb.
  rewrite (cdist_row_length _ _ _ _ Hrow) in Hb. lia.
Qed.

(** X6: a structure whose name is none of 'af', 'dmp', 'pdb' has no filtering
    policy: [get_local_neighborhood] raises, whatever else was passed to
    the constructor. *)
Theorem policy_needs_known_name (kwargs : gmap string pyval) (p : Protein.t) :
  Protein.__init__ kwargs = Some p →
  py_in (kwargs_get kwargs "name" (PyStr "")) ["af"; "dmp"; "pdb"] = false →
  Protein.get_local_neighborhood cut min_conf p = None.
Proof.
  intros Hp Hname.
  assert (Hd : Protein.dtype p = kwargs_get kwargs "name" (PyStr "")).
  { unfold Protein.__init__ in Hp.
    repeat (match type of Hp with
            | (?o ≫= _) = Some _ => destruct o; simpl in Hp; [|done]
            end).
    by injection Hp as <-. }
  unfold Protein.get_local_neighborhood, Protein.idx_list_of. rewrite Hd.
  destruct (kwargs_get kwargs "name" (PyStr "")) as [s| | | |]; simpl in *;
    try done.
  apply bool_decide_eq_false in Hname.
  rewrite !elem_of_cons in Hname.
  assert (H1 : s ∉ ["af"; "dmp"]) by (rewrite !elem_of_cons; tauto).
  assert (H2 : s ∉ ["pdb"]) by (rewrite !elem_of_cons; tauto).
  rewrite (bool_decide_eq_false_2 _ H1), (bool_decide_eq_false_2 _ H2).
  done.
Qed.

End ModelPolicy.

Lemma model_neigh_derived :
  Protein.get_local_neighborhood 2.5%float 0.625%float model_protein
  = Some model_neigh.
Proof. vm_compute. reflexivity. Qed.

(** In the model structure residues 0 and 2 are neighbours of each other;
    residue 1, of low confidence, has none and is nobody's neighbour. *)
Example model_neighbours :
  Protein.neigh_idx model_neigh = [[2]; []; [0]].
Proof. vm_compute. reflexivity. Qed.

Lemma model_neighbours_characterised_example :
  2 ∈ [2] ↔ (0 <? 2)%float = true ∧ (2 <=? 2.5)%float = true
            ∧ (0.625 <=? 0.75)%float = true ∧ (0.625 <=? 0.875)%float = true.
Proof.
  apply (model_neighbours_characterised 2.5%float 0.625%float model_protein
           model_neigh 0 2 [2] 2%float 0.875%float 0.75%float
           model_neigh_derived); vm_compute; reflexivity.
Defined.

Lemma model_policy_needs_plddt_example :
  length (Protein.plddt model_protein) = length (Protein.coord model_protein).
Proof.
  apply (model_policy_needs_plddt 2.5%float 0.625%float model_protein
           model_neigh model_neigh_derived); [reflexivity | vm_compute; lia].
Defined.

Lemma policy_needs_known_name_example :
  ∃ p, Protein.__init__ named_kwargs = Some p
       ∧ Protein.get_local_neighborhood 1.5%float 0%float p = None.
Proof.
  eexists. split; [vm_compute; reflexivity|].
  apply (policy_needs_known_name 1.5%float 0%float named_kwargs);
    vm_compute; reflexivity.
Defined.

(** ** Further properties of the deformation engine *)

Section SelfRows.

Context {A : Type} `{!Neighbourhood A}.

Lemma where_from_all_true (mask : list bool) (k : nat) :
  Forall (λ b, b = true) mask → where_from k mask = seq k (length mask).
Proof.
  intros H. revert k. induction H as [|b mask -> _ IH]; intros k; simpl;
    [done|]. by rewrite IH.
Qed.

Lemma shared_positions_self (n : list nat) :
  Deformation.shared_positions n n = seq 0 (length n).
Proof.
  unfold Deformation.shared_positions, where_.
  rewrite where_from_all_true, length_fmap; [done|].
  apply Forall_fmap, Forall_forall. intros k Hk. simpl.
  by apply bool_decide_eq_true.
Qed.

Lemma index_list_seq {X} (t : list X) (a k : nat) :
  a + k ≤ length t →
  index_list t (seq a k) = Some (take k (drop a t)).
Proof.
  unfold index_list. revert a. induction k as [|k IH]; intros a Hle; simpl.
  - by rewrite take_0.
  - destruct (lookup_lt_is_Some_2 t a) as [x Hx]; [lia|].
    rewrite Hx. simpl. rewrite IH by lia. simpl.
    rewrite (drop_S _ _ _ Hx). done.
Qed.

(** Comparing a structure with itself, a residue with [k >= 1] neighbours
    has all [k] positions shared, and the rows selected on both sides are
    the first [k] rows of its tensor entry. *)
Lemma residue_data_self_rows (self : Deformation.t A A) (i : nat)
  (t : matrix) (n : list nat) :
  Deformation.prot1 self = Deformation.prot2 self →
  neigh_tensor (Deformation.prot1 self) !! i = Some t →
  neigh_idx (Deformation.prot1 self) !! i = Some n →
  0 < length n ≤ length t →
  Deformation.residue_data self i
  = Some (Some (seq 0 (length n), take (length n) t, take (length n) t)).
Proof.
  intros Heq Ht Hn Hlen. unfold Deformation.residue_data.
  rewrite <- Heq, Ht, Hn. simpl.
  rewrite decide_False by lia.
  rewrite shared_positions_self.
  rewrite decide_False by (rewrite length_seq; lia).
  rewrite index_list_seq by (simpl; lia). simpl. by rewrite drop_0.
Qed.

(** X7: comparing a structure with itself, a residue with [k >= 1]
    neighbours has all [k] list positions shared, and both sides select the
    first [k] rows of its tensor entry; when these rows have finite norms,
    its lddt is 1 and its unnormalised ldd is 0. *)
Theorem self_comparison_identity (self : Deformation.t A A) (i : nat)
  (t : matrix) (n : list nat) :
  Deformation.prot1 self = Deformation.prot2 self →
  neigh_tensor (Deformation.prot1 self) !! i = Some t →
  neigh_idx (Deformation.prot1 self) !! i = Some n →
  0 < length n ≤ length t →
  Forall (λ r, PrimFloat.is_finite (Np.norm r) = true) (take (length n) t) →
  Deformation.residue_data self i
  = Some (Some (seq 0 (length n), take (length n) t, take (length n) t))
  ∧ (∃ q, Deformation.lddt_residue [] self i = Some (Ratio q) ∧ (q == 1)%Q)
  ∧ Deformation.ldd_residue false self i = Some 0%float.
Proof.
  intros Heq Ht Hn Hlen Hfin.
  pose proof (residue_data_self_rows self i t n Heq Ht Hn Hlen) as Hd.
  split; [exact Hd|].
  exact (self_comparison_lddt_ldd self i _ _ _ Heq Hd Hfin).
Qed.

End SelfRows.

Lemma self_comparison_identity_chain :
  Deformation.residue_data chain_self 2
  = Some (Some (seq 0 2,
                take 2 [[0; 0; 0]; [1; 0; 0]; [0; 0; 0]; [-1; 0; 0];
                        [0; 0; 0]]%float,
                take 2 [[0; 0; 0]; [1; 0; 0]; [0; 0; 0]; [-1; 0; 0];
                        [0; 0; 0]]%float))
  ∧ (∃ q, Deformation.lddt_residue [] chain_self 2 = Some (Ratio q)
          ∧ (q == 1)%Q)
  ∧ Deformation.ldd_residue false chain_self 2 = Some 0%float.
Proof.
  apply (self_comparison_identity chain_self 2 _ [1; 3]);
    [reflexivity | vm_compute; reflexivity | vm_compute; reflexivity
    | simpl; lia | repeat constructor].
Defined.

Section LddSymmetry.

Context {A B : Type} `{!Neighbourhood A} `{!Neighbourhood B}.

Lemma mirrored_square (x y : float) : mirrored x y → (x * x = y * y)%float.
Proof. intros [-> | [-> ->]]; [apply IEEE.mul_opp_opp | done]. Qed.

Lemma sumsq_mirrored (r r' : vec) :
  Forall2 mirrored r r' → sumsq r = sumsq r'.
Proof.
  intros H. unfold sumsq. generalize 0%float as acc.
  induction H as [|x y r r' Hxy _ IH]; intros acc; simpl; [done|].
  rewrite (mirrored_square _ _ Hxy). apply IH.
Qed.

Lemma sub1_swap (a b : vec) :
  match sub1 a b, sub1 b a with
  | Some r, Some r' => Forall2 mirrored r r'
  | None, None => True
  | _, _ => False
  end.
Proof.
  unfold sub1, broadcast2.
  destruct (decide (length a = length b)) as [Hlen|Hlen].
  - rewrite decide_True by done. clear Hlen. revert b.
    induction a as [|x a IH]; intros [|y b]; simpl; constructor;
      [apply IEEE.sub_antisym | apply IH].
  - rewrite decide_False by done.
    assert (Hmap : ∀ (x : float) (l : vec),
              Forall2 mirrored (PrimFloat.sub x <$> l)
                               ((λ z, PrimFloat.sub z x) <$> l)).
    { intros x l. induction l; simpl; constructor;
        [apply IEEE.sub_antisym | done]. }
    assert (Hmap' : ∀ (y : float) (l : vec),
              Forall2 mirrored ((λ z, PrimFloat.sub z y) <$> l)
                               (PrimFloat.sub y <$> l)).
    { intros y l. induction l; simpl; constructor;
        [apply IEEE.sub_antisym | done]. }
    destruct a as [|x [|x' a]], b as [|y [|y' b]]; simpl in *; try done.
    all: try (apply (Hmap x (y :: y' :: b))).
    all: try (apply (Hmap' y (x :: x' :: a))).
    all: try constructor.
Qed.

Lemma shared_positions_empty_sym (n1 n2 : list nat) :
  length (Deformation.shared_positions n1 n2) = 0
  ↔ length (Deformation.shared_positions n2 n1) = 0.
Proof.
  rewrite !length_zero_iff_nil.
  split; intros H.
  - destruct (Deformation.shared_positions n2 n1) eqn:E; [done|].
    exfalso. eapply shared_positions_sym; [|exact H]. by rewrite E.
  - destruct (Deformation.shared_positions n1 n2) eqn:E; [done|].
    exfalso. eapply shared_positions_sym; [|exact H]. by rewrite E.
Qed.

(** Swapping the two structures swaps the two sets of selected rows. *)
Lemma residue_data_swap (self : Deformation.t A B) (self' : Deformation.t B A)
  (i : nat) :
  Deformation.prot1 self' = Deformation.prot2 self →
  Deformation.prot2 self' = Deformation.prot1 self →
  match Deformation.residue_data self i, Deformation.residue_data self' i with
  | Some (Some (_, c1, c2)), Some (Some (_, c1', c2')) => c1' = c2 ∧ c2' = c1
  | Some None, Some None => True
  | None, None => True
  | _, _ => False
  end.
Proof.
  intros E1 E2. unfold Deformation.residue_data. rewrite E1, E2.
  destruct (neigh_tensor (Deformation.prot1 self) !! i) as [t1|],
    (neigh_tensor (Deformation.prot2 self) !! i) as [t2|]; simpl; try done.
  destruct (decide (length t1 = 0 ∨ length t2 = 0)) as [Hd|Hd].
  { rewrite decide_True by tauto. done. }
  rewrite decide_False by tauto.
  destruct (neigh_idx (Deformation.prot1 self) !! i) as [n1|],
    (neigh_idx (Deformation.prot2 self) !! i) as [n2|]; simpl; try done.
  pose proof (shared_positions_empty_sym n1 n2) as Hsym.
  destruct (decide (length (Deformation.shared_positions n1 n2) = 0)) as [H0|H0].
  { rewrite decide_True by tauto. done. }
  rewrite decide_False by tauto.
  destruct (index_list t1 _) as [c1|], (index_list t2 _) as [c2|]; simpl; done.
Qed.

(** X8: the unnormalised ldd does not depend on the order of the two
    structures: residue by residue it is the same score, NaN or exception
    either way, and for structures of one length the whole arrays agree. *)
Theorem ldd_symmetric (self : Deformation.t A B) (self' : Deformation.t B A) :
  Deformation.prot1 self' = Deformation.prot2 self →
  Deformation.prot2 self' = Deformation.prot1 self →
  (∀ i, Deformation.ldd_residue false self' i
        = Deformation.ldd_residue false self i)
  ∧ (length (neigh_tensor (Deformation.prot1 self))
     = length (neigh_tensor (Deformation.prot2 self)) →
     Deformation.calculate_deformation_ldd false self'
     = Deformation.calculate_deformation_ldd false self).
Proof.
  intros E1 E2.
  assert (Hres : ∀ i, Deformation.ldd_residue false self' i
                      = Deformation.ldd_residue false self i).
  { intros i. pose proof (residue_data_swap self self' i E1 E2) as Hsw.
    unfold Deformation.ldd_residue.
    destruct (Deformation.residue_data self i) as [[[[i1 c1] c2]|]|],
      (Deformation.residue_data self' i) as [[[[i1' c1'] c2']|]|];
      simpl in *; try done.
    destruct Hsw as [-> ->].
    pose proof (sub1_swap (Np.norm <$> c2) (Np.norm <$> c1)) as Hs.
    destruct (sub1 (Np.norm <$> c2) (Np.norm <$> c1)) as [r|],
      (sub1 (Np.norm <$> c1) (Np.norm <$> c2)) as [r'|]; simpl; try done.
    unfold Np.norm. by rewrite (sumsq_mirrored _ _ Hs). }
  split; [exact Hres|].
  intros Hlen. unfold Deformation.calculate_deformation_ldd.
  rewrite E1, <- Hlen. apply mapM_ext. exact Hres.
Qed.

End LddSymmetry.

(** The two 2-residue structures in both orders: the ldd of residue 1 is 3
    either way (its lddt is not, see [lddt_signed_difference]). *)
Lemma ldd_symmetric_pairs :
  (∀ i, Deformation.ldd_residue false near_vs_far i
        = Deformation.ldd_residue false far_vs_near i)
  ∧ (2 = 2 →
     Deformation.calculate_deformation_ldd false near_vs_far
     = Deformation.calculate_deformation_ldd false far_vs_near).
Proof.
  refine (ldd_symmetric far_vs_near near_vs_far eq_refl eq_refl).
Defined.

Example ldd_pairs_value :
  Deformation.calculate_deformation_ldd false far_vs_near
  = Some [0; 3]%float.
Proof. vm_compute. reflexivity. Qed.

Section ErrorPolicy.

Context {A B : Type} `{!Neighbourhood A} `{!Neighbourhood B}.

Variable norm : bool.
Variable rotate_points : matrix → matrix → option matrix.
Variable inv : matrix → option matrix.

Lemma mapM_seq_is_Some {X} (f : nat → option X) (l : nat) :
  is_Some (mapM f (seq 0 l)) ↔ ∀ k, k < l → is_Some (f k).
Proof.
  rewrite mapM_is_Some, Forall_forall. split.
  - intros Hall k Hk. apply Hall, elem_of_seq. lia.
  - intros Hall k Hk. apply Hall. apply elem_of_seq in Hk. lia.
Qed.

Lemma shear_residue_is_Some (self : Deformation.t A B) (i : nat) :
  is_Some (Deformation.shear_residue inv self i)
  ↔ is_Some (Deformation.residue_data self i).
Proof.
  unfold Deformation.shear_residue.
  destruct (Deformation.residue_data self i) as [[[[i1 u1] u2]|]|]; simpl;
    try (split; intros _; by eexists).
  split; intros [? ?]; done.
Qed.

(** X9: the shear metric raises only where the common selection of rows
    raises: a failure inside its [try] block ([np.linalg.inv] on a singular
    matrix, a shape error) becomes NaN.  The ntd and strain metrics have no
    such block: a superposition that raises at one residue makes the whole
    ntd run, the whole strain run and the run of 'all' raise, while shear
    still has a value there. *)
Theorem error_policy (self : Deformation.t A B) :
  let l := length (neigh_tensor (Deformation.prot1 self)) in
  (is_Some (Deformation.calculate_deformation_shear inv self)
   ↔ ∀ i, i < l → is_Some (Deformation.residue_data self i))
  ∧ (∀ i i1 c1 c2, i < l →
       Deformation.residue_data self i = Some (Some (i1, c1, c2)) →
       rotate_points c2 c1 = None →
       Deformation.shear_residue inv self i
       = Some (default nan (Deformation.shear_value inv c1 c2))
       ∧ Deformation.calculate_deformation_ntd norm rotate_points self = None
       ∧ Deformation.calculate_deformation_strain norm rotate_points self
         = None
       ∧ Deformation.calculate_deformation_all norm rotate_points inv self ∅
         = None).
Proof.
  intros l. split.
  - unfold Deformation.calculate_deformation_shear.
    rewrite mapM_seq_is_Some. fold l.
    split; intros Hall i Hi; apply shear_residue_is_Some; auto.
  - intros i i1 c1 c2 Hi Hd Hrot.
    assert (Hntd : Deformation.calculate_deformation_ntd norm rotate_points self
                   = None).
    { unfold Deformation.calculate_deformation_ntd.
      apply (mapM_seq_None _ _ i); [exact Hi|].
      unfold Deformation.ntd_residue. rewrite Hd. simpl. by rewrite Hrot. }
    assert (Hstrain : Deformation.calculate_deformation_strain norm
                        rotate_points self = None).
    { unfold Deformation.calculate_deformation_strain.
      apply (mapM_seq_None _ _ i); [exact Hi|].
      unfold Deformation.strain_residue. rewrite Hd. simpl. by rewrite Hrot. }
    split; [|split; [exact Hntd|split; [exact Hstrain|]]].
    + unfold Deformation.shear_residue. by rewrite Hd.
    + unfold Deformation.calculate_deformation_all. rewrite Hntd.
      destruct (Deformation.calculate_deformation_lddt [] self); simpl; [|done].
      destruct (Deformation.calculate_deformation_ldd norm self); done.
Qed.

End ErrorPolicy.

(** On the chain compared with itself: an inversion that always fails gives
    NaN for every residue, a superposition that always fails gives no ntd
    array at all. *)
Example shear_nan_ntd_raises :
  Deformation.calculate_deformation_shear (λ _, None) chain_self
  = Some [nan; nan; nan; nan; nan]
  ∧ Deformation.calculate_deformation_ntd false (λ _ _, None) chain_self
    = None.
Proof. split; vm_compute; reflexivity. Qed.

Section DispatchKeys.

Context {A B : Type} `{!Neighbourhood A} `{!Neighbourhood B}.

Variable norm : bool.
Variable rotate_points : matrix → matrix → option matrix.
Variable inv : matrix → option matrix.

(** X10: [calculate_deformation] starts from an empty dictionary, so what
    [self.deformation] held before has no effect; a method that is none of
    the six names raises nothing and leaves the dictionary empty; a run that
    returns keeps the two structures and the method and stores exactly the
    five metrics for 'all', and exactly the metric asked for otherwise. *)
Theorem dispatch_keys (self : Deformation.t A B) :
  (∀ d, Deformation.calculate_deformation norm rotate_points inv
          (Deformation.set_deformation self d)
        = Deformation.calculate_deformation norm rotate_points inv self)
  ∧ (Deformation.method self ∉ "all" :: metric_names →
     Deformation.calculate_deformation norm rotate_points inv self
     = Some (Deformation.set_deformation self ∅))
  ∧ (∀ self',
       Deformation.calculate_deformation norm rotate_points inv self
       = Some self' →
       Deformation.prot1 self' = Deformation.prot1 self
       ∧ Deformation.prot2 self' = Deformation.prot2 self
       ∧ Deformation.method self' = Deformation.method self
       ∧ dom (Deformation.deformation self')
         = if bool_decide (Deformation.method self = "all")
           then list_to_set metric_names
           else if bool_decide (Deformation.method self ∈ metric_names)
           then {[ Deformation.method self ]}
           else (∅ : gset string)).
Proof.
  split; [|split].
  - intros d. reflexivity.
  - intros Hm. unfold Deformation.calculate_deformation.
    unfold metric_names in Hm. rewrite !not_elem_of_cons in Hm.
    destruct Hm as (H0 & H1 & H2 & H3 & H4 & H5 & _).
    apply String.eqb_neq in H0, H1, H2, H3, H4, H5.
    by rewrite H0, H1, H2, H3, H4, H5.
  - intros self' H. unfold Deformation.calculate_deformation in H.
    assert (Hd : ∃ d', self' = Deformation.set_deformation self d'
              ∧ dom d'
                = if bool_decide (Deformation.method self = "all")
                  then list_to_set metric_names
                  else if bool_decide (Deformation.method self ∈ metric_names)
                  then {[ Deformation.method self ]}
                  else (∅ : gset string)).
    { destruct (String.eqb_spec (Deformation.method self) "all") as [E|E0].
      { unfold Deformation.calculate_deformation_all in H.
        repeat match type of H with
               | context [?o ≫= _] =>
                   match o with
                   | context [_ ≫= _] => fail 1
                   | _ => destruct o; simpl in H; [|done]
                   end
               end.
        injection H as <-. eexists. split; [reflexivity|].
        rewrite E. simpl. rewrite !dom_insert_L, dom_empty_L. set_solver. }
      rewrite (bool_decide_eq_false_2 _ E0).
      repeat match type of H with
      | context [String.eqb ?a ?b] =>
          destruct (String.eqb_spec a b) as [E|?];
          [ match type of H with
            | context [?o ≫= _] =>
                match o with
                | context [_ ≫= _] => fail 1
                | _ => destruct o; simpl in H; [|done]
                end
            end;
            injection H as <-; eexists; split; [reflexivity|];
            rewrite E; simpl; rewrite dom_insert_L, dom_empty_L; set_solver
          | ]
      end.
      simpl in H. injection H as <-. eexists. split; [reflexivity|].
      rewrite bool_decide_eq_false_2; [by rewrite dom_empty_L|].
      unfold metric_names. rewrite !not_elem_of_cons. repeat split; try done.
      apply not_elem_of_nil. }
    destruct Hd as (d' & -> & Hdom). repeat split; exact Hdom || reflexivity.
Qed.

End DispatchKeys.

(** A method name the source does not know: nothing is computed, nothing is
    raised. *)
Example unknown_method_empty :
  Deformation.deformation
    <$> Deformation.calculate_deformation false (λ _ _, None) (λ _, None)
          (Deformation.mk chain_neigh chain_neigh "rmsd" (PyNum 0) (PyNum 0)
             (PyNum 0) (<["ldd" := Scores [1%float]]> ∅) [] [])
  = Some ∅.
Proof. reflexivity. Qed.

(** ** Further properties of the ensemble consensus *)

Section ConsensusLemmas.

Lemma madd_rows (n : nat) (a b r : matrix) :
  madd a b = Some r →
  Forall (λ x : vec, length x = n) a → Forall (λ x : vec, length x = n) b →
  Forall (λ x : vec, length x = n) r.
Proof.
  unfold madd. case_decide as H; [|done]. intros [= <-] Ha. revert b H.
  induction Ha as [|x a Hx Ha IH]; intros [|y b] H Hb; simpl; try constructor.
  - apply Forall_cons in Hb as [Hy _]. rewrite length_zip_with. lia.
  - apply Forall_cons in Hb as [_ Hb].
    destruct (decide (length a = length b)) as [Hlen|Hlen].
    + clear IH H. revert b Hb Hlen.
      induction Ha as [|x' a Hx' Ha IH]; intros [|y' b] Hb Hlen; simpl;
        try constructor.
      * apply Forall_cons in Hb as [Hy' _]. rewrite length_zip_with. lia.
      * apply Forall_cons in Hb as [_ Hb]. apply IH; [done|]. simpl in Hlen. lia.
    + simpl in H. lia.
Qed.

Lemma msum_rows (n : nat) (ms : list matrix) :
  ∀ (acc r : matrix), msum acc ms = Some r →
    Forall (λ x : vec, length x = n) acc →
    Forall (Forall (λ x : vec, length x = n)) ms →
    Forall (λ x : vec, length x = n) r.
Proof.
  induction ms as [|m ms IH]; intros acc r H Hacc Hms; simpl in H.
  - by injection H as <-.
  - destruct (madd acc m) as [acc'|] eqn:Hadd; simpl in H; [|done].
    apply Forall_cons in Hms as [Hm Hms].
    eapply IH; eauto. eapply madd_rows; eauto.
Qed.

Lemma mean0_rows (n : nat) (ms : list matrix) (r : matrix) :
  mean0 ms = Some r →
  Forall (Forall (λ x : vec, length x = n)) ms →
  Forall (λ x : vec, length x = n) r.
Proof.
  destruct ms as [|m ms]; [done|]. unfold mean0.
  destruct (msum m ms) as [s|] eqn:Hs; simpl; [|done].
  intros [= <-] Hms. apply Forall_cons in Hms as [Hm Hms].
  apply Forall_fmap. eapply Forall_impl; [eapply msum_rows; eauto|].
  intros x Hx. simpl. by rewrite length_fmap.
Qed.

Lemma cdist_rows (xa xb : matrix) :
  Forall (λ r : vec, length r = length xb) (cdist xa xb).
Proof.
  unfold cdist. apply Forall_fmap, Forall_forall. intros a _. simpl.
  by rewrite length_fmap.
Qed.

Lemma neighbours_experimental_sorted (cut : float) (row : vec) :
  StronglySorted lt (Protein.neighbours_experimental cut row)
  ∧ Forall (λ j, j < length row) (Protein.neighbours_experimental cut row).
Proof.
  unfold Protein.neighbours_experimental.
  destruct (where_sorted ((λ x, (0 <? x) && (x <=? cut) && isfinite x)%float
                            <$> row)) as [Hs Hf].
  split; [exact Hs|]. by rewrite length_fmap in Hf.
Qed.

Lemma get_ldt_idx_length (coord : matrix) (idx : list (list nat))
  (t : list matrix) :
  Protein._get_ldt_idx coord idx = Some t → length t = length coord.
Proof.
  intros H. apply get_ldt_idx_rows in H as [_ H].
  by destruct (mapM_seq_lookup _ _ _ H) as [Hlen _].
Qed.

End ConsensusLemmas.

Section Consensus.

Variable rotate_points : matrix → matrix → option matrix.
Variable cut : float.

(** What [_rotate_all_ldt] collects for residue [j]. *)
Lemma rotate_all_ldt_lookup (ldt : list (list matrix))
  (idx_list : list (list nat)) (out : list (list matrix)) :
  AverageProtein._rotate_all_ldt rotate_points ldt idx_list = Some out →
  ∃ first, ldt !! 0 = Some first ∧ length out = length first
    ∧ ∀ j members, out !! j = Some members →
        ∃ ix sel ref others rotated,
          idx_list !! j = Some ix
          ∧ mapM (λ member : list matrix,
                    row ← member !! j; index_list row ix) ldt = Some sel
          ∧ sel = ref :: others
          ∧ mapM (λ s, rotate_points s ref) others = Some rotated
          ∧ members = ref :: rotated.
Proof.
  unfold AverageProtein._rotate_all_ldt. intros H.
  destruct (ldt !! 0) as [first|]; simpl in H; [|done].
  exists first. split; [done|].
  destruct (mapM_seq_lookup _ _ _ H) as [Hlen _]. split; [done|].
  intros j members Hj.
  destruct (mapM_seq_lookup_inv _ _ _ _ _ H Hj) as [_ Hf].
  destruct (idx_list !! j) as [ix|]; simpl in Hf; [|done].
  destruct (mapM _ ldt) as [[|ref others]|] eqn:Hsel; simpl in Hf; try done.
  destruct (mapM _ others) as [rotated|] eqn:Hrot; simpl in Hf; [|done].
  injection Hf as <-. by exists ix, (ref :: others), ref, others, rotated.
Qed.

(** X11: [_rotate_all_ldt] returns one list per residue of the first member
    and, for residue [j], one array per member: the first is the first
    member's rows [ldt[0][j, idx_list[j]]], never rotated, and the array of
    every later member is [rotate_points] applied to that member's rows and
    this first array. *)
Theorem rotate_all_ldt_reference (ldt : list (list matrix))
  (idx_list : list (list nat)) (out : list (list matrix)) :
  AverageProtein._rotate_all_ldt rotate_points ldt idx_list = Some out →
  ∃ first, ldt !! 0 = Some first ∧ length out = length first
    ∧ ∀ j members, out !! j = Some members →
        ∃ ix ref,
          idx_list !! j = Some ix
          ∧ length members = length ldt
          ∧ (first !! j ≫= λ row, index_list row ix) = Some ref
          ∧ members !! 0 = Some ref
          ∧ ∀ k member, ldt !! S k = Some member →
              ∃ sel, (member !! j ≫= λ row, index_list row ix) = Some sel
                     ∧ members !! S k = rotate_points sel ref.
Proof.
  intros H.
  destruct (rotate_all_ldt_lookup _ _ _ H) as (first & Hfirst & Hlen & Hall).
  exists first. split; [done|]. split; [done|].
  intros j members Hj.
  destruct (Hall j members Hj)
    as (ix & sel & ref & others & rotated & Hix & Hsel & -> & Hrot & ->).
  exists ix, ref. split; [done|].
  pose proof (length_mapM _ _ _ Hsel) as Hl1.
  pose proof (length_mapM _ _ _ Hrot) as Hl2.
  apply mapM_Some in Hsel. apply mapM_Some in Hrot.
  split; [simpl in *; lia|]. split.
  - destruct (Forall2_lookup_l _ _ _ 0 first Hsel Hfirst) as (y & Hy & Hf).
    simpl in Hy. by injection Hy as <-.
  - split; [done|]. intros k member Hk.
    destruct (Forall2_lookup_l _ _ _ (S k) member Hsel Hk) as (sel & Hy & Hf).
    exists sel. split; [done|]. simpl in Hy.
    destruct (Forall2_lookup_l _ _ _ k sel Hrot Hy) as (z & Hz & Hr).
    simpl. by rewrite Hz, Hr.
Qed.

End Consensus.

Lemma rotate_all_ldt_reference_pair :
  ∃ first, pair_ldt !! 0 = Some first
    ∧ length [[[[-1]]; [[-2]]]; [[[1]]; [[2]]]]%float = length first
    ∧ ∀ j members,
        [[[[-1]]; [[-2]]]; [[[1]]; [[2]]]]%float !! j = Some members →
        ∃ ix ref,
          pair_idx !! j = Some ix
          ∧ length members = length pair_ldt
          ∧ (first !! j ≫= λ row, index_list row ix) = Some ref
          ∧ members !! 0 = Some ref
          ∧ ∀ k member, pair_ldt !! S k = Some member →
              ∃ sel, (member !! j ≫= λ row, index_list row ix) = Some sel
                     ∧ members !! S k = keep_points sel ref.
Proof.
  apply (rotate_all_ldt_reference keep_points pair_ldt pair_idx).
  vm_compute. reflexivity.
Defined.

Section ConsensusShape.

Variable rotate_points : matrix → matrix → option matrix.
Variable cut : float.

(** X12: [get_average_local_neighborhood] returns only for an experimental
    ('pdb') ensemble whose members all have the same number [L] of
    residues.  Then the consensus has [L] neighbour lists and [L] tensor
    entries; every list is strictly ascending with indices below [L]; and
    the entry of a residue has one row per listed neighbour when there are
    two or more, and is empty otherwise. *)
Theorem consensus_shape (self self' : AverageProtein.t) :
  AverageProtein.get_average_local_neighborhood rotate_points cut self
  = Some self' →
  AverageProtein.dtype self = PyStr "pdb"
  ∧ AverageProtein.proteins self' = AverageProtein.proteins self
  ∧ ∃ L,
      0 < length (AverageProtein.proteins self)
      ∧ Forall (λ p, length (Protein.coord p) = L)
          (AverageProtein.proteins self)
      ∧ length (AverageProtein.neigh_idx self') = L
      ∧ length (AverageProtein.neigh_tensor self') = L
      ∧ ∀ i ix t,
          AverageProtein.neigh_idx self' !! i = Some ix →
          AverageProtein.neigh_tensor self' !! i = Some t →
          StronglySorted lt ix ∧ Forall (λ j, j < L) ix
          ∧ length t = if decide (1 < length ix) then length ix else 0.
Proof.
  unfold AverageProtein.get_average_local_neighborhood. intros H.
  destruct (AverageProtein.proteins self !! 0) as [p0|] eqn:Hp0;
    simpl in H; [|done].
  destruct (py_in (AverageProtein.dtype self) ["af"; "dmp"]); [done|].
  destruct (py_in (AverageProtein.dtype self) ["pdb"]) eqn:Hpdb; [|done].
  bind_returns H ca_dist Hmean. bind_returns H ldt Hldt.
  bind_returns H ldt_list Hrot. bind_returns H ave Have.
  injection H as <-. simpl.
  split.
  { destruct (AverageProtein.dtype self) as [s| | | |]; simpl in Hpdb;
      try done.
    apply bool_decide_eq_true in Hpdb. apply list_elem_of_singleton in Hpdb.
    by subst. }
  split; [done|].
  set (L := length (Protein.coord p0)).
  set (idx_list := Protein.neighbours_experimental cut <$> ca_dist) in *.
  exists L.
  destruct (AverageProtein.proteins self) as [|p ps] eqn:Hps; [done|].
  injection Hp0 as ->.
  assert (Hmean' : mean0 (cdist (Protein.coord p0) (Protein.coord p0)
                          :: ((λ x, cdist x x) <$> (Protein.coord <$> ps)))
                   = Some ca_dist) by exact Hmean.
  pose proof (mean0_length _ _ _ Hmean') as [Hca Hall].
  rewrite cdist_length in Hca. rewrite cdist_length in Hall.
  assert (Hcoords : Forall (λ p, length (Protein.coord p) = L) (p0 :: ps)).
  { constructor; [done|]. rewrite !Forall_fmap in Hall.
    eapply Forall_impl; [exact Hall|]. intros p Hp. simpl in Hp.
    by rewrite cdist_length in Hp. }
  assert (Hrows : Forall (λ r : vec, length r = L) ca_dist).
  { apply (mean0_rows L _ _ Hmean).
    rewrite !Forall_fmap. eapply Forall_impl; [exact Hcoords|].
    intros p Hp. simpl. rewrite <- Hp. apply cdist_rows. }
  assert (Hidx : length idx_list = L)
    by (unfold idx_list; by rewrite length_fmap).
  destruct (rotate_all_ldt_lookup _ _ _ _ Hrot)
    as (first & Hfirst & Hlen & Hmembers).
  assert (Hfl : length first = L).
  { apply mapM_Some in Hldt.
    destruct (Forall2_lookup_r _ _ _ 0 first Hldt Hfirst) as (c & Hc & Hg).
    simpl in Hc. injection Hc as <-.
    by apply get_ldt_idx_length in Hg. }
  unfold AverageProtein._average_all_ldt in Have.
  destruct (mapM_seq_lookup _ _ _ Have) as [Hal Hentries].
  split; [simpl; lia|]. split; [done|]. split; [done|]. split; [lia|].
  intros i ix t Hix Ht.
  unfold idx_list in Hix. rewrite list_lookup_fmap in Hix.
  destruct (ca_dist !! i) as [row|] eqn:Hrow; simpl in Hix; [|done].
  injection Hix as <-.
  destruct (neighbours_experimental_sorted cut row) as [Hs Hf].
  rewrite Forall_forall in Hrows.
  rewrite (Hrows row) in Hf by (eapply list_elem_of_lookup_2; eauto).
  split; [done|]. split; [done|].
  destruct (mapM_seq_lookup_inv _ _ _ _ _ Have Ht) as [Hi He].
  unfold AverageProtein.average_entry in He.
  fold idx_list in He.
  assert (Hix : idx_list !! i
                = Some (Protein.neighbours_experimental cut row)).
  { unfold idx_list. by rewrite list_lookup_fmap, Hrow. }
  rewrite Hix in He. simpl in He.
  case_decide as Hk; [|by injection He as <-].
  destruct (ldt_list !! i) as [members|] eqn:Hm; simpl in He; [|done].
  destruct (Hmembers i members Hm)
    as (ix & sel & ref & others & rotated & Hix' & Hsel & -> & _ & ->).
  assert (ix = Protein.neighbours_experimental cut row) as -> by congruence.
  apply mean0_length in He as [-> _].
  apply mapM_Some in Hsel.
  destruct (Forall2_lookup_r _ _ _ 0 ref Hsel eq_refl) as (mem & _ & Hr).
  destruct (mem !! i) as [r|]; simpl in Hr; [|done].
  by apply index_list_length in Hr.
Qed.

End ConsensusShape.

Lemma chain_consensus_derived :
  AverageProtein.get_average_local_neighborhood keep_points 1.5%float
    chain_ensemble
  = Some chain_consensus.
Proof. vm_compute. reflexivity. Qed.

(** The consensus of the two copies: the end residues have one neighbour
    and an empty entry, the inner ones two neighbours and two rows. *)
Example chain_consensus_entries :
  AverageProtein.neigh_idx chain_consensus = [[1]; [0; 2]; [1; 3]; [2; 4]; [3]]
  ∧ length <$> AverageProtein.neigh_tensor chain_consensus = [0; 2; 2; 2; 0].
Proof. split; vm_compute; reflexivity. Qed.

Lemma consensus_shape_chain :
  AverageProtein.dtype chain_ensemble = PyStr "pdb"
  ∧ AverageProtein.proteins chain_consensus
    = AverageProtein.proteins chain_ensemble
  ∧ ∃ L,
      0 < length (AverageProtein.proteins chain_ensemble)
      ∧ Forall (λ p, length (Protein.coord p) = L)
          (AverageProtein.proteins chain_ensemble)
      ∧ length (AverageProtein.neigh_idx chain_consensus) = L
      ∧ length (AverageProtein.neigh_tensor chain_consensus) = L
      ∧ ∀ i ix t,
          AverageProtein.neigh_idx chain_consensus !! i = Some ix →
          AverageProtein.neigh_tensor chain_consensus !! i = Some t →
          StronglySorted lt ix ∧ Forall (λ j, j < L) ix
          ∧ length t = if decide (1 < length ix) then length ix else 0.
Proof.
  exact (consensus_shape keep_points 1.5%float chain_ensemble chain_consensus
           chain_consensus_derived).
Defined.



Section ConsensusSelf.

Variable rotate_points : matrix → matrix → option matrix.
Variable cut : float.

Lemma zero_or_nan_add (x y : float) :
  zero_or_nan x → zero_or_nan y → zero_or_nan (x + y)%float.
Proof.
  intros [-> | ->] [-> | ->]; vm_compute; auto.
Qed.

Lemma madd_lookup (a b r : matrix) (i j : nat) (z : float) :
  madd a b = Some r → r !! i ≫= (.!! j) = Some z →
  ∃ x y, a !! i ≫= (.!! j) = Some x ∧ b !! i ≫= (.!! j) = Some y
         ∧ z = (x + y)%float.
Proof.
  unfold madd. case_decide; [|done]. intros [= <-] Hz.
  destruct (zip_with _ a b !! i) as [row|] eqn:Hrow; simpl in Hz; [|done].
  apply lookup_zip_with_Some in Hrow as (ra & rb & -> & Ha & Hb).
  apply lookup_zip_with_Some in Hz as (x & y & -> & Hx & Hy).
  exists x, y. rewrite Ha, Hb. simpl. auto.
Qed.

Lemma msum_diag (i : nat) (ms : list matrix) :
  ∀ (acc r : matrix) (z : float),
    msum acc ms = Some r →
    (∀ x, acc !! i ≫= (.!! i) = Some x → zero_or_nan x) →
    Forall (λ m : matrix, ∀ x, m !! i ≫= (.!! i) = Some x → zero_or_nan x) ms →
    r !! i ≫= (.!! i) = Some z → zero_or_nan z.
Proof.
  induction ms as [|m ms IH]; intros acc r z H Hacc Hms Hz; simpl in H.
  - injection H as <-. auto.
  - destruct (madd acc m) as [acc'|] eqn:Hadd; simpl in H; [|done].
    apply Forall_cons in Hms as [Hm Hms].
    eapply (IH acc' r z); eauto.
    intros x Hx.
    destruct (madd_lookup _ _ _ _ _ _ Hadd Hx) as (u & v & Hu & Hv & ->).
    apply zero_or_nan_add; auto.
Qed.

Lemma cdist_diag_cases (xyz : matrix) (i : nat) (x : float) :
  cdist xyz xyz !! i ≫= (.!! i) = Some x → zero_or_nan x.
Proof.
  intros H. apply cdist_lookup in H as (a & b & Ha & Hb & ->).
  rewrite Ha in Hb. injection Hb as <-. unfold norm, zero_or_nan.
  destruct (sumsq_self_cases a) as [-> | ->]; vm_compute; auto.
Qed.

Lemma mean0_cdist_diag_not_pos (coords : list matrix) (ca : matrix)
  (i : nat) (d : float) :
  mean0 ((λ x, cdist x x) <$> coords) = Some ca →
  ca !! i ≫= (.!! i) = Some d → (0 <? d)%float = false.
Proof.
  destruct coords as [|c cs]; [done|]. rewrite fmap_cons. unfold mean0.
  destruct (msum _ _) as [s|] eqn:Hs; simpl; [|done].
  intros [= <-] Hd.
  rewrite list_lookup_fmap in Hd.
  destruct (s !! i) as [row|] eqn:Hrow; simpl in Hd; [|done].
  rewrite list_lookup_fmap in Hd.
  destruct (row !! i) as [z|] eqn:Hz; simpl in Hd; [|done].
  injection Hd as <-.
  assert (Hcase : zero_or_nan z).
  { eapply (msum_diag i _ _ s z Hs).
    - apply cdist_diag_cases.
    - apply Forall_fmap, Forall_forall. intros x _ y Hy. simpl in Hy.
      by apply cdist_diag_cases in Hy.
    - by rewrite Hrow. }
  destruct Hcase as [-> | ->].
  - apply IEEE.zero_div_not_pos.
  - by rewrite IEEE.div_nan_l.
Qed.

(** X13: the consensus never lists a residue as its own neighbour: the
    averaged distance of a residue to itself is a zero or NaN. *)
Theorem consensus_never_self (self self' : AverageProtein.t) (i : nat)
  (ix : list nat) :
  AverageProtein.get_average_local_neighborhood rotate_points cut self
  = Some self' →
  AverageProtein.neigh_idx self' !! i = Some ix → i ∉ ix.
Proof.
  unfold AverageProtein.get_average_local_neighborhood. intros H Hix Hin.
  destruct (AverageProtein.proteins self !! 0) as [p0|] eqn:Hp0;
    simpl in H; [|done].
  destruct (py_in (AverageProtein.dtype self) ["af"; "dmp"]); [done|].
  destruct (py_in (AverageProtein.dtype self) ["pdb"]) eqn:Hpdb; [|done].
  bind_returns H ca_dist Hmean. bind_returns H ldt Hldt.
  bind_returns H ldt_list Hrot. bind_returns H ave Have.
  injection H as <-. simpl in Hix.
  rewrite list_lookup_fmap in Hix.
  destruct (ca_dist !! i) as [row|] eqn:Hrow; simpl in Hix; [|done].
  injection Hix as <-.
  apply neighbours_experimental_spec in Hin as (d & Hd & _ & Hpos & _).
  rewrite (mean0_cdist_diag_not_pos _ _ i d Hmean) in Hpos; [done|].
  by rewrite Hrow.
Qed.

End ConsensusSelf.

Lemma consensus_never_self_chain : bool_decide (2 ∈ [1; 3]) = false.
Proof.
  apply bool_decide_eq_false_2.
  apply (consensus_never_self keep_points 1.5%float chain_ensemble
           chain_consensus 2 [1; 3] chain_consensus_derived).
  vm_compute. reflexivity.
Defined.

Section SuperpositionSizes.

Variable svd : matrix → option (matrix * vec * matrix).
Variable det : matrix → float.

Lemma matmul_Some (cols : nat) (a b r : matrix) :
  matmul cols a b = Some r →
  Forall (λ row : vec, length row = length b) a
  ∧ length r = length a ∧ Forall (λ row : vec, length row = cols) r.
Proof.
  unfold matmul. destruct (forallb _ a) eqn:Hall; [|done]. intros [= <-].
  split; [|split].
  - apply Forall_forall. intros row Hrow.
    rewrite forallb_forall in Hall. apply Nat.eqb_eq, Hall.
    by apply list_elem_of_In.
  - by rewrite length_fmap.
  - apply Forall_fmap, Forall_forall. intros row _. simpl.
    by rewrite length_fmap, length_seq.
Qed.

Lemma transpose_shape (n : nat) (m : matrix) :
  length (transpose n m) = n
  ∧ Forall (λ row : vec, length row = length m) (transpose n m).
Proof.
  unfold transpose. split; [by rewrite length_fmap, length_seq|].
  apply Forall_fmap, Forall_forall. intros k _. simpl. unfold column.
  by rewrite length_fmap.
Qed.

(** X14: [_rotate_points(P, Q)] returns only when [Q] has as many points
    as [P] and every point of [P] has three coordinates, whatever the
    factorisation routine answers; the result has one point of three
    coordinates per point of [P]. *)
Theorem rotate_points_sizes (P Q Pnew : matrix) :
  AverageProtein._rotate_points svd det P Q = Some Pnew →
  length Q = length P
  ∧ length Pnew = length P
  ∧ Forall (λ p : vec, length p = 3) P
  ∧ Forall (λ p : vec, length p = 3) Pnew.
Proof.
  unfold AverageProtein._rotate_points. intros H.
  bind_returns H Hm HH. bind_returns H usv Husv.
  bind_returns H VUt HVUt. bind_returns H VE HVE. bind_returns H R HR.
  apply matmul_Some in HH as (HPt & _ & _).
  apply matmul_Some in HVE as (_ & HVEl & _).
  apply matmul_Some in HR as (_ & HRl & HRrows).
  destruct (transpose_shape 3 P) as [HtP HtProws].
  destruct (transpose_shape 3 usv.2) as [HV _].
  assert (HRne : length R = 3) by congruence.
  split.
  - destruct (transpose 3 P) as [|r0 tp] eqn:E; [done|].
    apply Forall_cons in HPt as [H0 _].
    apply Forall_cons in HtProws as [H1 _]. congruence.
  - pose proof (length_mapM _ _ _ H) as Hlen. split; [lia|].
    apply mapM_Some in H.
    destruct R as [|r0 R']; [done|].
    apply Forall_cons in HRrows as [Hr0 _].
    assert (Hp : ∀ p q, matvec (r0 :: R') p = Some q →
                        length p = 3 ∧ length q = 3).
    { intros p q Hq. unfold matvec in Hq.
      destruct (forallb _ _) eqn:Hall; [|done]. injection Hq as <-.
      simpl in Hall. apply andb_true_iff in Hall as [Hall _].
      apply Nat.eqb_eq in Hall. split; [congruence|].
      rewrite <- HRne. simpl. f_equal. apply length_fmap. }
    split.
    + apply Forall_forall. intros p Hin.
      apply list_elem_of_lookup_1 in Hin as [k Hk].
      destruct (Forall2_lookup_l _ _ _ k p H Hk) as (q & _ & Hq).
      by apply Hp in Hq as [? _].
    + apply Forall_forall. intros q Hin.
      apply list_elem_of_lookup_1 in Hin as [k Hk].
      destruct (Forall2_lookup_r _ _ _ k q H Hk) as (p & _ & Hq).
      by apply Hp in Hq as [_ ?].
Qed.

End SuperpositionSizes.

Lemma rotate_points_sizes_unit :
  length rot_z = length eye3
  ∧ length (default [] (AverageProtein._rotate_points svd_unit det3 eye3
                          rot_z))
    = length eye3
  ∧ Forall (λ p : vec, length p = 3) eye3
  ∧ Forall (λ p : vec, length p = 3)
      (default [] (AverageProtein._rotate_points svd_unit det3 eye3 rot_z)).
Proof.
  apply (rotate_points_sizes svd_unit det3 eye3 rot_z).
  vm_compute. reflexivity.
Defined.

(** ** Properties of the file reader *)

Lemma filter_selected (chain : string) (ch : PDB.chain)
  (chains : list PDB.chain) :
  selected_residues chain (ch :: chains)
  = (if String.eqb (PDB.chain_id ch) chain || String.eqb chain ""
     then PDB.residues ch else [])
    ++ selected_residues chain chains.
Proof.
  unfold selected_residues. rewrite filter_cons.
  destruct (String.eqb_spec (PDB.chain_id ch) chain) as [E1|E1];
    destruct (String.eqb_spec chain "") as [E2|E2]; simpl;
    first [ rewrite decide_True by tauto | rewrite decide_False by tauto ];
    done.
Qed.

Lemma arrays_app_empty_r (a : PdbData.t) : arrays_app a PdbData.empty = a.
Proof. destruct a. unfold arrays_app. simpl. by rewrite !app_nil_r. Qed.

Lemma arrays_app_assoc (a b c : PdbData.t) :
  arrays_app (arrays_app a b) c = arrays_app a (arrays_app b c).
Proof. unfold arrays_app. simpl. by rewrite !app_assoc. Qed.

Lemma positions_only_app (k1 k2 : list (PDB.residue * PDB.atom)) :
  positions_only (k1 ++ k2)
  = arrays_app (positions_only k1) (positions_only k2).
Proof. unfold positions_only, arrays_app. simpl. by rewrite !fmap_app. Qed.

Lemma positions_app (all_atom : bool) (r1 r2 : list PDB.residue) :
  positions all_atom (r1 ++ r2)
  = positions all_atom r1 ++ positions all_atom r2.
Proof. unfold positions. apply omap_app. Qed.

Lemma positions_length (all_atom : bool) (rs : list PDB.residue) :
  length (positions all_atom rs) ≤ length rs.
Proof.
  induction rs as [|r rs IH]; [done|].
  change (r :: rs) with ([r] ++ rs). rewrite positions_app, !length_app.
  unfold positions at 1. simpl.
  destruct (position_atom all_atom r); simpl; lia.
Qed.

Lemma parse_3letter_raises (x : string) : Reader.parse_3letter x = None.
Proof. reflexivity. Qed.

Section ReaderLoop.

(** The loop of the reader when the name [parse_3letter] cannot be
    evaluated. *)
Variable get_structure : string → option (list (list PDB.chain)).
Variable parse : string → option Ascii.ascii.
Hypothesis parse_raises : ∀ x, parse x = None.

Lemma read_residue_position (all_atom : bool) (st : PdbData.t)
  (r : PDB.residue) :
  Reader.read_residue parse all_atom st r
  = arrays_app st (positions_only (positions all_atom [r])).
Proof using parse_raises.
  unfold Reader.read_residue, positions, position_atom. simpl.
  destruct (String.eqb_spec (Str.strip (PDB.hetero r)) "") as [E|E]; simpl.
  - rewrite decide_True by done. destruct all_atom.
    + destruct (PDB.atoms r) as [|a rest]; simpl;
        [by rewrite arrays_app_empty_r|].
      rewrite parse_raises.
      unfold PdbData.push_position, arrays_app, positions_only. simpl.
      by rewrite !app_nil_r.
    + destruct (PDB.child r "CA") as [ca|]; simpl;
        [|by rewrite arrays_app_empty_r].
      rewrite parse_raises.
      unfold PdbData.push_position, arrays_app, positions_only. simpl.
      by rewrite !app_nil_r.
  - rewrite decide_False by done. simpl. by rewrite arrays_app_empty_r.
Qed.

Lemma read_residues_positions (all_atom : bool) (rs : list PDB.residue) :
  ∀ st, foldl (Reader.read_residue parse all_atom) st rs
        = arrays_app st (positions_only (positions all_atom rs)).
Proof using parse_raises.
  induction rs as [|r rs IH]; intros st; cbn [foldl].
  - by rewrite arrays_app_empty_r.
  - rewrite IH, read_residue_position.
    change (r :: rs) with ([r] ++ rs).
    by rewrite positions_app, positions_only_app, arrays_app_assoc.
Qed.

Lemma read_chains_positions (chain : string) (all_atom : bool)
  (chains : list PDB.chain) :
  ∀ st, foldl (Reader.read_chain parse chain all_atom) st chains
        = arrays_app st
            (positions_only
               (positions all_atom (selected_residues chain chains))).
Proof using parse_raises.
  induction chains as [|ch chains IH]; intros st; cbn [foldl].
  - by rewrite arrays_app_empty_r.
  - rewrite filter_selected.
    rewrite positions_app, positions_only_app, <- arrays_app_assoc.
    rewrite IH. f_equal. unfold Reader.read_chain.
    destruct (String.eqb (PDB.chain_id ch) chain || String.eqb chain "").
    + apply read_residues_positions.
    + by rewrite arrays_app_empty_r.
Qed.

Lemma read_structure_positions (path chain : string) (model : nat)
  (all_atom : bool) (models : list (list PDB.chain))
  (chains : list PDB.chain) :
  get_structure path = Some models → models !! model = Some chains →
  Reader.read_structure get_structure parse path chain model all_atom
  = Some (positions_only
            (positions all_atom (selected_residues chain chains))).
Proof using parse_raises.
  intros Hm Hc. unfold Reader.read_structure.
  rewrite Hm. simpl. rewrite Hc. simpl.
  rewrite read_chains_positions. by destruct (positions_only _).
Qed.

End ReaderLoop.

Section ReaderProperties.

Variable get_structure : string → option (list (list PDB.chain)).

(** X15: when the file parses and has the model asked for, both readers
    ([_read_alpha_carbon] of main.py, [parse_pdb_coordinates] of
    pdb_parser.py) return, in either mode, and return no sequence and no
    B-factor: the call of [parse_3letter] raises [NameError] for every
    residue, after the coordinate and the index were appended, and the
    [except] branch goes on to the next residue.  [xyz] and [idx] have one
    length, at most the number of residues of the chains read, also with
    [all_atom]. *)
Theorem reader_returns_positions_only (path chain : string) (model : nat)
  (all_atom : bool) (models : list (list PDB.chain))
  (chains : list PDB.chain) :
  get_structure path = Some models → models !! model = Some chains →
  ∃ d, Reader._read_alpha_carbon get_structure path chain model all_atom
       = Some d
       ∧ Reader.parse_pdb_coordinates get_structure path chain model all_atom
         = Some d
       ∧ PdbData.seq d = []
       ∧ PdbData.bfac d = []
       ∧ length (PdbData.xyz d) = length (PdbData.idx d)
       ∧ length (PdbData.xyz d) ≤ length (selected_residues chain chains).
Proof.
  intros Hm Hc.
  exists (positions_only (positions all_atom (selected_residues chain chains))).
  split; [by apply (read_structure_positions _ Reader.parse_3letter_unbound
                      (λ _, eq_refl) _ _ _ _ models chains)|].
  split; [by apply (read_structure_positions _ _ parse_3letter_raises
                      _ _ _ _ models chains)|].
  split; [done|]. split; [done|]. simpl. rewrite !length_fmap.
  split; [done | apply positions_length].
Qed.

(** X16: the positions the readers return, in file order, over the
    residues of the selected chains (the chain asked for, or all chains for
    chain='') that are no HETATM entries.  Without [all_atom]: one entry for
    every such residue with a 'CA' atom, holding the coordinates of that
    atom and the residue's sequence number.  With [all_atom]: one entry for
    every such residue with an atom at all, holding the coordinates of its
    first atom only, the [NameError] leaving the loop over the atoms.
    [seq] and [bfac] are empty. *)
Theorem read_alpha_carbon_spec (path chain : string) (model : nat)
  (all_atom : bool) (models : list (list PDB.chain))
  (chains : list PDB.chain) :
  get_structure path = Some models → models !! model = Some chains →
  Reader._read_alpha_carbon get_structure path chain model all_atom
  = Some (positions_only
            (positions all_atom (selected_residues chain chains)))
  ∧ Reader.parse_pdb_coordinates get_structure path chain model all_atom
    = Some (positions_only
              (positions all_atom (selected_residues chain chains))).
Proof.
  intros Hm Hc. split.
  - by apply (read_structure_positions _ Reader.parse_3letter_unbound
                (λ _, eq_refl) _ _ _ _ models chains).
  - by apply (read_structure_positions _ _ parse_3letter_raises
                _ _ _ _ models chains).
Qed.

End ReaderProperties.

Lemma reader_returns_positions_only_small :
  ∃ d, Reader._read_alpha_carbon small_reader "small.pdb" "A" 0 true = Some d
       ∧ Reader.parse_pdb_coordinates small_reader "small.pdb" "A" 0 true
         = Some d
       ∧ PdbData.seq d = []
       ∧ PdbData.bfac d = []
       ∧ length (PdbData.xyz d) = length (PdbData.idx d)
       ∧ length (PdbData.xyz d) ≤ length (selected_residues "A" small_chains).
Proof.
  apply (reader_returns_positions_only small_reader "small.pdb" "A" 0 true
           small_file small_chains); reflexivity.
Defined.

Lemma read_alpha_carbon_spec_small :
  Reader._read_alpha_carbon small_reader "small.pdb" "" 0 false
  = Some (positions_only
            (positions false (selected_residues "" small_chains)))
  ∧ Reader.parse_pdb_coordinates small_reader "small.pdb" "" 0 false
    = Some (positions_only
              (positions false (selected_residues "" small_chains))).
Proof.
  apply (read_alpha_carbon_spec small_reader "small.pdb" "" 0 false
           small_file small_chains); reflexivity.
Defined.

(** The small file: the alpha carbons of the alanine, of the second glycine
    and of the residue of chain B; with [all_atom], the first atom of every
    residue of chain A but the water. *)
Example small_file_read :
  Reader.parse_pdb_coordinates small_reader "small.pdb" "" 0 false
  = Some (PdbData.mk [[2; 0; 0]; [6; 0; 0]; [9; 0; 0]]%float [1; 4; 1]%Z
            [] [])
  ∧ Reader.parse_pdb_coordinates small_reader "small.pdb" "A" 0 true
    = Some (PdbData.mk [[1; 0; 0]; [4; 0; 0]; [6; 0; 0]]%float [1; 3; 4]%Z
              [] []).
Proof. split; vm_compute; reflexivity. Qed.

Section Loading.

Variable get_structure : string → option (list (list PDB.chain)).

(** X17: [load_data_from_path] raises on a structure without confidence
    values ([np.min] of an empty [plddt]), whatever the file holds; a fresh
    [Protein()] is such a structure, so [Deformation.__init__] raises
    whenever one of its two arguments is a path. *)
Theorem deformation_from_path_raises :
  (∀ self path, Protein.plddt self = [] →
     Reader.load_data_from_path get_structure self path = None)
  ∧ (∀ path, Reader.load_fresh get_structure path = None)
  ∧ (∀ (A B : Type) (from1 : Protein.t → A) (from2 : Protein.t → B)
       (path : string) (a : Deformation.arg A) (b : Deformation.arg B)
       (method : string) (kwargs : gmap string pyval),
       Deformation.__init__ (Reader.load_fresh get_structure)
         from1 from2 (Deformation.Path path) b method kwargs = None
       ∧ Deformation.__init__ (Reader.load_fresh get_structure)
           from1 from2 a (Deformation.Path path) method kwargs = None).
Proof.
  assert (H1 : ∀ self path, Protein.plddt self = [] →
            Reader.load_data_from_path get_structure self path = None).
  { intros self path Hp. unfold Reader.load_data_from_path.
    destruct (Reader._read_alpha_carbon _ _ _ _ _) as [d|]; simpl; [|done].
    destruct (NpReduce.max _) as [m|]; simpl; [|done].
    by rewrite Hp. }
  assert (H2 : ∀ path, Reader.load_fresh get_structure path = None).
  { intros path. unfold Reader.load_fresh.
    change (Protein.__init__ ∅)
      with (Some (Protein.mk (PyStr "") (PyStr "") (PyStr "") [] (PyNum 0)
                    (PyNum 0) [] [] [] "" [] [] (PyNum 0))).
    simpl. by apply H1. }
  split; [exact H1|]. split; [exact H2|].
  intros A B from1 from2 path a b method kwargs.
  unfold Deformation.__init__. simpl. rewrite H2. simpl. split; [done|].
  by destruct (Deformation.load _ _ a).
Qed.

(** The reader returning no B-factor, [np.max] of the empty array raises
    before [plddt] is looked at: loading raises for every structure. *)
Lemma load_data_from_path_raises (self : Protein.t) (path : string) :
  Reader.load_data_from_path get_structure self path = None.
Proof.
  unfold Reader.load_data_from_path.
  destruct (get_structure path) as [models|] eqn:Hm.
  - destruct (models !! 0) as [chains|] eqn:Hc.
    + unfold Reader._read_alpha_carbon.
      rewrite (read_structure_positions get_structure
                 Reader.parse_3letter_unbound (λ _, eq_refl)
                 path "" 0 false models chains Hm Hc).
      reflexivity.
    + unfold Reader._read_alpha_carbon, Reader.read_structure.
      rewrite Hm. simpl. by rewrite Hc.
  - unfold Reader._read_alpha_carbon, Reader.read_structure. by rewrite Hm.
Qed.

End Loading.

(** ** Properties of the distance from a mutation *)

Section MutationProperties.

Lemma list_ascii_lookup (s : string) (j : nat) :
  String.list_ascii_of_string s !! j = String.get j s.
Proof.
  revert j. induction s as [|c s IH]; intros [|j]; simpl; try done.
Qed.

Lemma list_ascii_length (s : string) :
  length (String.list_ascii_of_string s) = String.length s.
Proof. induction s as [|c s IH]; simpl; [done|]. by rewrite IH. Qed.

Lemma list_ascii_inj (s1 s2 : string) :
  String.list_ascii_of_string s1 = String.list_ascii_of_string s2 → s1 = s2.
Proof.
  intros H. rewrite <- (String.string_of_list_ascii_of_string s1),
    <- (String.string_of_list_ascii_of_string s2). by rewrite H.
Qed.

(** X18: for two sequences of one length, [compare_sequences] returns the
    positions where they differ, in ascending order; it returns no position
    exactly when the sequences are equal. *)
Theorem compare_sequences_spec (s1 s2 : string) :
  String.length s1 = String.length s2 →
  ∃ pos, Mutation.compare_sequences s1 s2 = Some pos
    ∧ StronglySorted lt pos
    ∧ (∀ j, j ∈ pos ↔ ∃ a b, String.get j s1 = Some a
                             ∧ String.get j s2 = Some b ∧ a ≠ b)
    ∧ (pos = [] ↔ s1 = s2).
Proof.
  intros Hlen. unfold Mutation.compare_sequences, broadcast2.
  rewrite decide_True by (by rewrite !list_ascii_length).
  simpl. eexists. split; [reflexivity|].
  split; [apply where_sorted|].
  assert (Hspec : ∀ j,
            j ∈ where_ (zip_with (λ a b, negb (Ascii.eqb a b))
                          (String.list_ascii_of_string s1)
                          (String.list_ascii_of_string s2))
            ↔ ∃ a b, String.get j s1 = Some a ∧ String.get j s2 = Some b
                     ∧ a ≠ b).
  { intros j. rewrite where_spec, lookup_zip_with, !list_ascii_lookup.
    destruct (String.get j s1) as [a|]; simpl.
    - destruct (String.get j s2) as [b|]; simpl.
      + destruct (Ascii.eqb_spec a b) as [E|E]; simpl.
        * split; [done|]. intros (? & ? & [= <-] & [= <-] & ?). done.
        * split; [|done]. intros _. eauto.
      + split; [done|]. intros (? & ? & _ & ? & _). done.
    - split; [done|]. intros (? & ? & ? & _). done. }
  split; [exact Hspec|].
  split.
  - intros Hnil. apply list_ascii_inj. apply list_eq. intros j.
    rewrite !list_ascii_lookup.
    destruct (String.get j s1) as [a|] eqn:Ha,
             (String.get j s2) as [b|] eqn:Hb; try done.
    + destruct (decide (a = b)) as [->|Hne]; [done|].
      assert (Hin : j ∈ where_ (zip_with (λ a b, negb (Ascii.eqb a b))
                          (String.list_ascii_of_string s1)
                          (String.list_ascii_of_string s2)))
        by (apply Hspec; eauto).
      rewrite Hnil in Hin. by apply not_elem_of_nil in Hin.
    + rewrite <- list_ascii_lookup in Ha, Hb.
      apply lookup_lt_Some in Ha. apply lookup_ge_None in Hb.
      rewrite !list_ascii_length in *. lia.
    + rewrite <- list_ascii_lookup in Ha, Hb.
      apply lookup_lt_Some in Hb. apply lookup_ge_None in Ha.
      rewrite !list_ascii_length in *. lia.
  - intros ->. apply elem_of_nil_inv. intros j Hj.
    apply Hspec in Hj as (a & b & Ha & Hb & Hne). congruence.
Qed.

Lemma compare_sequences_same (s : string) :
  Mutation.compare_sequences s s = Some [].
Proof.
  unfold Mutation.compare_sequences, broadcast2.
  rewrite decide_True by done. simpl. f_equal.
  apply elem_of_nil_inv. intros j Hj.
  rewrite where_spec, lookup_zip_with in Hj.
  destruct (String.list_ascii_of_string s !! j) as [a|]; simpl in Hj; [|done].
  by rewrite Ascii.eqb_refl in Hj.
Qed.

(** X19: comparing a sequence with itself finds no substitution, and
    [calc_dist_from_mutation] then answers one NaN per residue of the first
    structure, whatever the two structures hold. *)
Theorem identical_sequences_all_nan (s : string) (c1 c2 : matrix) :
  Mutation.compare_sequences s s ≫= Mutation.calc_dist_from_mutation c1 c2
  = Some (replicate (length c1) nan).
Proof.
  rewrite compare_sequences_same. simpl.
  unfold Mutation.calc_dist_from_mutation. simpl. f_equal.
  unfold zeros. by rewrite fmap_replicate.
Qed.

Lemma madd_self (m : matrix) :
  madd m m = Some (zip_with (zip_with PrimFloat.add) m m).
Proof. unfold madd. by rewrite decide_True. Qed.

Lemma index_list_is_Some {X} (a : list X) (ix : list nat) :
  is_Some (index_list a ix) ↔ Forall (λ j, j < length a) ix.
Proof.
  unfold index_list. rewrite mapM_is_Some.
  apply Forall_iff. intros j. apply lookup_lt_is_Some.
Qed.

(** X20: [calc_dist_from_mutation] computes the distances of the second
    structure and drops them (the average is taken of [dc1] with itself):
    with substituted positions that exist in the second structure, the
    result is the one computed from the first structure alone; it returns
    exactly when the positions exist in the first structure too, with one
    value per residue of the first structure. *)
Theorem second_structure_ignored (c1 c2 : matrix) (sub_pos : list nat) :
  Forall (λ j, j < length c2) sub_pos →
  Mutation.calc_dist_from_mutation c1 c2 sub_pos
  = Mutation.calc_dist_from_mutation c1 c1 sub_pos
  ∧ (is_Some (Mutation.calc_dist_from_mutation c1 c2 sub_pos)
     ↔ Forall (λ j, j < length c1) sub_pos)
  ∧ (∀ r, Mutation.calc_dist_from_mutation c1 c2 sub_pos = Some r →
          length r = length c1).
Proof.
  intros Hc2. unfold Mutation.calc_dist_from_mutation.
  destruct (decide (length sub_pos = 0)) as [H0|H0].
  { split; [done|]. split.
    - split; [|by eauto]. intros _. apply length_zero_iff_nil in H0.
      subst. constructor.
    - intros r [= <-]. unfold zeros.
      by rewrite length_fmap, length_replicate. }
  destruct (index_list c2 sub_pos) as [m2|] eqn:Hm2;
    [|by apply index_list_is_Some in Hc2 as [? ?]; congruence].
  simpl.
  destruct (index_list c1 sub_pos) as [m1|] eqn:Hm1; simpl.
  - split; [done|]. rewrite madd_self. simpl.
    assert (Hrows : Forall (λ row : vec, row ≠ [])
              (mscale 0.5 (zip_with (zip_with PrimFloat.add)
                             (cdist c1 m1) (cdist c1 m1)))).
    { unfold mscale. apply Forall_fmap, Forall_forall. intros row Hrow. simpl.
      apply list_elem_of_lookup_1 in Hrow as [k Hk].
      apply lookup_zip_with_Some in Hk as (ra & rb & -> & Ha & Hb).
      apply cdist_row_length in Ha, Hb.
      apply index_list_length in Hm1.
      intros Hnil. apply (f_equal length) in Hnil.
      rewrite length_fmap, length_zip_with in Hnil. simpl in Hnil. lia. }
    assert (Hsome : is_Some (mapM NpReduce.nanmin
              (mscale 0.5 (zip_with (zip_with PrimFloat.add)
                             (cdist c1 m1) (cdist c1 m1))))).
    { apply mapM_is_Some. eapply Forall_impl; [exact Hrows|].
      intros [|x row] Hne; [done|]. simpl. eauto. }
    split.
    + split; [|done]. intros _. apply index_list_is_Some. eauto.
    + intros r Hr. apply length_mapM in Hr. rewrite <- Hr. unfold mscale.
      by rewrite length_fmap, length_zip_with, cdist_length, Nat.min_id.
  - split; [done|]. split; [|done]. split; [by intros [? ?]|].
    intros Hf. apply index_list_is_Some in Hf as [? ?]. congruence.
Qed.

End MutationProperties.

Lemma compare_sequences_spec_mutant :
  ∃ pos, Mutation.compare_sequences wild_type mutant = Some pos
    ∧ StronglySorted lt pos
    ∧ (∀ j, j ∈ pos ↔ ∃ a b, String.get j wild_type = Some a
                             ∧ String.get j mutant = Some b ∧ a ≠ b)
    ∧ (pos = [] ↔ wild_type = mutant).
Proof. apply (compare_sequences_spec wild_type mutant). reflexivity. Defined.

Example mutant_positions :
  Mutation.compare_sequences wild_type mutant = Some [1; 3].
Proof. reflexivity. Qed.

Lemma second_structure_ignored_chain :
  Mutation.calc_dist_from_mutation chain_coord (take 3 chain_coord) [1]
  = Mutation.calc_dist_from_mutation chain_coord chain_coord [1]
  ∧ (is_Some (Mutation.calc_dist_from_mutation chain_coord
                (take 3 chain_coord) [1])
     ↔ Forall (λ j, j < length chain_coord) [1])
  ∧ (∀ r, Mutation.calc_dist_from_mutation chain_coord (take 3 chain_coord)
            [1] = Some r →
          length r = length chain_coord).
Proof.
  apply (second_structure_ignored chain_coord (take 3 chain_coord) [1]).
  repeat constructor.
Defined.

(** The distance of every residue of the chain to a substitution at
    residue 1. *)
Example chain_mutation_distance :
  Mutation.calc_dist_from_mutation chain_coord (take 3 chain_coord) [1]
  = Some [1; 0; 1; 2; 3]%float.
Proof. vm_compute. reflexivity. Qed.

(** ** Properties of the sequence clusters and of ambiguous alignments *)

Section Clusters.

Lemma append_cons (c : Ascii.ascii) (s t : string) :
  String c s +:+ t = String c (s +:+ t).
Proof. reflexivity. Qed.

Lemma append_nil_r (s : string) : s +:+ "" = s.
Proof. induction s as [|c s IH]; [done|]. by rewrite append_cons, IH. Qed.

Lemma append_assoc (a b c : string) : (a +:+ b) +:+ c = a +:+ (b +:+ c).
Proof. induction a as [|x a IH]; [done|]. by rewrite !append_cons, IH. Qed.

Lemma concat_app (l1 l2 : list string) :
  Str.concat (l1 ++ l2) = Str.concat l1 +:+ Str.concat l2.
Proof.
  unfold Str.concat. induction l1 as [|x l1 IH]; simpl; [done|].
  by rewrite IH, append_assoc.
Qed.

Lemma snd_zip_take {X Y} (l : list X) (k : list Y) :
  (zip l k).*2 = take (length l) k.
Proof.
  revert k. induction l as [|x l IH]; intros [|y k]; simpl; try done.
  by rewrite IH.
Qed.

Lemma fst_zip_take {X Y} (l : list X) (k : list Y) :
  (zip l k).*1 = take (length k) l.
Proof.
  revert k. induction l as [|x l IH]; intros [|y k]; simpl; try done.
  by rewrite IH.
Qed.

Lemma join_cons (c : Ascii.ascii) (l : list Ascii.ascii) :
  Str.join (c :: l) = String c (Str.join l).
Proof. done. Qed.

Lemma cluster_loop_spec (cut : float) (pairs : list (Ascii.ascii * float)) :
  ∀ (acc : list string) (cluster : string),
    cluster ≠ "" → Forall (λ c, c ≠ "") acc →
    let r := PdbParser.cluster_loop cut acc cluster pairs in
    Str.concat r = Str.concat acc +:+ cluster +:+ Str.join pairs.*1
    ∧ Forall (λ c, c ≠ "") r
    ∧ length r = length acc + 1 + breaks cut pairs.*2.
Proof.
  induction pairs as [|[s d] pairs IH]; intros acc cluster Hc Hacc; simpl.
  - rewrite concat_app. simpl. rewrite !append_nil_r.
    split; [done|]. split.
    + apply Forall_app. split; [done|]. by constructor.
    + rewrite length_app. simpl. unfold breaks. simpl. lia.
  - unfold breaks. rewrite filter_cons. fold (breaks cut pairs.*2).
    destruct (d <? cut)%float eqn:Hd.
    + rewrite decide_False by done.
      destruct (IH acc (cluster +:+ String s "")) as (H1 & H2 & H3);
        [by destruct cluster | done |].
      split; [by rewrite H1, append_assoc|]. split; [done|].
      rewrite H3. reflexivity.
    + rewrite decide_True by done.
      destruct (IH (acc ++ [cluster]) (String s "")) as (H1 & H2 & H3);
        [done | apply Forall_app; split; [done | by constructor] |].
      split; [|split; [done|]].
      * rewrite H1, concat_app. simpl. rewrite append_nil_r.
        by rewrite append_assoc.
      * rewrite H3, length_app. unfold breaks. simpl.
        change (list_fmap (Ascii.ascii * float)%type float snd pairs)
          with (pairs.*2). lia.
Qed.

(** X21: for a sequence that is not empty, [find_neighbours] returns
    clusters, none of them empty, that put together give back the sequence
    in order, cut off after as many residues as there are coordinates (one
    at least); there is one more cluster than there are consecutive
    residues whose distance is not below the cutoff. *)
Theorem find_neighbours_partition (seq : list Ascii.ascii) (xyz : matrix)
  (cut : float) :
  0 < length seq →
  ∃ clusters, PdbParser.find_neighbours seq xyz cut = Some clusters
    ∧ Str.concat clusters = Str.join (take (Nat.max 1 (length xyz)) seq)
    ∧ (length seq ≤ length xyz → Str.concat clusters = Str.join seq)
    ∧ Forall (λ c, c ≠ "") clusters
    ∧ length clusters
      = 1 + breaks cut (take (length seq - 1)
                          (PdbParser.consecutive_distances xyz)).
Proof.
  intros Hlen.
  destruct seq as [|s0 rest]; [simpl in Hlen; lia|].
  exists (PdbParser.cluster_loop cut [] (String s0 "")
            (zip rest (PdbParser.consecutive_distances xyz))).
  split; [reflexivity|].
  destruct (cluster_loop_spec cut
              (zip rest (PdbParser.consecutive_distances xyz)) []
              (String s0 "")) as (H1 & H2 & H3); [done | done |].
  assert (HD : length (PdbParser.consecutive_distances xyz)
               = length xyz - 1).
  { unfold PdbParser.consecutive_distances.
    rewrite length_zip_with, length_take, length_drop. lia. }
  assert (Hc : Str.concat
                 (PdbParser.cluster_loop cut [] (String s0 "")
                    (zip rest (PdbParser.consecutive_distances xyz)))
               = Str.join (take (Nat.max 1 (length xyz)) (s0 :: rest))).
  { rewrite H1, fst_zip_take, HD.
    replace (Nat.max 1 (length xyz)) with (S (length xyz - 1)) by lia.
    done. }
  split; [exact Hc|]. split; [|split; [done|]].
  - intros Hle. rewrite Hc. by rewrite take_ge by lia.
  - rewrite H3. simpl. rewrite Nat.sub_0_r. by rewrite snd_zip_take.
Qed.

End Clusters.

Lemma find_neighbours_partition_broken :
  ∃ clusters, PdbParser.find_neighbours broken_seq broken_xyz PdbParser.default_cut
              = Some clusters
    ∧ Str.concat clusters
      = Str.join (take (Nat.max 1 (length broken_xyz)) broken_seq)
    ∧ (length broken_seq ≤ length broken_xyz →
       Str.concat clusters = Str.join broken_seq)
    ∧ Forall (λ c, c ≠ "") clusters
    ∧ length clusters
      = 1 + breaks PdbParser.default_cut
              (take (length broken_seq - 1)
                 (PdbParser.consecutive_distances broken_xyz)).
Proof.
  apply (find_neighbours_partition broken_seq broken_xyz PdbParser.default_cut).
  vm_compute. lia.
Defined.

(** The chain broken after the second residue gives two clusters; an empty
    sequence raises. *)
Example broken_clusters :
  PdbParser.find_neighbours broken_seq broken_xyz PdbParser.default_cut
  = Some ["AC"; "DE"]
  ∧ PdbParser.find_neighbours [] broken_xyz PdbParser.default_cut = None.
Proof. split; vm_compute; reflexivity. Qed.

Section Ambiguity.

Lemma rank_S (c0 : list Ascii.ascii) (i : nat) (a : Ascii.ascii) :
  c0 !! i = Some a →
  rank c0 (S i) = rank c0 i + (if decide (a ≠ Chars.gap) then 1 else 0).
Proof.
  intros Ha. unfold rank. rewrite (take_S_r _ _ _ Ha), filter_app, length_app.
  f_equal. rewrite filter_cons, filter_nil. by destruct (decide _).
Qed.

Lemma rank_mono (c0 : list Ascii.ascii) (i m : nat) :
  i + m ≤ length c0 → rank c0 i ≤ rank c0 (i + m).
Proof.
  induction m as [|m IH]; intros Hle; [by rewrite Nat.add_0_r|].
  destruct (lookup_lt_is_Some_2 c0 (i + m)) as [a Ha]; [lia|].
  replace (i + S m) with (S (i + m)) by lia.
  rewrite (rank_S _ _ _ Ha). specialize (IH ltac:(lia)). lia.
Qed.

Lemma cand_column_Some (rows : list (list Ascii.ascii)) (n i : nat) :
  Forall (λ r : list Ascii.ascii, length r = n) rows → i < n →
  ∃ col, PdbParser.cand_column rows i = Some col
         ∧ (Chars.gap ∈ col ↔ ¬ gap_free rows i).
Proof.
  intros Hall Hi. unfold PdbParser.cand_column, gap_free.
  induction Hall as [|row rows Hrow Hall IH]; simpl.
  - exists []. split; [done|]. split; [intros H; by apply not_elem_of_nil in H|].
    intros H. destruct H. constructor.
  - destruct IH as (col & -> & Hcol).
    destruct (lookup_lt_is_Some_2 row i) as [a Ha]; [lia|].
    rewrite Ha. simpl. exists (a :: col). split; [done|].
    rewrite elem_of_cons, Forall_cons, Hcol, Ha. split.
    + intros [<- | Hn] [H1 H2]; [done | by apply Hn].
    + intros Hn. destruct (decide (Chars.gap = a)) as [->|Hne]; [by left|].
      right. intros H2. apply Hn. split; [|done]. congruence.
Qed.

Lemma resolve_loop_spec (c0 : list Ascii.ascii)
  (cs : list (list Ascii.ascii)) (m : nat) :
  Forall (λ r : list Ascii.ascii, length r = length c0) cs →
  ∀ (a : nat) (idx : list Z), a + m = length c0 →
    PdbParser.resolve_loop (c0 :: cs) (seq a m) (Z.of_nat (rank c0 a) - 1) idx
    = Some (idx ++ ((λ i, Z.of_nat (rank c0 i))
                      <$> filter (gap_free (c0 :: cs)) (seq a m))).
Proof.
  intros Hcs. induction m as [|m IH]; intros a idx Ham; simpl.
  - by rewrite app_nil_r.
  - destruct (cand_column_Some (c0 :: cs) (length c0) a) as (col & Hcol & Hgap);
      [by constructor | lia |].
    simpl in Hcol. rewrite Hcol. simpl.
    destruct (lookup_lt_is_Some_2 c0 a) as [x Hx]; [lia|].
    pose proof (rank_S _ _ _ Hx) as HS.
    rewrite filter_cons.
    destruct (decide (gap_free (c0 :: cs) a)) as [Hgf|Hgf].
    + rewrite bool_decide_eq_false_2 by tauto. simpl.
      assert (x ≠ Chars.gap).
      { apply Forall_cons in Hgf as [H0 _]. congruence. }
      rewrite decide_True in HS by done.
      replace (Z.of_nat (rank c0 a) - 1 + 1)%Z
        with (Z.of_nat (rank c0 (S a)) - 1)%Z by lia.
      rewrite IH by lia. f_equal. rewrite <- app_assoc. f_equal. simpl.
      f_equal. lia.
    + rewrite bool_decide_eq_true_2 by tauto. simpl. rewrite Hx. simpl.
      destruct (Ascii.eqb_spec x Chars.gap) as [E|E]; simpl.
      * rewrite decide_False in HS by tauto.
        replace (Z.of_nat (rank c0 a) - 1)%Z
          with (Z.of_nat (rank c0 (S a)) - 1)%Z by lia.
        by rewrite IH by lia.
      * rewrite decide_True in HS by done.
        replace (Z.of_nat (rank c0 a) - 1 + 1)%Z
          with (Z.of_nat (rank c0 (S a)) - 1)%Z by lia.
        by rewrite IH by lia.
Qed.

Lemma ranks_sorted (c0 : list Ascii.ascii) (cs : list (list Ascii.ascii))
  (m : nat) :
  ∀ a, a + m ≤ length c0 →
    let l := (λ i, Z.of_nat (rank c0 i))
               <$> filter (gap_free (c0 :: cs)) (seq a m) in
    StronglySorted Z.lt l
    ∧ Forall (λ k, (Z.of_nat (rank c0 a) ≤ k < Z.of_nat (rank c0 (a + m)))%Z) l.
Proof.
  induction m as [|m IH]; intros a Ham; simpl.
  - split; constructor.
  - destruct (IH (S a)) as [Hs Hf]; [lia|].
    replace (S a + m) with (a + S m) in Hf by lia.
    destruct (lookup_lt_is_Some_2 c0 a) as [x Hx]; [lia|].
    pose proof (rank_S _ _ _ Hx) as HS.
    pose proof (rank_mono c0 (S a) m ltac:(lia)) as Hm.
    replace (S a + m) with (a + S m) in Hm by lia.
    rewrite filter_cons.
    destruct (decide (gap_free (c0 :: cs) a)) as [Hgf|Hgf].
    + assert (x ≠ Chars.gap).
      { apply Forall_cons in Hgf as [H0 _]. congruence. }
      rewrite decide_True in HS by done.
      rewrite fmap_cons. split.
      * constructor; [exact Hs|].
        eapply Forall_impl; [exact Hf|]. simpl. lia.
      * constructor; [lia|].
        eapply Forall_impl; [exact Hf|]. simpl. lia.
    + split; [exact Hs|].
      eapply Forall_impl; [exact Hf|]. simpl. destruct (decide _); lia.
Qed.

(** X22: for candidate alignments of one length, [resolve_ambiguity]
    returns, for every column that has no gap in any candidate, the number
    of residues the first candidate has before that column: indices into
    the residues of the first candidate, strictly ascending and below their
    number. *)
Theorem resolve_ambiguity_spec (c0 : string) (cs : list string) :
  Forall (λ c, String.length c = String.length c0) cs →
  let rows := String.list_ascii_of_string <$> c0 :: cs in
  let residues := rank (String.list_ascii_of_string c0) in
  ∃ idx, PdbParser.resolve_ambiguity (c0 :: cs) = Some idx
    ∧ idx = (λ i, Z.of_nat (residues i))
              <$> filter (gap_free rows) (seq 0 (String.length c0))
    ∧ StronglySorted Z.lt idx
    ∧ Forall (λ k, (0 ≤ k < Z.of_nat (residues (String.length c0)))%Z) idx.
Proof.
  intros Hlen rows residues.
  set (l0 := String.list_ascii_of_string c0).
  assert (Hcs : Forall (λ r : list Ascii.ascii, length r = length l0)
                  (String.list_ascii_of_string <$> cs)).
  { apply Forall_fmap. eapply Forall_impl; [exact Hlen|]. intros c Hc.
    simpl. unfold l0. by rewrite !list_ascii_length. }
  assert (Hl0 : length l0 = String.length c0)
    by apply list_ascii_length.
  eexists. split; [|split; [reflexivity|]].
  - unfold PdbParser.resolve_ambiguity. rewrite fmap_cons. fold l0.
    simpl. rewrite Nat.eqb_refl. simpl.
    replace (forallb _ _) with true.
    + change (-1)%Z with (Z.of_nat (rank l0 0) - 1)%Z.
      rewrite (resolve_loop_spec l0 _ (length l0) Hcs 0 []) by lia.
      by rewrite Hl0.
    + symmetry. apply forallb_forall. intros r Hr.
      apply Nat.eqb_eq. rewrite Forall_forall in Hcs. apply Hcs.
      by apply list_elem_of_In.
  - destruct (ranks_sorted l0 (String.list_ascii_of_string <$> cs)
                (String.length c0) 0) as [Hs Hf]; [lia|].
    split; [exact Hs|]. eapply Forall_impl; [exact Hf|].
    intros k [Hk1 Hk2]. unfold residues. fold l0. simpl in Hk2. lia.
Qed.

End Ambiguity.

Lemma resolve_ambiguity_spec_two :
  ∃ idx, PdbParser.resolve_ambiguity ("AC-DE" :: ["A-CDE"]) = Some idx
    ∧ idx = (λ i, Z.of_nat (rank (String.list_ascii_of_string "AC-DE") i))
              <$> filter (gap_free (String.list_ascii_of_string
                                      <$> "AC-DE" :: ["A-CDE"]))
                    (seq 0 (String.length "AC-DE"))
    ∧ StronglySorted Z.lt idx
    ∧ Forall (λ k, (0 ≤ k < Z.of_nat
                              (rank (String.list_ascii_of_string "AC-DE")
                                 (String.length "AC-DE")))%Z) idx.
Proof.
  apply (resolve_ambiguity_spec "AC-DE" ["A-CDE"]). repeat constructor.
Defined.

(** Of the four residues, the second is ambiguous; no candidate, or
    candidates of different lengths, raise. *)
Example two_candidates_resolved :
  PdbParser.resolve_ambiguity two_candidates = Some [0; 2; 3]%Z
  ∧ PdbParser.resolve_ambiguity [] = None
  ∧ PdbParser.resolve_ambiguity ["AC-DE"; "ACDE"] = None.
Proof. repeat split; vm_compute; reflexivity. Qed.
